(** * GitKeep Manager: ignore rules and the directory walker

    A shallow embedding of [src/gitkeep.ts]: the gitignore pattern compiler
    ([escapeRegExp], [patternToRegExp], [loadIgnoreRules]), the rule table
    loader ([loadAllIgnoreRules]), the [RulesAccumulator], the matcher
    ([matchRule], [isIgnored]) and the post-order walker ([walkDirectory],
    [createGitkeep], [removeGitkeep]).

    Conventions of the embedding.
    - A JavaScript string is a [string]; each [ascii] stands for one UTF-16
      code unit below 256.  The line terminators U+2028 and U+2029 and the
      white space above U+00A0 are therefore outside the model.
    - A [RegExp] object is the syntax tree obtained from its source text by
      [RegExp_new]; [RegExp_test] is the backtracking matcher run from every
      start index.  The program builds its expressions without flags, so
      [test] keeps no state between calls.
    - The file system is a tree of entries with POSIX, case-sensitive
      names.  Names are path components, and paths are POSIX paths relative
      to the root, [.] for the root itself.  A regular file is given with
      its text and can be read; permissions are kept for directories only.
    - An entry that is neither a regular file nor a directory (a symbolic
      link, a device, a socket) has a name only: what it leads to is not
      part of the tree.  A write through such an entry succeeds and leaves
      the listing as it is, as it does through a link to a file; a read
      through it gives no text.  Every property that depends on one of the
      two assumes that no such entry carries a name that the program opens
      ([plainTree]).
    - The marker is written at [path.join(dirPath, gitkeepName)].  The
      model keeps it as an entry of the directory, which is where that path
      leads when the marker name is a file name ([isFileName]); every
      property that depends on a marker being written assumes it.
    - [debug], [warn] and [success] only print; they are left out.  The
      [info] diagnostics of check mode and the dry-run notices of [log] are
      kept in a console trace.

    The definitions come first; the properties start at "Properties". *)

From Stdlib Require Import String Ascii.
From stdpp Require Import base option list gmap strings.

Local Open Scope string_scope.
Local Open Scope list_scope.

(** ** String primitives of the JavaScript runtime *)

Module Js.

Definition chr_eqb (a b : ascii) : bool := Ascii.eqb a b.

(** [s.startsWith(p)] *)
Definition startsWith (p s : string) : bool := String.prefix p s.

(** [s.endsWith(c)] for a one-character [c]. *)
Fixpoint endsWith1 (c : ascii) (s : string) : bool :=
  match s with
  | EmptyString => false
  | String a EmptyString => chr_eqb a c
  | String _ s' => endsWith1 c s'
  end.

(** [s.slice(1)] *)
Definition slice1 (s : string) : string :=
  match s with
  | EmptyString => EmptyString
  | String _ s' => s'
  end.

(** [s.slice(0, -1)] *)
Fixpoint sliceInit (s : string) : string :=
  match s with
  | EmptyString => EmptyString
  | String _ EmptyString => EmptyString
  | String a s' => String a (sliceInit s')
  end.

(** White space and line terminators removed by [trim]. *)
Definition isWhite (c : ascii) : bool :=
  let n := nat_of_ascii c in
  (Nat.leb 9 n && Nat.leb n 13) || Nat.eqb n 32 || Nat.eqb n 160.

Fixpoint trimStart (s : string) : string :=
  match s with
  | EmptyString => EmptyString
  | String a s' => if isWhite a then trimStart s' else s
  end.

(** Drops the trailing white space: a character is kept when it is not
    white or when something is kept after it. *)
Fixpoint trimEnd (s : string) : string :=
  match s with
  | EmptyString => EmptyString
  | String a s' =>
      match trimEnd s' with
      | EmptyString => if isWhite a then EmptyString else String a EmptyString
      | t => String a t
      end
  end.

(** [s.trim()] *)
Definition trim (s : string) : string := trimEnd (trimStart s).

(** [s.split(c)] for a one-character separator: never empty, the empty
    string gives one empty piece. *)
Fixpoint split (c : ascii) (s : string) : list string :=
  match s with
  | EmptyString => [EmptyString]
  | String a s' =>
      if chr_eqb a c then EmptyString :: split c s'
      else match split c s' with
           | [] => [String a EmptyString]
           | p :: ps => String a p :: ps
           end
  end.

(** [l.join(sep)] *)
Fixpoint join (sep : string) (l : list string) : string :=
  match l with
  | [] => EmptyString
  | [x] => x
  | x :: l' => x +:+ sep +:+ join sep l'
  end.

(** [content.split(/\r?\n/)] *)
Fixpoint splitLines (s : string) : list string :=
  match s with
  | EmptyString => [EmptyString]
  | String a s' =>
      let rest := splitLines s' in
      if chr_eqb a "010" then EmptyString :: rest
      else if chr_eqb a "013" && startsWith (String "010" EmptyString) s' then
        (* a carriage return before a line feed belongs to the separator *)
        rest
      else match rest with
           | [] => [String a EmptyString]
           | p :: ps => String a p :: ps
           end
  end.

End Js.

(** ** Regular expressions of the runtime

    Only the syntax that [patternToRegExp] can produce is modelled:
    literals, identity escapes, [.], negated classes of plain characters,
    non-capturing groups, alternation, the assertions [^] and [$], the
    quantifier [?] and the quantifier [*] on a one-character atom.
    [RegExp_new] answers [None] on anything else, which stands for the
    [SyntaxError] of the constructor. *)

Inductive charset : Type :=
| CsDot                      (* [.]: anything but a line terminator *)
| CsChar (c : ascii)         (* a literal character *)
| CsNot (cs : list ascii).   (* [[^...]] *)

Inductive RegExp : Type :=
| ReEmpty
| ReBol                      (* [^] *)
| ReEol                      (* [$] *)
| ReSet (cs : charset)
| ReStar (cs : charset)
| ReOpt (r : RegExp)
| ReCat (r1 r2 : RegExp)
| ReAlt (r1 r2 : RegExp).

Definition isLineTerminator (c : ascii) : bool :=
  Js.chr_eqb c "010" || Js.chr_eqb c "013".

Definition in_charset (cs : charset) (c : ascii) : bool :=
  match cs with
  | CsDot => negb (isLineTerminator c)
  | CsChar a => Js.chr_eqb a c
  | CsNot l => negb (existsb (Js.chr_eqb c) l)
  end.

(** Greedy iteration of a one-character atom, then the continuation. *)
Fixpoint star_match (cs : charset) (k : bool -> string -> bool)
    (bol : bool) (s : string) : bool :=
  match s with
  | EmptyString => k bol s
  | String c s' => (in_charset cs c && star_match cs k false s') || k bol s
  end.

(** Backtracking matcher in continuation style.  [bol] tells whether the
    current position is index 0, [s] is the input that is left. *)
Fixpoint re_match (r : RegExp) (k : bool -> string -> bool)
    (bol : bool) (s : string) : bool :=
  match r with
  | ReEmpty => k bol s
  | ReBol => bol && k bol s
  | ReEol => match s with EmptyString => k bol s | _ => false end
  | ReSet cs =>
      match s with
      | EmptyString => false
      | String c s' => in_charset cs c && k false s'
      end
  | ReStar cs => star_match cs k bol s
  | ReOpt r1 => re_match r1 k bol s || k bol s
  | ReCat r1 r2 => re_match r1 (re_match r2 k) bol s
  | ReAlt r1 r2 => re_match r1 k bol s || re_match r2 k bol s
  end.

Definition accept : bool -> string -> bool := fun _ _ => true.

(** The start index moves from 0 to the length of the input. *)
Fixpoint re_search (r : RegExp) (bol : bool) (s : string) : bool :=
  re_match r accept bol s
  || match s with
     | EmptyString => false
     | String _ s' => re_search r false s'
     end.

(** [regex.test(s)] *)
Definition RegExp_test (r : RegExp) (s : string) : bool := re_search r true s.

(** *** The constructor: from source text to syntax tree *)

(** One open group: the alternatives that are complete, the terms of the
    alternative being read (both latest first), and whether the latest term
    may take a quantifier. *)
Record frame : Type := Frame {
  f_alts : list RegExp;
  f_terms : list RegExp;
  f_quant : bool
}.

Definition frame0 : frame := Frame [] [] false.

Definition seq_of (ts : list RegExp) : RegExp := foldr ReCat ReEmpty ts.

Fixpoint alt_of (a : RegExp) (l : list RegExp) : RegExp :=
  match l with
  | [] => a
  | b :: l' => ReAlt a (alt_of b l')
  end.

Definition close_frame (f : frame) : RegExp :=
  match rev (seq_of (rev (f_terms f)) :: f_alts f) with
  | [] => ReEmpty
  | a :: l => alt_of a l
  end.

Definition push_term (t : RegExp) (q : bool) (f : frame) : frame :=
  Frame (f_alts f) (t :: f_terms f) q.

Definition next_alt (f : frame) : frame :=
  Frame (seq_of (rev (f_terms f)) :: f_alts f) [] false.

Definition quantify_opt (f : frame) : option frame :=
  match f_quant f, f_terms f with
  | true, t :: ts => Some (Frame (f_alts f) (ReOpt t :: ts) false)
  | _, _ => None
  end.

Definition quantify_star (f : frame) : option frame :=
  match f_quant f, f_terms f with
  | true, ReSet cs :: ts => Some (Frame (f_alts f) (ReStar cs :: ts) false)
  | _, _ => None
  end.

(** The syntax characters, which [\] turns into literals. *)
Definition isSyntaxChar (c : ascii) : bool :=
  existsb (Js.chr_eqb c)
    ["."; "*"; "+"; "?"; "^"; "$"; "{"; "}"; "("; ")"; "|"; "["; "]"; "\"; "/"]%char.

(** [cls] is [Some acc] while a negated class is being read. *)
Fixpoint re_parse (s : string) (cls : option (list ascii)) (cur : frame)
    (stack : list frame) : option RegExp :=
  match s with
  | EmptyString =>
      match cls, stack with
      | None, [] => Some (close_frame cur)
      | _, _ => None
      end
  | String c s' =>
      match cls with
      | Some acc =>
          if Js.chr_eqb c "]" then
            re_parse s' None (push_term (ReSet (CsNot (rev acc))) true cur) stack
          else if Js.chr_eqb c "\" || Js.chr_eqb c "-" then None
          else re_parse s' (Some (c :: acc)) cur stack
      | None =>
          if Js.chr_eqb c "(" then
            match s' with
            | String "?" (String ":" s'') => re_parse s'' None frame0 (cur :: stack)
            | _ => None
            end
          else if Js.chr_eqb c ")" then
            match stack with
            | [] => None
            | f :: stack' => re_parse s' None (push_term (close_frame cur) true f) stack'
            end
          else if Js.chr_eqb c "|" then re_parse s' None (next_alt cur) stack
          else if Js.chr_eqb c "^" then re_parse s' None (push_term ReBol false cur) stack
          else if Js.chr_eqb c "$" then re_parse s' None (push_term ReEol false cur) stack
          else if Js.chr_eqb c "." then re_parse s' None (push_term (ReSet CsDot) true cur) stack
          else if Js.chr_eqb c "?" then
            match quantify_opt cur with
            | Some f => re_parse s' None f stack
            | None => None
            end
          else if Js.chr_eqb c "*" then
            match quantify_star cur with
            | Some f => re_parse s' None f stack
            | None => None
            end
          else if Js.chr_eqb c "\" then
            match s' with
            | String e s'' =>
                if isSyntaxChar e
                then re_parse s'' None (push_term (ReSet (CsChar e)) true cur) stack
                else None
            | EmptyString => None
            end
          else if Js.chr_eqb c "[" then
            match s' with
            | String "^" s'' => re_parse s'' (Some []) cur stack
            | _ => None
            end
          else if Js.chr_eqb c "+" || Js.chr_eqb c "{" || Js.chr_eqb c "}"
                  || Js.chr_eqb c "]" then None
          else re_parse s' None (push_term (ReSet (CsChar c)) true cur) stack
      end
  end.

(** [new RegExp(source)] *)
Definition RegExp_new (source : string) : option RegExp :=
  re_parse source None frame0 [].

(** ** File tree *)

Local Unset Elimination Schemes.

(** A directory entry as [readdir] reports it with [withFileTypes]:
    [isFile()], [isDirectory()], or neither (links, sockets, devices).
    [readable] tells whether [readdir] succeeds on the directory and
    [writable] whether entries can be added to it and removed from it.
    The target of a link is not recorded. *)
Inductive entry : Type :=
| File (name : string) (text : string)
| Directory (name : string) (readable writable : bool) (children : list entry)
| Other (name : string).

Local Set Elimination Schemes.

Definition entryName (e : entry) : string :=
  match e with
  | File n _ => n
  | Directory n _ _ _ => n
  | Other n => n
  end.

Definition isFile (e : entry) : bool :=
  match e with File _ _ => true | _ => false end.

Definition isDirectory (e : entry) : bool :=
  match e with Directory _ _ _ _ => true | _ => false end.

(** [fs.writeFile] of [name] in a directory with entries [es], for a
    [name] that is a file name: a new regular file is added at the end, an
    existing one is overwritten; the call fails on a directory that is not
    writable and on a name held by a directory.  On a name held by an
    entry that is neither, the write follows the entry: it succeeds and
    the listing stays as it is; what it changes elsewhere is outside the
    tree. *)
Fixpoint overwrite (name text : string) (es : list entry) : option (list entry) :=
  match es with
  | [] => Some [File name text]
  | e :: es' =>
      if String.eqb (entryName e) name then
        match e with
        | File _ _ => Some (File name text :: es')
        | Directory _ _ _ _ => None
        | Other _ => Some (e :: es')
        end
      else option_map (cons e) (overwrite name text es')
  end.

Definition writeFile (writable : bool) (name text : string) (es : list entry)
    : option (list entry) :=
  if writable then overwrite name text es else None.

(** [fs.unlink]: fails on a directory that is not writable, on a missing
    name and on a name held by a directory. *)
Fixpoint removeEntry (name : string) (es : list entry) : option (list entry) :=
  match es with
  | [] => None
  | e :: es' =>
      if String.eqb (entryName e) name then
        if isDirectory e then None else Some es'
      else option_map (cons e) (removeEntry name es')
  end.

Definition unlink (writable : bool) (name : string) (es : list entry)
    : option (list entry) :=
  if writable then removeEntry name es else None.

(** [fs.readFile] of [name] in a directory with entries [es], after
    [fileExists], for a [name] that is a file name: the text of a regular
    file; [None] when the name is missing and when it is held by a
    directory, where the read fails.  A read through an entry that is
    neither would give the text of what the entry leads to, which the tree
    does not record: [None] stands for it, and the properties of the
    loader that depend on the text assume that no such entry carries the
    name. *)
Fixpoint readFile (name : string) (es : list entry) : option string :=
  match es with
  | [] => None
  | e :: es' =>
      if String.eqb (entryName e) name then
        match e with
        | File _ text => Some text
        | _ => None
        end
      else readFile name es'
  end.

(** ** Pattern compiler *)

Record GitignoreRule : Type := Rule {
  pattern : string;
  isNegated : bool;
  onlyDir : bool;
  anchored : bool;
  baseDir : string;
  regex : RegExp;
  original : string
}.

(** The class of [escapeRegExp]: [[.*+?^${}()|[\]\\]]. *)
Definition isRegExpSpecial (c : ascii) : bool :=
  existsb (Js.chr_eqb c)
    ["."; "*"; "+"; "?"; "^"; "$"; "{"; "}"; "("; ")"; "|"; "["; "]"; "\"]%char.

(** [str.replace(/[.*+?^${}()|[\]\\]/g, "\\$&")] *)
Fixpoint escapeRegExp (str : string) : string :=
  match str with
  | EmptyString => EmptyString
  | String c s' =>
      if isRegExpSpecial c then String "\" (String c (escapeRegExp s'))
      else String c (escapeRegExp s')
  end.

(** The inner loop of [patternToRegExp] over the characters of a segment. *)
Fixpoint segmentRegex (seg : string) : string :=
  match seg with
  | EmptyString => EmptyString
  | String c s' =>
      (if Js.chr_eqb c "*" then "[^/]*"
       else if Js.chr_eqb c "?" then "[^/]"
       else escapeRegExp (String c EmptyString)) +:+ segmentRegex s'
  end.

Definition regexPart (seg : string) : string :=
  if String.eqb seg "**" then "(?:.*/)?" else segmentRegex seg.

(** The source text handed to [new RegExp] by [patternToRegExp]. *)
Definition regexStr (pat : string) (anch : bool) (base : string) (dir : bool)
    : string :=
  let segments := Js.split "/" pat in
  let regexParts := map regexPart segments in
  if anch then
    let basePath := if String.eqb base "." then "" else base +:+ "/" in
    "^" +:+ escapeRegExp basePath +:+ Js.join "/" regexParts
        +:+ (if dir then "(?:/.*)?$" else "$")
  else
    let patternStr := Js.join "/" regexParts in
    if dir then "(?:^|/)" +:+ patternStr +:+ "(?:/.*)?$"
    else "(?:^|/)" +:+ patternStr +:+ "$".

Definition patternToRegExp (pat : string) (anch : bool) (base : string)
    (dir : bool) : option RegExp :=
  RegExp_new (regexStr pat anch base dir).

(** The class of the un-escaping step: [[\\!*?[\]{}()]]. *)
Definition isEscapable (c : ascii) : bool :=
  existsb (Js.chr_eqb c) ["\"; "!"; "*"; "?"; "["; "]"; "{"; "}"; "("; ")"]%char.

(** [line.replace(/\\([\\!*?[\]{}()])/g, "$1")] *)
Fixpoint unescapeMeta (line : string) : string :=
  match line with
  | EmptyString => EmptyString
  | String c s' =>
      match s' with
      | String e s'' =>
          if Js.chr_eqb c "\" && isEscapable e then String e (unescapeMeta s'')
          else String c (unescapeMeta s')
      | EmptyString => String c EmptyString
      end
  end.

(** [line.replace(/\\/g, "/")] *)
Fixpoint backslashToSlash (line : string) : string :=
  match line with
  | EmptyString => EmptyString
  | String c s' =>
      String (if Js.chr_eqb c "\" then "/"%char else c) (backslashToSlash s')
  end.

(** What the body of the line loop of [loadIgnoreRules] reads off a line
    before it compiles the expression. *)
Record stripped : Type := Stripped {
  s_negated : bool;
  s_onlyDir : bool;
  s_anchored : bool;
  s_pattern : string
}.

Definition stripLine (raw : string) : stripped :=
  let isNeg := Js.startsWith "!" raw in
  let line := if isNeg then Js.slice1 raw else raw in
  let line := unescapeMeta line in
  let dir := Js.endsWith1 "/" line in
  let line := if dir then Js.sliceInit line else line in
  let anch := Js.startsWith "/" line in
  let line := if anch then Js.slice1 line else line in
  Stripped isNeg dir anch (backslashToSlash line).

(** Outcome of one iteration of the line loop. *)
Inductive lineResult : Type :=
| Skip                          (* [continue] *)
| Push (r : GitignoreRule)      (* [rules.push] *)
| Throw.                        (* the constructor raised *)

Definition compileLine (relativeDirPosix originalRaw : string) : lineResult :=
  let raw := Js.trim originalRaw in
  if String.eqb raw "" || Js.startsWith "#" raw then Skip
  else
    let st := stripLine raw in
    match patternToRegExp (s_pattern st) (s_anchored st) relativeDirPosix
            (s_onlyDir st) with
    | None => Throw
    | Some re =>
        Push (Rule (s_pattern st) (s_negated st) (s_onlyDir st) (s_anchored st)
                relativeDirPosix re originalRaw)
    end.

(** The line loop: [None] when an iteration raised. *)
Fixpoint compileLines (relativeDirPosix : string) (rawLines : list string)
    (rules : list GitignoreRule) : option (list GitignoreRule) :=
  match rawLines with
  | [] => Some rules
  | raw :: rest =>
      match compileLine relativeDirPosix raw with
      | Skip => compileLines relativeDirPosix rest rules
      | Push r => compileLines relativeDirPosix rest (rules ++ [r])
      | Throw => None
      end
  end.

(** [loadIgnoreRules]: the directory [dirPath] is given by its entries.  A
    missing file, a failed read and an exception inside the [try] block
    all give the empty list. *)
Definition loadIgnoreRules (dirEntries : list entry) (relativeDirPosix : string)
    (filename : string) : list GitignoreRule :=
  match readFile filename dirEntries with
  | None => []
  | Some content =>
      match compileLines relativeDirPosix (Js.splitLines content) [] with
      | Some rules => rules
      | None => []
      end
  end.

(** ** Matcher *)

Definition matchRule (relativePathPosix : string) (rule : GitignoreRule)
    (isDir : bool) : bool :=
  if onlyDir rule && negb isDir then false
  else RegExp_test (regex rule) relativePathPosix.

(** The loop of [isIgnored], started from a running verdict. *)
Fixpoint isIgnored_from (ignored : bool) (relativePathPosix : string)
    (isDir : bool) (rules : list GitignoreRule) : bool :=
  match rules with
  | [] => ignored
  | rule :: rest =>
      isIgnored_from
        (if matchRule relativePathPosix rule isDir then negb (isNegated rule)
         else ignored)
        relativePathPosix isDir rest
  end.

Definition isIgnored (relativePathPosix : string) (isDir : bool)
    (rules : list GitignoreRule) : bool :=
  isIgnored_from false relativePathPosix isDir rules.

(** The last rule of the list that matches, as the specification words it. *)
Definition lastMatching (relativePathPosix : string) (isDir : bool)
    (rules : list GitignoreRule) : option GitignoreRule :=
  find (fun r => matchRule relativePathPosix r isDir) (rev rules).

Definition verdictOf (r : option GitignoreRule) : bool :=
  match r with
  | Some rule => negb (isNegated rule)
  | None => false
  end.

Fixpoint string_forallb (p : ascii -> bool) (s : string) : bool :=
  match s with
  | EmptyString => true
  | String c s' => p c && string_forallb p s'
  end.

Definition noLineTerminator (s : string) : bool :=
  string_forallb (fun c => negb (isLineTerminator c)) s.

(** ** Rule accumulator *)

Abbreviation RulesMap := (gmap string (list GitignoreRule)).

Record RulesAccumulator : Type := Accumulator {
  gitignoreMap : RulesMap;
  gitkeepIgnoreMap : RulesMap;
  cache : RulesMap
}.

(** The constructor starts with an empty cache. *)
Definition newRulesAccumulator (gi gk : RulesMap) : RulesAccumulator :=
  Accumulator gi gk ∅.

(** [accumulated.push(...rules)] when the table has an entry. *)
Definition pushAll (accumulated : list GitignoreRule)
    (entry : option (list GitignoreRule)) : list GitignoreRule :=
  match entry with
  | Some rules => accumulated ++ rules
  | None => accumulated
  end.

(** One iteration of the loop of [accumulate]. *)
Definition accumulateStep (gi gk : RulesMap) (parts : list string)
    (accumulated : list GitignoreRule) (i : nat) : list GitignoreRule :=
  let dir := if Nat.eqb i 0 then "." else Js.join "/" (take i parts) in
  pushAll (pushAll accumulated (gi !! dir)) (gk !! dir).

(** The cache miss branch: [for (let i = 0; i <= parts.length; i++)]. *)
Definition accumulateFresh (gi gk : RulesMap) (relativeDirPosix : string)
    : list GitignoreRule :=
  let parts :=
    if String.eqb relativeDirPosix "." then [] else Js.split "/" relativeDirPosix in
  fold_left (accumulateStep gi gk parts) (seq 0 (S (length parts))) [].

(** [accumulate]: the list and the accumulator after the call. *)
Definition accumulate (this : RulesAccumulator) (relativeDirPosix : string)
    : list GitignoreRule * RulesAccumulator :=
  match cache this !! relativeDirPosix with
  | Some cached => (cached, this)
  | None =>
      let accumulated :=
        accumulateFresh (gitignoreMap this) (gitkeepIgnoreMap this) relativeDirPosix in
      (accumulated,
       Accumulator (gitignoreMap this) (gitkeepIgnoreMap this)
         (<[relativeDirPosix := accumulated]> (cache this)))
  end.

(** Accumulators that the program can hold: built by the constructor and
    changed by [accumulate] only. *)
Inductive reachable (gi gk : RulesMap) : RulesAccumulator -> Prop :=
| reach_new : reachable gi gk (newRulesAccumulator gi gk)
| reach_accumulate this dir :
    reachable gi gk this -> reachable gi gk (accumulate this dir).2.

(** The chain of a directory as the specification describes it.  A
    directory is given by its components below the root; the root has
    none. *)
Fixpoint prefixes (parts : list string) : list (list string) :=
  match parts with
  | [] => []
  | p :: rest => [p] :: map (cons p) (prefixes rest)
  end.

Definition dirOfParts (parts : list string) : string :=
  match parts with
  | [] => "."
  | _ => Js.join "/" parts
  end.

Definition ancestorChain (parts : list string) : list string :=
  "." :: map dirOfParts (prefixes parts).

Definition tableAt (m : RulesMap) (dir : string) : list GitignoreRule :=
  default [] (m !! dir).

Definition chainRules (gi gk : RulesMap) (parts : list string)
    : list GitignoreRule :=
  concat (map (fun dir => tableAt gi dir ++ tableAt gk dir) (ancestorChain parts)).

Definition isComponent (p : string) : bool :=
  string_forallb (fun c => negb (Js.chr_eqb c "/")) p.

(** ** Walker *)

Record Config : Type := MkConfig {
  dryRun : bool;
  verbose : bool;
  content : string;
  clean : bool;
  check : bool;
  excludeDirs : list string;
  gitkeepName : string;
  respectGitkeepIgnore : bool
}.

(** The initial value of the global [config]. *)
Definition defaultConfig : Config :=
  MkConfig false false "" false false
    [".git"; "node_modules"; ".next"; "dist"; "build"] ".gitkeep" true.

(** The messages pushed on [summary.errors]; the text of the system error
    is not modelled. *)
Inductive failure : Type :=
| ReaddirFailed (relativeDir : string)
| CreateFailed (relativePath : string)
| RemoveFailed (relativePath : string).

Record Summary : Type := MkSummary {
  created : list string;
  removed : list string;
  skipped : list string;
  errors : list failure
}.

Definition emptySummary : Summary := MkSummary [] [] [] [].

(** Console lines of [info] (check mode) and [log] (dry run). *)
Inductive notice : Type :=
| EmptyWithoutMarker (relativeDir : string)
| NonEmptyWithMarker (relativeDir : string)
| WouldCreate (relativePath : string)
| WouldRemove (relativePath : string).

(** The objects that a walk mutates besides the file tree. *)
Record State : Type := MkState {
  rulesAccumulator : RulesAccumulator;
  summary : Summary;
  console : list notice
}.

Definition setAccumulator (a : RulesAccumulator) (st : State) : State :=
  MkState a (summary st) (console st).

Definition pushCreated (p : string) (st : State) : State :=
  let s := summary st in
  MkState (rulesAccumulator st)
    (MkSummary (created s ++ [p]) (removed s) (skipped s) (errors s)) (console st).

Definition pushRemoved (p : string) (st : State) : State :=
  let s := summary st in
  MkState (rulesAccumulator st)
    (MkSummary (created s) (removed s ++ [p]) (skipped s) (errors s)) (console st).

Definition pushSkipped (p : string) (st : State) : State :=
  let s := summary st in
  MkState (rulesAccumulator st)
    (MkSummary (created s) (removed s) (skipped s ++ [p]) (errors s)) (console st).

Definition pushError (f : failure) (st : State) : State :=
  let s := summary st in
  MkState (rulesAccumulator st)
    (MkSummary (created s) (removed s) (skipped s) (errors s ++ [f])) (console st).

Definition print (n : notice) (st : State) : State :=
  MkState (rulesAccumulator st) (summary st) (console st ++ [n]).

(** The root-relative path of the entry [name] of the directory
    [relativeDir]: [relativePosix(rootPath, path.join(dirPath, name))], and
    also [path.join(relativeDir, name)]. *)
Definition childPath (relativeDir name : string) : string :=
  if String.eqb relativeDir "." then name else relativeDir +:+ "/" +:+ name.

Section Walker.

Variable config : Config.

(** [createGitkeep]: the entries of the directory and the state after it.
    For a marker name that is a file name, [path.join(dirPath,
    gitkeepName)] is the entry of that name in the directory and its
    root-relative path is [childPath]; other marker names (empty, with a
    [/], [.] or [..]) lead elsewhere and are outside the model. *)
Definition createGitkeep (writable : bool) (es : list entry)
    (relativeDir : string) (st : State) : list entry * State :=
  let relativePath := childPath relativeDir (gitkeepName config) in
  if dryRun config then (es, print (WouldCreate relativePath) st)
  else
    match writeFile writable (gitkeepName config) (content config) es with
    | Some es' => (es', pushCreated relativePath st)
    | None => (es, pushError (CreateFailed relativePath) st)
    end.

(** [removeGitkeep] *)
Definition removeGitkeep (writable : bool) (es : list entry)
    (relativeDir : string) (st : State) : list entry * State :=
  let relativePath := childPath relativeDir (gitkeepName config) in
  if dryRun config then (es, print (WouldRemove relativePath) st)
  else
    match unlink writable (gitkeepName config) es with
    | Some es' => (es', pushRemoved relativePath st)
    | None => (es, pushError (RemoveFailed relativePath) st)
    end.

Definition isMarker (e : entry) : bool :=
  String.eqb (entryName e) (gitkeepName config).

(** The filter that gives [visibleFiles]. *)
Definition isVisible (relativeDir : string) (rules : list GitignoreRule)
    (f : entry) : bool :=
  if isMarker f then false
  else negb (isIgnored (childPath relativeDir (entryName f)) false rules).

Definition visibleFiles (relativeDir : string) (rules : list GitignoreRule)
    (files : list entry) : list entry :=
  List.filter (isVisible relativeDir rules) files.

(** The mode branch that ends [walkDirectory]. *)
Definition reconcile (writable : bool) (es : list entry) (relativeDir : string)
    (isEmpty hasGitkeep : bool) (st : State) : list entry * State :=
  if clean config then
    if hasGitkeep then removeGitkeep writable es relativeDir st else (es, st)
  else if check config then
    if isEmpty && negb hasGitkeep then
      (es, print (EmptyWithoutMarker relativeDir) st)
    else if negb isEmpty && hasGitkeep then
      (es, print (NonEmptyWithMarker relativeDir) st)
    else (es, st)
  else if isEmpty then
    if negb hasGitkeep then createGitkeep writable es relativeDir st else (es, st)
  else
    if hasGitkeep then removeGitkeep writable es relativeDir st else (es, st).

(** The loop over [subdirs]: the flag, the entries after the recursive
    walks and the state.  [walk] is [walkDirectory] itself. *)
Fixpoint walkSubdirs (walk : string -> entry -> State -> bool * entry * State)
    (relativeDir : string) (es : list entry) (hasNonEmptySubdir : bool)
    (st : State) : bool * list entry * State :=
  match es with
  | [] => (hasNonEmptySubdir, [], st)
  | e :: es' =>
      if isDirectory e then
        let '(subdirIsEmpty, e', st') :=
          walk (childPath relativeDir (entryName e)) e st in
        let '(h, es'', st'') :=
          walkSubdirs walk relativeDir es'
            (if subdirIsEmpty then hasNonEmptySubdir else true) st' in
        (h, e' :: es'', st'')
      else
        let '(h, es'', st'') :=
          walkSubdirs walk relativeDir es' hasNonEmptySubdir st in
        (h, e :: es'', st'')
  end.

(** [walkDirectory]: whether the directory is empty, the directory after
    the walk, and the state after the walk.  [readdir] fails on a
    directory that is not readable and on a path that is not a directory;
    the listing [children] is read once, before the recursive calls. *)
Fixpoint walkDirectory (relativeDir : string) (dir : entry) (st : State)
    : bool * entry * State :=
  let dirName := entryName dir in
  if existsb (String.eqb dirName) (excludeDirs config) then (true, dir, st)
  else
    let '(rules, acc) := accumulate (rulesAccumulator st) relativeDir in
    let st := setAccumulator acc st in
    if isIgnored relativeDir true rules then
      (true, dir, pushSkipped relativeDir st)
    else
      match dir with
      | Directory _ true writable children =>
          let files := List.filter isFile children in
          let '(hasNonEmptySubdir, children', st) :=
            walkSubdirs walkDirectory relativeDir children false st in
          let visible := visibleFiles relativeDir rules files in
          let hasGitkeep := existsb isMarker files in
          let isEmpty := Nat.eqb (length visible) 0 && negb hasNonEmptySubdir in
          let '(children'', st) :=
            reconcile writable children' relativeDir isEmpty hasGitkeep st in
          (isEmpty, Directory dirName true writable children'', st)
      | _ => (true, dir, pushError (ReaddirFailed relativeDir) st)
      end.

End Walker.

(** The state in which [main] starts the walk: a new accumulator over the
    loaded tables and an empty summary. *)
Definition initialState (gi gk : RulesMap) : State :=
  MkState (newRulesAccumulator gi gk) emptySummary [].

(** ** Rule table loader *)

Definition GITIGNORE_FILENAME : string := ".gitignore".
Definition GITKEEP_IGNORE_FILENAME : string := ".gitkeepignore".

(** [map.set(relativeDirPosix, rules)] when the list is not empty. *)
Definition setRules (relativeDirPosix : string) (rules : list GitignoreRule)
    (m : RulesMap) : RulesMap :=
  if Nat.ltb 0 (length rules) then <[relativeDirPosix := rules]> m else m.

Section Loader.

Variable config : Config.

Definition loadGitignoreFromPath (dirEntries : list entry)
    (relativeDirPosix : string) : list GitignoreRule :=
  loadIgnoreRules dirEntries relativeDirPosix GITIGNORE_FILENAME.

Definition loadGitkeepIgnoreFromPath (dirEntries : list entry)
    (relativeDirPosix : string) : list GitignoreRule :=
  if respectGitkeepIgnore config
  then loadIgnoreRules dirEntries relativeDirPosix GITKEEP_IGNORE_FILENAME
  else [].

(** The loop of [recursiveLoad] over the entries; [load] is [recursiveLoad]
    itself and [maps] holds the two tables. *)
Fixpoint loadSubdirs
    (load : string -> entry -> RulesMap * RulesMap -> RulesMap * RulesMap)
    (relativeDirPosix : string) (es : list entry) (maps : RulesMap * RulesMap)
    : RulesMap * RulesMap :=
  match es with
  | [] => maps
  | e :: es' =>
      if isDirectory e then
        if existsb (String.eqb (entryName e)) (excludeDirs config)
        then loadSubdirs load relativeDirPosix es' maps
        else
          loadSubdirs load relativeDirPosix es'
            (load (childPath relativeDirPosix (entryName e)) e maps)
      else loadSubdirs load relativeDirPosix es' maps
  end.

Fixpoint recursiveLoad (relativeDirPosix : string) (dir : entry)
    (maps : RulesMap * RulesMap) : RulesMap * RulesMap :=
  match dir with
  | Directory _ readable _ children =>
      let gitignoreMap :=
        setRules relativeDirPosix
          (loadGitignoreFromPath children relativeDirPosix) maps.1 in
      let gitkeepIgnoreMap :=
        setRules relativeDirPosix
          (loadGitkeepIgnoreFromPath children relativeDirPosix) maps.2 in
      if negb readable then (gitignoreMap, gitkeepIgnoreMap)
      else
        loadSubdirs recursiveLoad relativeDirPosix children
          (gitignoreMap, gitkeepIgnoreMap)
  | _ => maps
  end.

(** [loadAllIgnoreRules]: the content table and the marker table. *)
Definition loadAllIgnoreRules (root : entry) : RulesMap * RulesMap :=
  recursiveLoad "." root (∅, ∅).

(** The steps of [main] from the loading of the tables to the walk, under
    the merged configuration [config]: the tables are loaded, then the
    tree is walked from a new accumulator and an empty summary.  The
    reading of the configuration file before these steps and the writing
    of the report after them are not part of it. *)
Definition run (root : entry) : bool * entry * State :=
  let maps := loadAllIgnoreRules root in
  walkDirectory config "." root (initialState maps.1 maps.2).

End Loader.

(** ** Emptiness as the specification computes it

    Steps 1 to 6 of the walker, without the marker actions: an excluded, an
    ignored or an unlistable directory counts as empty; another directory is
    empty when it has no visible file and every subdirectory is empty. *)
Fixpoint emptiness (config : Config) (gi gk : RulesMap) (relativeDir : string)
    (dir : entry) : bool :=
  match dir with
  | Directory dirName readable _ children =>
      if existsb (String.eqb dirName) (excludeDirs config) then true
      else
        let rules := accumulateFresh gi gk relativeDir in
        if isIgnored relativeDir true rules then true
        else if negb readable then true
        else
          Nat.eqb
            (length (visibleFiles config relativeDir rules
                       (List.filter isFile children))) 0
          && forallb
               (fun e => emptiness config gi gk
                           (childPath relativeDir (entryName e)) e)
               children
  | _ => true
  end.

(** ** Auxiliary definitions for the proofs *)

(** The parser state after reading the literals of [s]. *)
Fixpoint push_lits (s : string) (f : frame) : frame :=
  match s with
  | EmptyString => f
  | String c s' => push_lits s' (push_term (ReSet (CsChar c)) true f)
  end.

(** The parser state after reading the expression of a segment. *)
Fixpoint push_segment (seg : string) (f : frame) : frame :=
  match seg with
  | EmptyString => f
  | String c s' =>
      push_segment s'
        (if Js.chr_eqb c "*" then
           Frame (f_alts f) (ReStar (CsNot ["/"%char]) :: f_terms f) false
         else if Js.chr_eqb c "?" then
           push_term (ReSet (CsNot ["/"%char])) true f
         else push_term (ReSet (CsChar c)) true f)
  end.

Definition push_part (seg : string) (f : frame) : frame :=
  if String.eqb seg "**" then
    Frame (f_alts f)
      (ReOpt (seq_of [ReStar CsDot; ReSet (CsChar "/")]) :: f_terms f) false
  else push_segment seg f.

(** The parser state after reading the parts joined by [/]. *)
Fixpoint push_parts (segs : list string) (f : frame) : frame :=
  match segs with
  | [] => f
  | [seg] => push_part seg f
  | seg :: rest =>
      push_parts rest (push_term (ReSet (CsChar "/")) true (push_part seg f))
  end.

(** The syntax tree that [patternToRegExp] builds. *)
Definition patternTree (pat : string) (anch : bool) (base : string) (dir : bool)
    : RegExp :=
  let start :=
    if anch then
      push_lits (if String.eqb base "." then "" else base +:+ "/")
        (push_term ReBol false frame0)
    else
      push_term (ReAlt (seq_of [ReBol]) (seq_of [ReSet (CsChar "/")])) true frame0 in
  let body := push_parts (Js.split "/" pat) start in
  let tail :=
    if dir then
      push_term ReEol false
        (Frame (f_alts body)
           (ReOpt (seq_of [ReSet (CsChar "/"); ReStar CsDot]) :: f_terms body)
           false)
    else push_term ReEol false body in
  close_frame tail.

(** The line is handed to the pattern compiler: it is neither blank nor a
    comment. *)
Definition isPatternLine (originalRaw : string) : bool :=
  let raw := Js.trim originalRaw in
  negb (String.eqb raw "" || Js.startsWith "#" raw).

(** Induction on a file tree, with the hypothesis on every child. *)
Fixpoint entry_ind' (P : entry -> Prop)
    (HFile : forall n t, P (File n t))
    (HDir : forall n r w cs, Forall P cs -> P (Directory n r w cs))
    (HOther : forall n, P (Other n)) (e : entry) : P e :=
  match e with
  | File n t => HFile n t
  | Directory n r w cs =>
      HDir n r w cs
        ((fix all (l : list entry) : Forall P l :=
            match l with
            | [] => @List.Forall_nil _ P
            | x :: l' =>
                @List.Forall_cons _ P x l' (entry_ind' P HFile HDir HOther x) (all l')
            end) cs)
  | Other n => HOther n
  end.

(** No two entries of a directory share a name, anywhere in the tree. *)
Fixpoint distinct (names : list string) : bool :=
  match names with
  | [] => true
  | n :: rest => negb (existsb (String.eqb n) rest) && distinct rest
  end.

Fixpoint wellFormed (e : entry) : bool :=
  match e with
  | Directory _ _ _ children =>
      distinct (map entryName children) && forallb wellFormed children
  | _ => true
  end.


(** [config] with the check flag cleared. *)
Definition withoutCheck (config : Config) : Config :=
  MkConfig (dryRun config) (verbose config) (content config) (clean config)
    false (excludeDirs config) (gitkeepName config) (respectGitkeepIgnore config).

(** The diagnostics of check mode among the console lines. *)
Definition isCheckNotice (n : notice) : bool :=
  match n with
  | EmptyWithoutMarker _ | NonEmptyWithMarker _ => true
  | _ => false
  end.

Definition isExcluded (config : Config) (dir : entry) : bool :=
  existsb (String.eqb (entryName dir)) (excludeDirs config).

(** The entries that a marker action cannot touch: the directories and
    whatever does not carry the marker name. *)
Definition core (config : Config) (es : list entry) : list entry :=
  List.filter (fun e => isDirectory e || negb (isMarker config e)) es.

Definition hasMarkerFile (config : Config) (es : list entry) : bool :=
  existsb (isMarker config) (List.filter isFile es).

Definition normalMode (config : Config) : bool :=
  negb (clean config) && negb (check config) && negb (dryRun config).

(** The tree without the entries that a marker action can add or remove. *)
Fixpoint stripEntries (config : Config) (strip : entry -> entry)
    (es : list entry) : list entry :=
  match es with
  | [] => []
  | e :: es' =>
      if isDirectory e || negb (isMarker config e)
      then strip e :: stripEntries config strip es'
      else stripEntries config strip es'
  end.

Fixpoint stripMarkers (config : Config) (e : entry) : entry :=
  match e with
  | Directory n r w cs =>
      Directory n r w (stripEntries config (stripMarkers config) cs)
  | _ => e
  end.


(** ** Further definitions: pattern semantics *)

(** The terms that the constructor reads off the expression of a segment,
    a part and the parts joined by [/]. *)
Definition charTerm (c : ascii) : RegExp :=
  if Js.chr_eqb c "*" then ReStar (CsNot ["/"%char])
  else if Js.chr_eqb c "?" then ReSet (CsNot ["/"%char])
  else ReSet (CsChar c).

Fixpoint segmentTerms (seg : string) : list RegExp :=
  match seg with
  | EmptyString => []
  | String c s' => charTerm c :: segmentTerms s'
  end.

Definition anyDirs : RegExp := ReOpt (seq_of [ReStar CsDot; ReSet (CsChar "/")]).

Definition partTerms (seg : string) : list RegExp :=
  if String.eqb seg "**" then [anyDirs] else segmentTerms seg.

Fixpoint partsTerms (segs : list string) : list RegExp :=
  match segs with
  | [] => []
  | [seg] => partTerms seg
  | seg :: rest => partTerms seg ++ ReSet (CsChar "/") :: partsTerms rest
  end.

Fixpoint literalTerms (s : string) : list RegExp :=
  match s with
  | EmptyString => []
  | String c s' => ReSet (CsChar c) :: literalTerms s'
  end.

Definition basePathOf (base : string) : string :=
  if String.eqb base "." then "" else base +:+ "/".

Definition prefixTerms (anch : bool) (base : string) : list RegExp :=
  if anch then ReBol :: literalTerms (basePathOf base)
  else [ReAlt (seq_of [ReBol]) (seq_of [ReSet (CsChar "/")])].

Definition tailTerms (dir : bool) : list RegExp :=
  if dir then [ReOpt (seq_of [ReSet (CsChar "/"); ReStar CsDot]); ReEol]
  else [ReEol].

(** Wildcard matching of one pattern segment against one path component:
    [*] stands for a run of characters other than [/], [?] for one such
    character, anything else for itself. *)
Fixpoint globStar (k : string -> bool) (s : string) : bool :=
  match s with
  | EmptyString => k s
  | String c s' => (negb (Js.chr_eqb c "/") && globStar k s') || k s
  end.

Fixpoint glob (seg : string) (s : string) : bool :=
  match seg with
  | EmptyString => String.eqb s ""
  | String p seg' =>
      if Js.chr_eqb p "*" then globStar (glob seg') s
      else
        match s with
        | EmptyString => false
        | String c s' =>
            (if Js.chr_eqb p "?" then negb (Js.chr_eqb c "/") else Js.chr_eqb p c)
            && glob seg' s'
        end
  end.

Definition hasSlash (s : string) : bool := negb (isComponent s).

(** The text after the last [/] of a path. *)
Definition lastComponent (p : string) : string :=
  List.last (Js.split "/" p) "".

(** [stripPrefix pre s]: what is left of [s] after [pre]. *)
Fixpoint stripPrefix (pre s : string) : option string :=
  match pre with
  | EmptyString => Some s
  | String a pre' =>
      match s with
      | EmptyString => None
      | String c s' => if Js.chr_eqb a c then stripPrefix pre' s' else None
      end
  end.

(** A path made of components that are not empty: it is not empty, it
    does not start or end with [/] and holds no [//].  [edge] tells that
    the text starts the path or follows a [/]. *)
Fixpoint properFrom (edge : bool) (s : string) : bool :=
  match s with
  | EmptyString => negb edge
  | String c s' =>
      if Js.chr_eqb c "/" then negb edge && properFrom true s'
      else properFrom false s'
  end.

Definition properPath (p : string) : bool := properFrom true p.

(** A position of the matcher in a path of proper components: what is left
    is proper, and index 0 is an edge. *)
Definition atProper (bol edge : bool) (s : string) : Prop :=
  properFrom edge s = true /\ (bol = true -> edge = true).

(** A continuation that fails at every edge of a proper path. *)
Definition failsAtEdge (k : bool -> string -> bool) : Prop :=
  forall b t, properFrom true t = true -> k b t = false.

(** ** Further definitions: the walk *)

(** Every list of the summary and the console after a step extends what it
    was before the step. *)
Definition extends (st st' : State) : Prop :=
  created (summary st) `prefix_of` created (summary st')
  /\ removed (summary st) `prefix_of` removed (summary st')
  /\ skipped (summary st) `prefix_of` skipped (summary st')
  /\ errors (summary st) `prefix_of` errors (summary st')
  /\ console st `prefix_of` console st'.

(** Two configurations that differ at most in the mode flags, the dry-run
    flag and the marker text. *)
Definition sameNames (c1 c2 : Config) : Prop :=
  excludeDirs c1 = excludeDirs c2 /\ gitkeepName c1 = gitkeepName c2.

(** The marker files are where [target] wants them, in every directory
    that a walk evaluates: [target] maps the emptiness of a directory to
    the presence of its marker. *)
Fixpoint markersSettled (target : bool -> bool) (config : Config)
    (gi gk : RulesMap) (relativeDir : string) (dir : entry) : bool :=
  match dir with
  | Directory dirName readable writable children =>
      if existsb (String.eqb dirName) (excludeDirs config) then true
      else if isIgnored relativeDir true (accumulateFresh gi gk relativeDir) then true
      else if negb readable then true
      else
        Bool.eqb (hasMarkerFile config children)
          (target (emptiness config gi gk relativeDir
                     (Directory dirName readable writable children)))
        && forallb
             (fun e => markersSettled target config gi gk
                         (childPath relativeDir (entryName e)) e)
             children
  | _ => true
  end.

(** Every directory of the tree can be listed. *)
Fixpoint allReadable (e : entry) : bool :=
  match e with
  | Directory _ readable _ children => readable && forallb allReadable children
  | _ => true
  end.

(** The status with which [main] ends. *)
Definition exitCode (s : Summary) : nat :=
  if Nat.ltb 0 (length (errors s)) then 1 else 0.

(** Every directory of the tree can be listed and written to, and the
    marker name is held by regular files only. *)
Fixpoint permissive (config : Config) (e : entry) : bool :=
  match e with
  | Directory _ readable writable children =>
      readable && writable
      && forallb (fun c => isFile c || negb (isMarker config c)) children
      && forallb (permissive config) children
  | _ => true
  end.

(** What a walk can do to an entry of a listing: a subdirectory changes in
    its marker files only, another entry is left as it is. *)
Definition walked (config : Config) (e e1 : entry) : Prop :=
  if isDirectory e then stripMarkers config e1 = stripMarkers config e else e1 = e.

(** ** Command line and configuration merge

    [parseArgs] fills a [Partial<Config>]: a property is present or absent.
    The texts of the messages are not modelled, only which message is
    printed.  [process.exit] ends the program, so the loop stops there. *)

Record PartialConfig : Type := MkPartialConfig {
  optRoot : option string;
  optDryRun : option bool;
  optVerbose : option bool;
  optReportFile : option string;
  optContent : option string;
  optClean : option bool;
  optCheck : option bool;
  optExcludeDirs : option (list string);
  optGitkeepName : option string;
  optRespectGitkeepIgnore : option bool
}.

(** [{}] *)
Definition noOptions : PartialConfig :=
  MkPartialConfig None None None None None None None None None None.

Definition setRoot (v : string) (r : PartialConfig) : PartialConfig :=
  MkPartialConfig (Some v) (optDryRun r) (optVerbose r) (optReportFile r)
    (optContent r) (optClean r) (optCheck r) (optExcludeDirs r)
    (optGitkeepName r) (optRespectGitkeepIgnore r).

Definition setDryRun (v : bool) (r : PartialConfig) : PartialConfig :=
  MkPartialConfig (optRoot r) (Some v) (optVerbose r) (optReportFile r)
    (optContent r) (optClean r) (optCheck r) (optExcludeDirs r)
    (optGitkeepName r) (optRespectGitkeepIgnore r).

Definition setVerbose (v : bool) (r : PartialConfig) : PartialConfig :=
  MkPartialConfig (optRoot r) (optDryRun r) (Some v) (optReportFile r)
    (optContent r) (optClean r) (optCheck r) (optExcludeDirs r)
    (optGitkeepName r) (optRespectGitkeepIgnore r).

Definition setReportFile (v : string) (r : PartialConfig) : PartialConfig :=
  MkPartialConfig (optRoot r) (optDryRun r) (optVerbose r) (Some v)
    (optContent r) (optClean r) (optCheck r) (optExcludeDirs r)
    (optGitkeepName r) (optRespectGitkeepIgnore r).

Definition setContent (v : string) (r : PartialConfig) : PartialConfig :=
  MkPartialConfig (optRoot r) (optDryRun r) (optVerbose r) (optReportFile r)
    (Some v) (optClean r) (optCheck r) (optExcludeDirs r)
    (optGitkeepName r) (optRespectGitkeepIgnore r).

Definition setClean (v : bool) (r : PartialConfig) : PartialConfig :=
  MkPartialConfig (optRoot r) (optDryRun r) (optVerbose r) (optReportFile r)
    (optContent r) (Some v) (optCheck r) (optExcludeDirs r)
    (optGitkeepName r) (optRespectGitkeepIgnore r).

Definition setCheck (v : bool) (r : PartialConfig) : PartialConfig :=
  MkPartialConfig (optRoot r) (optDryRun r) (optVerbose r) (optReportFile r)
    (optContent r) (optClean r) (Some v) (optExcludeDirs r)
    (optGitkeepName r) (optRespectGitkeepIgnore r).

Definition setExcludeDirs (v : list string) (r : PartialConfig) : PartialConfig :=
  MkPartialConfig (optRoot r) (optDryRun r) (optVerbose r) (optReportFile r)
    (optContent r) (optClean r) (optCheck r) (Some v)
    (optGitkeepName r) (optRespectGitkeepIgnore r).

Definition setGitkeepName (v : string) (r : PartialConfig) : PartialConfig :=
  MkPartialConfig (optRoot r) (optDryRun r) (optVerbose r) (optReportFile r)
    (optContent r) (optClean r) (optCheck r) (optExcludeDirs r)
    (Some v) (optRespectGitkeepIgnore r).

Definition setRespectGitkeepIgnore (v : bool) (r : PartialConfig) : PartialConfig :=
  MkPartialConfig (optRoot r) (optDryRun r) (optVerbose r) (optReportFile r)
    (optContent r) (optClean r) (optCheck r) (optExcludeDirs r)
    (optGitkeepName r) (Some v).

(** What [parseArgs] prints: [error] for an option without its value, named
    by the long form of the option, [warn] for an unknown argument, the help
    and the version. *)
Inductive cliOutput : Type :=
| MissingValue (flag : string)
| UnknownArgument (a : string)
| HelpText
| VersionText.

(** [parseArgs] returns or ends the program with a status. *)
Inductive cliResult : Type :=
| Returned (res : PartialConfig)
| Exited (status : nat).

(** The truth value of a string: only the empty string is falsy. *)
Definition truthy (s : string) : bool := negb (String.eqb s "").

(** [if (argvList[i + 1]) { ... argvList[++i] ... } else { error(...);
    process.exit(1) }]: a missing next argument is [undefined]. *)
Definition takeValue {R : Type} (rest : list string)
    (k : string -> list string -> R) (missing : R) : R :=
  match rest with
  | v :: rest' => if truthy v then k v rest' else missing
  | [] => missing
  end.

(** The loop of [parseArgs] from index [i]: [argvList] is the part of the
    arguments from [i] on, [res] the object filled so far. *)
Fixpoint parseLoop (argvList : list string) (res : PartialConfig)
    (out : list cliOutput) : list cliOutput * cliResult :=
  match argvList with
  | [] => (out, Returned res)
  | a :: rest =>
      if String.eqb a "--root" then
        takeValue rest (fun v rest' => parseLoop rest' (setRoot v res) out)
          (out ++ [MissingValue "--root"], Exited 1)
      else if String.eqb a "--dry-run" || String.eqb a "-d" then
        parseLoop rest (setDryRun true res) out
      else if String.eqb a "--verbose" || String.eqb a "-v" then
        parseLoop rest (setVerbose true res) out
      else if String.eqb a "--report" || String.eqb a "-r" then
        takeValue rest (fun v rest' => parseLoop rest' (setReportFile v res) out)
          (out ++ [MissingValue "--report"], Exited 1)
      else if String.eqb a "--content" || String.eqb a "-c" then
        takeValue rest (fun v rest' => parseLoop rest' (setContent v res) out)
          (out ++ [MissingValue "--content"], Exited 1)
      else if String.eqb a "--clean" then
        parseLoop rest (setClean true res) out
      else if String.eqb a "--check" then
        parseLoop rest (setCheck true res) out
      else if String.eqb a "--exclude" || String.eqb a "-e" then
        takeValue rest
          (fun v rest' =>
             parseLoop rest' (setExcludeDirs (map Js.trim (Js.split "," v)) res) out)
          (out ++ [MissingValue "--exclude"], Exited 1)
      else if String.eqb a "--gitkeep-name" then
        takeValue rest (fun v rest' => parseLoop rest' (setGitkeepName v res) out)
          (out ++ [MissingValue "--gitkeep-name"], Exited 1)
      else if String.eqb a "--no-gitkeepignore" then
        parseLoop rest (setRespectGitkeepIgnore false res) out
      else if String.eqb a "--help" || String.eqb a "-h" then
        (out ++ [HelpText], Exited 0)
      else if String.eqb a "--version" then
        (out ++ [VersionText], Exited 0)
      else
        parseLoop rest res (out ++ [UnknownArgument a])
  end.

(** [parseArgs] *)
Definition parseArgs (argvList : list string) : list cliOutput * cliResult :=
  parseLoop argvList noOptions [].

(** One property of [{ ...config, ...fileConfig, ...cliConfig }]: the last
    object that has the property gives its value. *)
Definition spread {A : Type} (base : A) (fileValue cliValue : option A) : A :=
  default (default base fileValue) cliValue.

(** The merge of [main], for the properties that the walker reads.  The
    configuration file is taken to hold values of the declared types. *)
Definition mergeConfig (config : Config) (fileConfig cliConfig : PartialConfig)
    : Config :=
  MkConfig
    (spread (dryRun config) (optDryRun fileConfig) (optDryRun cliConfig))
    (spread (verbose config) (optVerbose fileConfig) (optVerbose cliConfig))
    (spread (content config) (optContent fileConfig) (optContent cliConfig))
    (spread (clean config) (optClean fileConfig) (optClean cliConfig))
    (spread (check config) (optCheck fileConfig) (optCheck cliConfig))
    (spread (excludeDirs config) (optExcludeDirs fileConfig)
       (optExcludeDirs cliConfig))
    (spread (gitkeepName config) (optGitkeepName fileConfig)
       (optGitkeepName cliConfig))
    (spread (respectGitkeepIgnore config) (optRespectGitkeepIgnore fileConfig)
       (optRespectGitkeepIgnore cliConfig)).

(** The flags of a [Partial<Config>] are absent or in the position that
    the command line can give them. *)
Definition flagsAsSet (r : PartialConfig) : bool :=
  default true (optDryRun r) && default true (optVerbose r)
  && default true (optClean r) && default true (optCheck r)
  && negb (default false (optRespectGitkeepIgnore r)).

(** [toPosixPath], with [path.sep] as a parameter. *)
Definition toPosixPath (sep : ascii) (p : string) : string :=
  Js.join "/" (Js.split sep p).

(** Every [sep] replaced by a slash. *)
Fixpoint replaceSep (sep : ascii) (p : string) : string :=
  match p with
  | EmptyString => EmptyString
  | String c p' =>
      String (if Js.chr_eqb c sep then "/"%char else c) (replaceSep sep p')
  end.

(** ** Where the file-system model is exact *)

(** A name that a POSIX file system takes for an entry of any directory:
    not empty, without [/] and NUL, neither [.] nor [..], and at most 255
    bytes long, which 127 code units below 256 never exceed. *)
Definition isFileName (s : string) : bool :=
  negb (String.eqb s "")
  && string_forallb
       (fun c => negb (Js.chr_eqb c "/") && negb (Js.chr_eqb c "000")) s
  && negb (String.eqb s ".") && negb (String.eqb s "..")
  && Nat.leb (String.length s) 127.

(** No name of [names] is carried by an entry that is neither a regular
    file nor a directory. *)
Definition plainEntry (names : list string) (e : entry) : bool :=
  match e with
  | Other n => negb (existsb (String.eqb n) names)
  | _ => true
  end.

Fixpoint plainTree (names : list string) (e : entry) : bool :=
  match e with
  | Directory _ _ _ children =>
      forallb (plainEntry names) children && forallb (plainTree names) children
  | _ => true
  end.


(** ** Clean mode as the specification describes it

    The paths of the markers that clean mode takes away, in the order of
    the walk: the markers of the subdirectories first, in the order of the
    listing, then the marker of the directory itself, whether the
    directory is empty or not.  Excluded, ignored and unlistable
    directories are not entered.  With [needWritable] the directories that
    cannot be written to are left out: their markers stay. *)
Fixpoint cleanPaths (needWritable : bool) (config : Config) (gi gk : RulesMap)
    (relativeDir : string) (dir : entry) : list string :=
  match dir with
  | Directory dirName readable writable children =>
      if existsb (String.eqb dirName) (excludeDirs config) then []
      else if isIgnored relativeDir true (accumulateFresh gi gk relativeDir) then []
      else if negb readable then []
      else
        flat_map
          (fun e => cleanPaths needWritable config gi gk
                      (childPath relativeDir (entryName e)) e)
          children
        ++ (if hasMarkerFile config children && (writable || negb needWritable)
            then [childPath relativeDir (gitkeepName config)]
            else [])
  | _ => []
  end.

(** * Properties *)

(** ** Matcher *)

Lemma isIgnored_from_snoc b p d rules r :
  isIgnored_from b p d (rules ++ [r]) =
  if matchRule p r d then negb (isNegated r) else isIgnored_from b p d rules.
Proof.
  revert b. induction rules as [|r0 rules IH]; intros b; simpl; [done|].
  apply IH.
Qed.

Lemma isIgnored_snoc p d rules r :
  isIgnored p d (rules ++ [r]) =
  if matchRule p r d then negb (isNegated r) else isIgnored p d rules.
Proof. apply isIgnored_from_snoc. Qed.

Lemma isIgnored_lastMatching p d rules :
  isIgnored p d rules = verdictOf (lastMatching p d rules).
Proof.
  induction rules as [|r rules IH] using rev_ind; [done|].
  rewrite isIgnored_snoc. unfold lastMatching. rewrite rev_unit. simpl.
  destruct (matchRule p r d); [done|]. exact IH.
Qed.

Lemma lastMatching_split p d rules r :
  lastMatching p d rules = Some r ->
  exists before after,
    rules = before ++ r :: after
    /\ matchRule p r d = true
    /\ forall r', In r' after -> matchRule p r' d = false.
Proof.
  unfold lastMatching.
  induction rules as [|r0 rules IH] using rev_ind; [done|].
  rewrite rev_unit. simpl.
  destruct (matchRule p r0 d) eqn:Hm.
  - intros [= <-]. exists rules, []. by split; [|split; [|intros ? []]].
  - intros Hf. destruct (IH Hf) as (before & after & -> & Hr & Hafter).
    exists before, (after ++ [r0]). split; [by rewrite <- app_assoc|].
    split; [done|]. intros r' [Hin|Hin]%in_app_or; [by apply Hafter|].
    destruct Hin as [<-|[]]. done.
Qed.

(** C1: [isIgnored] returns the verdict of the last rule of the list that
    matches the path and its type, ignored unless that rule is negated;
    it returns not ignored when no rule matches; and a rule that does not
    match, appended to the list, leaves the verdict as it was. *)
Theorem C1_last_match_wins (p : string) (d : bool) (rules : list GitignoreRule) :
  isIgnored p d rules = verdictOf (lastMatching p d rules)
  /\ (forall r, lastMatching p d rules = Some r ->
        (exists before after,
            rules = before ++ r :: after
            /\ matchRule p r d = true
            /\ forall r', In r' after -> matchRule p r' d = false)
        /\ isIgnored p d rules = negb (isNegated r))
  /\ ((forall r, In r rules -> matchRule p r d = false) ->
        isIgnored p d rules = false)
  /\ (forall r, matchRule p r d = false ->
        isIgnored p d (rules ++ [r]) = isIgnored p d rules).
Proof.
  split; [apply isIgnored_lastMatching|].
  split.
  - intros r Hr. rewrite isIgnored_lastMatching, Hr.
    split; [|done]. by apply lastMatching_split.
  - split.
    + intros Hnone. rewrite isIgnored_lastMatching.
      destruct (lastMatching p d rules) as [r|] eqn:Hr; [|done].
      unfold lastMatching in Hr. apply find_some in Hr as [Hin Hm].
      rewrite <- in_rev in Hin. rewrite (Hnone r Hin) in Hm. done.
    + intros r Hr. rewrite isIgnored_snoc, Hr. done.
Qed.

Lemma C1_last_match_wins_witness :
  let rules :=
    loadIgnoreRules [File ".gitignore" ("*.log" +:+ String "010" "!keep.log")]
      "." ".gitignore" in
  isIgnored "logs/app.log" false rules = true
  /\ isIgnored "logs/keep.log" false rules = false
  /\ isIgnored "logs/readme" false rules = false.
Proof.
  intros rules.
  destruct (C1_last_match_wins "logs/app.log" false rules) as (_ & Happ & _).
  destruct (C1_last_match_wins "logs/keep.log" false rules) as (_ & Hkeep & _).
  destruct (C1_last_match_wins "logs/readme" false rules) as (_ & _ & Hnone & _).
  split; [exact (proj2 (Happ _ eq_refl))|].
  split; [exact (proj2 (Hkeep _ eq_refl))|].
  apply Hnone. intros r [<-|[<-|[]]]; reflexivity.
Defined.

(** ** Pattern compiler *)

Lemma star_dot_all (k : bool -> string -> bool) (bol : bool) (s : string) :
  noLineTerminator s = true ->
  (forall b, k b "" = true) ->
  star_match CsDot k bol s = true.
Proof.
  intros Hs Hk. revert bol Hs.
  induction s as [|c s IH]; intros bol Hs; simpl in *; [apply Hk|].
  apply andb_true_iff in Hs as [Hc Hs]. by rewrite Hc, IH.
Qed.

Lemma re_search_here r bol s :
  re_match r accept bol s = true -> re_search r bol s = true.
Proof. intros H. destruct s; simpl; by rewrite H. Qed.

(** The rule that the line [build/] compiles to in the directory [base]. *)
Lemma compileLine_build base :
  compileLine base "build/" =
  Push (Rule "build" false true false base
          (ReCat (ReAlt (ReCat ReBol ReEmpty) (ReCat (ReSet (CsChar "/")) ReEmpty))
             (seq_of [ReSet (CsChar "b"); ReSet (CsChar "u"); ReSet (CsChar "i");
                      ReSet (CsChar "l"); ReSet (CsChar "d");
                      ReOpt (seq_of [ReSet (CsChar "/"); ReStar CsDot]); ReEol]))
          "build/").
Proof. reflexivity. Qed.

(** C2, as the code has it: the rule compiled from the line [build/]
    matches the path [build] queried as a directory, and every path
    [build/<rest>] queried as a directory when [<rest>] holds no line
    terminator; queried as a file, no path matches it, so neither [build]
    nor the files beneath it do. *)
Theorem C2_build_directory_rule (base : string) :
  exists r,
    compileLine base "build/" = Push r
    /\ onlyDir r = true
    /\ matchRule "build" r true = true
    /\ (forall rest, noLineTerminator rest = true ->
          matchRule ("build/" +:+ rest) r true = true)
    /\ (forall p, matchRule p r false = false).
Proof.
  eexists. split; [apply compileLine_build|].
  split; [done|]. split; [done|]. split; [|done].
  intros rest Hrest. unfold matchRule, RegExp_test.
  change ("build/" +:+ rest)
    with (String "b" (String "u" (String "i" (String "l" (String "d"
            (String "/" rest)))))).
  apply re_search_here. simpl. by rewrite star_dot_all.
Qed.

Lemma C2_build_directory_rule_witness :
  exists r,
    compileLine "src" "build/" = Push r
    /\ matchRule "build/cache/x.o" r true = true
    /\ matchRule "build" r false = false.
Proof.
  destruct (C2_build_directory_rule "src") as (r & Hr & _ & _ & Hsub & Hfile).
  exists r. split; [exact Hr|]. split.
  - exact (Hsub "cache/x.o" eq_refl).
  - exact (Hfile "build").
Defined.

(** C2 fails as stated at a file beneath [build], and at a directory
    beneath [build] whose name holds a line feed. *)
Lemma C2_counterexample :
  exists r,
    compileLine "." "build/" = Push r
    /\ matchRule "build/a.txt" r false = false
    /\ matchRule ("build/a" +:+ String "010" "b") r true = false.
Proof. eexists. split; [apply compileLine_build|]. split; reflexivity. Qed.

Lemma append_String c s t : String c s +:+ t = String c (s +:+ t).
Proof. reflexivity. Qed.

Lemma append_empty t : "" +:+ t = t.
Proof. reflexivity. Qed.

(** The constructor reads an escaped text as the literals of the text. *)
Lemma re_parse_escaped s rest cur stack :
  re_parse (escapeRegExp s +:+ rest) None cur stack =
  re_parse rest None (push_lits s cur) stack.
Proof.
  revert cur. induction s as [|c s IH]; intros cur; [done|].
  simpl escapeRegExp. simpl push_lits. rewrite <- IH.
  destruct c as [[] [] [] [] [] [] [] []]; reflexivity.
Qed.

Lemma append_assoc (a b c : string) : (a +:+ b) +:+ c = a +:+ (b +:+ c).
Proof. induction a as [|x a IH]; [done|]. by rewrite !append_String, IH. Qed.

Lemma re_parse_segment seg rest cur stack :
  re_parse (segmentRegex seg +:+ rest) None cur stack =
  re_parse rest None (push_segment seg cur) stack.
Proof.
  revert cur. induction seg as [|c seg IH]; intros cur; [done|].
  simpl segmentRegex. simpl push_segment. rewrite append_assoc, <- IH.
  destruct c as [[] [] [] [] [] [] [] []]; reflexivity.
Qed.

Lemma re_parse_part seg rest cur stack :
  re_parse (regexPart seg +:+ rest) None cur stack =
  re_parse rest None (push_part seg cur) stack.
Proof.
  unfold regexPart, push_part. destruct (String.eqb seg "**"); [done|].
  apply re_parse_segment.
Qed.

Lemma re_parse_parts segs rest cur stack :
  re_parse (Js.join "/" (map regexPart segs) +:+ rest) None cur stack =
  re_parse rest None (push_parts segs cur) stack.
Proof.
  revert cur. induction segs as [|seg segs IH]; intros cur; [done|].
  destruct segs as [|seg' segs]; [apply re_parse_part|].
  change (Js.join "/" (map regexPart (seg :: seg' :: segs)))
    with (regexPart seg +:+ "/" +:+ Js.join "/" (map regexPart (seg' :: segs))).
  rewrite !append_assoc, re_parse_part.
  change (push_parts (seg :: seg' :: segs) cur)
    with (push_parts (seg' :: segs)
            (push_term (ReSet (CsChar "/")) true (push_part seg cur))).
  rewrite <- IH. reflexivity.
Qed.

(** The constructor accepts every expression that [patternToRegExp] writes. *)
Lemma patternToRegExp_tree pat anch base dir :
  patternToRegExp pat anch base dir = Some (patternTree pat anch base dir).
Proof.
  unfold patternToRegExp, regexStr, RegExp_new, patternTree.
  destruct anch.
  - rewrite append_String, append_empty.
    change (re_parse (String "^" ?s) None frame0 [])
      with (re_parse s None (push_term ReBol false frame0) []).
    rewrite re_parse_escaped, re_parse_parts. by destruct dir.
  - destruct dir.
    + change (re_parse ("(?:^|/)" +:+ ?s) None frame0 [])
        with (re_parse s None
                (push_term (ReAlt (seq_of [ReBol]) (seq_of [ReSet (CsChar "/")]))
                   true frame0) []).
      by rewrite re_parse_parts.
    + change (re_parse ("(?:^|/)" +:+ ?s) None frame0 [])
        with (re_parse s None
                (push_term (ReAlt (seq_of [ReBol]) (seq_of [ReSet (CsChar "/")]))
                   true frame0) []).
      by rewrite re_parse_parts.
Qed.

(** No iteration of the line loop raises: a line is skipped or gives a rule. *)
Lemma compileLine_pattern_line base originalRaw :
  isPatternLine originalRaw = true ->
  compileLine base originalRaw =
  let st := stripLine (Js.trim originalRaw) in
  Push (Rule (s_pattern st) (s_negated st) (s_onlyDir st) (s_anchored st) base
          (patternTree (s_pattern st) (s_anchored st) base (s_onlyDir st))
          originalRaw).
Proof.
  unfold isPatternLine, compileLine. intros Hline%negb_true_iff.
  cbv zeta. by rewrite Hline, patternToRegExp_tree.
Qed.

Lemma compileLine_skip base originalRaw :
  isPatternLine originalRaw = false -> compileLine base originalRaw = Skip.
Proof.
  unfold isPatternLine, compileLine. intros Hline%negb_false_iff.
  cbv zeta. by rewrite Hline.
Qed.

(** C5, as the code has it: a line that is handed to the pattern compiler
    and becomes empty after the negation mark, the directory slash and the
    anchor slash are stripped still yields one rule, with an empty pattern
    text and the flags of the stripped marks; the loop appends that rule to
    the rule list. *)
Theorem C5_empty_pattern_yields_rule (base originalRaw : string)
    (rules : list GitignoreRule) :
  isPatternLine originalRaw = true ->
  s_pattern (stripLine (Js.trim originalRaw)) = "" ->
  exists r,
    compileLine base originalRaw = Push r
    /\ compileLines base [originalRaw] rules = Some (rules ++ [r])
    /\ pattern r = ""
    /\ isNegated r = s_negated (stripLine (Js.trim originalRaw))
    /\ onlyDir r = s_onlyDir (stripLine (Js.trim originalRaw))
    /\ anchored r = s_anchored (stripLine (Js.trim originalRaw))
    /\ baseDir r = base
    /\ original r = originalRaw.
Proof.
  intros Hline Hpat. eexists. split; [by apply compileLine_pattern_line|].
  split.
  - unfold compileLines. by rewrite compileLine_pattern_line.
  - cbv zeta. cbn [pattern isNegated onlyDir anchored baseDir original].
    by rewrite Hpat.
Qed.

Lemma C5_empty_pattern_yields_rule_witness :
  exists r,
    compileLine "logs" "!/" = Push r
    /\ compileLines "logs" ["!/"] [] = Some [r]
    /\ pattern r = "" /\ isNegated r = true /\ onlyDir r = true.
Proof.
  destruct (C5_empty_pattern_yields_rule "logs" "!/" [] eq_refl eq_refl)
    as (r & H1 & H2 & H3 & H4 & H5 & _).
  exists r. split; [exact H1|]. split; [exact H2|]. split; [exact H3|].
  split; [exact H4|exact H5].
Defined.

(** C5 fails as stated: the lines [!], [/] and [!/] give one rule each. *)
Lemma C5_counterexample :
  s_pattern (stripLine "!") = "" /\ s_pattern (stripLine "/") = ""
  /\ s_pattern (stripLine "!/") = ""
  /\ length (loadIgnoreRules
               [File ".gitignore" ("!" +:+ String "010" "/" +:+ String "010" "!/")]
               "." ".gitignore") = 3.
Proof. repeat split; reflexivity. Qed.

(** ** Rule accumulator *)

Lemma split_component p :
  isComponent p = true -> Js.split "/" p = [p].
Proof.
  induction p as [|a p IH]; [done|]. simpl. intros [Ha Hp]%andb_true_iff.
  apply negb_true_iff in Ha. rewrite Ha, (IH Hp). done.
Qed.

Lemma split_component_slash p s :
  isComponent p = true -> Js.split "/" (p +:+ "/" +:+ s) = p :: Js.split "/" s.
Proof.
  induction p as [|a p IH]; [done|]. simpl. intros [Ha Hp]%andb_true_iff.
  apply negb_true_iff in Ha. rewrite Ha, (IH Hp). done.
Qed.

Lemma split_join parts :
  parts <> [] -> Forall (fun p => isComponent p = true) parts ->
  Js.split "/" (Js.join "/" parts) = parts.
Proof.
  induction parts as [|x parts IH]; [done|]. intros _ Hall.
  apply Forall_cons in Hall as [Hx Hall].
  destruct parts as [|y parts]; [by apply split_component|].
  change (Js.join "/" (x :: y :: parts))
    with (x +:+ "/" +:+ Js.join "/" (y :: parts)).
  rewrite split_component_slash by done. by rewrite IH.
Qed.

Lemma dirOfParts_not_root parts :
  parts <> [] -> parts <> ["."] ->
  Forall (fun p => isComponent p = true) parts ->
  String.eqb (dirOfParts parts) "." = false.
Proof.
  intros Hne Hdot Hall. apply String.eqb_neq. intros Heq.
  assert (Hs : Js.split "/" (dirOfParts parts) = parts).
  { destruct parts; [done|]. by apply split_join. }
  rewrite Heq in Hs. by apply Hdot.
Qed.

Lemma prefixes_take parts :
  prefixes parts = map (fun i => take i parts) (seq 1 (length parts)).
Proof.
  induction parts as [|p parts IH]; [done|].
  simpl. f_equal. rewrite IH, <- (seq_shift (length parts) 1), !map_map. done.
Qed.

Lemma fold_accumulateStep gi gk parts idx acc :
  fold_left (accumulateStep gi gk parts) idx acc =
  acc ++ concat (map (fun i =>
                        let dir := if Nat.eqb i 0 then "."
                                   else Js.join "/" (take i parts) in
                        tableAt gi dir ++ tableAt gk dir) idx).
Proof.
  revert acc. induction idx as [|i idx IH]; intros acc; simpl.
  - by rewrite app_nil_r.
  - rewrite IH. unfold accumulateStep, pushAll, tableAt.
    destruct (gi !! _), (gk !! _); simpl;
      rewrite ?app_nil_r, <- ?app_assoc; done.
Qed.

(** The loop of [accumulate] computes the rules of the ancestor chain. *)
Lemma accumulateFresh_chain gi gk parts :
  Forall (fun p => isComponent p = true) parts -> parts <> ["."] ->
  accumulateFresh gi gk (dirOfParts parts) = chainRules gi gk parts.
Proof.
  intros Hall Hdot. unfold accumulateFresh, chainRules, ancestorChain.
  destruct (decide (parts = [])) as [->|Hne].
  { by rewrite fold_accumulateStep. }
  rewrite dirOfParts_not_root by done.
  assert (Hs : Js.split "/" (dirOfParts parts) = parts).
  { destruct parts; [done|]. by apply split_join. }
  rewrite Hs, fold_accumulateStep. simpl. f_equal.
  rewrite prefixes_take, <- (seq_shift (length parts) 0), !map_map. f_equal.
  apply map_ext_in. intros i _. simpl.
  destruct (take (S i) parts) eqn:Ht; [|done].
  destruct parts; done.
Qed.

(** Invariant of the accumulator: the tables never change and every cached
    list is the one the loop computes. *)
Lemma reachable_inv gi gk this :
  reachable gi gk this ->
  gitignoreMap this = gi /\ gitkeepIgnoreMap this = gk
  /\ forall dir l, cache this !! dir = Some l -> l = accumulateFresh gi gk dir.
Proof.
  intros H. induction H as [|this dir H IH]; [done|].
  destruct IH as (Hgi & Hgk & Hc).
  unfold accumulate. destruct (cache this !! dir) as [l|] eqn:Hl; [done|].
  simpl. split; [done|]. split; [done|]. intros dir' l'.
  rewrite lookup_insert. case_decide as Heq; [|by apply Hc].
  rewrite <- Heq, Hgi, Hgk. by intros [= <-].
Qed.

Lemma accumulate_result gi gk this dir :
  reachable gi gk this -> (accumulate this dir).1 = accumulateFresh gi gk dir.
Proof.
  intros (Hgi & Hgk & Hc)%reachable_inv. unfold accumulate.
  destruct (cache this !! dir) as [l|] eqn:Hl; simpl.
  - by apply Hc.
  - by rewrite Hgi, Hgk.
Qed.

Lemma accumulate_cached this dir :
  cache (accumulate this dir).2 !! dir = Some (accumulate this dir).1.
Proof.
  unfold accumulate. destruct (cache this !! dir) as [l|] eqn:Hl; simpl; [done|].
  apply lookup_insert_eq.
Qed.

(** C4: on an accumulator built by the constructor and used through
    [accumulate] only, [accumulate] of a directory returns the rules of
    the chain from the root to that directory, root first, the content
    rules of each directory before its marker rules and nothing for a
    directory absent from a table; a second call for the same path returns
    the cached list, leaves the accumulator as it is and does not look at
    the tables. *)
Theorem C4_accumulate_chain (gi gk : RulesMap) (this : RulesAccumulator)
    (parts : list string) :
  reachable gi gk this ->
  Forall (fun p => isComponent p = true) parts ->
  parts <> ["."] ->
  let dir := dirOfParts parts in
  let first := accumulate this dir in
  first.1 = chainRules gi gk parts
  /\ accumulate first.2 dir = (first.1, first.2)
  /\ forall gi' gk',
       accumulate (Accumulator gi' gk' (cache first.2)) dir
       = (first.1, Accumulator gi' gk' (cache first.2)).
Proof.
  intros Hreach Hall Hdot dir first. subst first dir. split; [|split].
  - rewrite (accumulate_result gi gk) by done.
    by apply accumulateFresh_chain.
  - unfold accumulate at 1. by rewrite accumulate_cached.
  - intros gi' gk'. unfold accumulate at 1. simpl.
    by rewrite accumulate_cached.
Qed.

Lemma C4_accumulate_chain_witness :
  let logs := Rule "*.log" false false false "." ReEol "*.log" in
  let keep := Rule "keep" true false false "a/b" ReEol "!keep" in
  let gi : RulesMap := {[ "." := [logs] ]} in
  let gk : RulesMap := {[ "a/b" := [keep] ]} in
  (accumulate (newRulesAccumulator gi gk) "a/b").1 = chainRules gi gk ["a"; "b"]
  /\ chainRules gi gk ["a"; "b"] = [logs; keep].
Proof.
  intros logs keep gi gk. split.
  - refine (proj1 (C4_accumulate_chain gi gk (newRulesAccumulator gi gk)
                     ["a"; "b"] (reach_new gi gk) _ _)).
    + repeat constructor.
    + discriminate.
  - reflexivity.
Defined.

(** ** Walker *)

Lemma walkDirectory_dir config relativeDir dirName readable writable children st :
  walkDirectory config relativeDir (Directory dirName readable writable children) st =
  if existsb (String.eqb dirName) (excludeDirs config)
  then (true, Directory dirName readable writable children, st)
  else
    let '(rules, acc) := accumulate (rulesAccumulator st) relativeDir in
    let st := setAccumulator acc st in
    if isIgnored relativeDir true rules then
      (true, Directory dirName readable writable children,
       pushSkipped relativeDir st)
    else if negb readable then
      (true, Directory dirName readable writable children,
       pushError (ReaddirFailed relativeDir) st)
    else
      let files := List.filter isFile children in
      let '(hasNonEmptySubdir, children', st) :=
        walkSubdirs (walkDirectory config) relativeDir children false st in
      let visible := visibleFiles config relativeDir rules files in
      let hasGitkeep := existsb (isMarker config) files in
      let isEmpty := Nat.eqb (length visible) 0 && negb hasNonEmptySubdir in
      let '(children'', st) :=
        reconcile config writable children' relativeDir isEmpty hasGitkeep st in
      (isEmpty, Directory dirName readable writable children'', st).
Proof. destruct readable; reflexivity. Qed.

(** On a path that is not a directory the listing fails, unless the path
    is excluded or ignored: nothing is created or removed. *)
Lemma walkDirectory_not_dir config relativeDir e st :
  isDirectory e = false ->
  exists st',
    walkDirectory config relativeDir e st = (true, e, st')
    /\ created (summary st') = created (summary st)
    /\ removed (summary st') = removed (summary st)
    /\ console st' = console st
    /\ forall gi gk, reachable gi gk (rulesAccumulator st) ->
                     reachable gi gk (rulesAccumulator st').
Proof.
  intros He.
  assert (Hwalk : walkDirectory config relativeDir e st =
            if existsb (String.eqb (entryName e)) (excludeDirs config)
            then (true, e, st)
            else
              let '(rules, acc) := accumulate (rulesAccumulator st) relativeDir in
              if isIgnored relativeDir true rules
              then (true, e, pushSkipped relativeDir (setAccumulator acc st))
              else (true, e,
                    pushError (ReaddirFailed relativeDir) (setAccumulator acc st))).
  { destruct e; try done; simpl;
      destruct (existsb _ _); try done;
      destruct (accumulate _ _); by destruct (isIgnored _ _ _). }
  rewrite Hwalk. destruct (existsb _ _); [by eexists|].
  pose proof (fun gi gk => reach_accumulate gi gk (rulesAccumulator st) relativeDir)
    as Hreach.
  destruct (accumulate (rulesAccumulator st) relativeDir) as [rules acc].
  destruct (isIgnored relativeDir true rules); by eexists.
Qed.

Lemma walkSubdirs_cons walk relativeDir e es h st :
  walkSubdirs walk relativeDir (e :: es) h st =
  if isDirectory e then
    let '(subdirIsEmpty, e', st') :=
      walk (childPath relativeDir (entryName e)) e st in
    let '(h', es', st'') :=
      walkSubdirs walk relativeDir es (if subdirIsEmpty then h else true) st' in
    (h', e' :: es', st'')
  else
    let '(h', es', st'') := walkSubdirs walk relativeDir es h st in
    (h', e :: es', st'').
Proof. reflexivity. Qed.

(** The case of a path that is not a directory, in a proof about a walk. *)
Ltac walk_not_dir Hwalk :=
  match type of Hwalk with
  | walkDirectory ?c ?rel ?e ?st = _ =>
      let s := fresh "s" in
      let Hw := fresh "Hw" in
      let Hc := fresh "Hc" in
      let Hr := fresh "Hr" in
      let Hn := fresh "Hn" in
      let Hacc := fresh "Hacc" in
      destruct (walkDirectory_not_dir c rel e st eq_refl)
        as (s & Hw & Hc & Hr & Hn & Hacc);
      rewrite Hw in Hwalk; injection Hwalk as <- <- <-
  end.

(** *** Excluded directories *)

Lemma walkDirectory_excluded config relativeDir dir st :
  isExcluded config dir = true ->
  walkDirectory config relativeDir dir st = (true, dir, st).
Proof.
  unfold isExcluded. intros Hex. destruct dir; simpl in *; by rewrite Hex.
Qed.

(** C3: with the initial configuration, the walk of a project that holds a
    [node_modules] directory leaves that directory as it is and returns,
    but its summary lists no skipped directory. *)
Lemma C3_excluded_directory_not_skipped :
  let modules := Directory "node_modules" true true [File "index.js" ""] in
  let project := Directory "project" true true [File "main.ts" ""; modules] in
  isExcluded defaultConfig modules = true
  /\ walkDirectory defaultConfig "node_modules" modules (initialState ∅ ∅)
     = (true, modules, initialState ∅ ∅)
  /\ exists st,
       walkDirectory defaultConfig "." project (initialState ∅ ∅)
       = (false, project, st)
       /\ skipped (summary st) = [].
Proof.
  intros modules project. split; [reflexivity|]. split; [reflexivity|].
  eexists. split; [vm_compute; reflexivity|reflexivity].
Qed.

(** *** Listing failures *)

(** C6: a directory that is neither excluded nor ignored and whose listing
    fails gets one diagnostic on the error list; the walk returns empty =
    true for it, leaves it and the other lists as they are, and the loop of
    the parent goes on with the entries that follow. *)
Theorem C6_listing_failure (config : Config) (relativeDir dirName : string)
    (writable : bool) (children : list entry) (st : State) :
  let dir := Directory dirName false writable children in
  let rules := (accumulate (rulesAccumulator st) relativeDir).1 in
  let st1 := pushError (ReaddirFailed relativeDir)
               (setAccumulator (accumulate (rulesAccumulator st) relativeDir).2 st) in
  isExcluded config dir = false ->
  isIgnored relativeDir true rules = false ->
  walkDirectory config relativeDir dir st = (true, dir, st1)
  /\ errors (summary st1) = errors (summary st) ++ [ReaddirFailed relativeDir]
  /\ created (summary st1) = created (summary st)
  /\ removed (summary st1) = removed (summary st)
  /\ skipped (summary st1) = skipped (summary st)
  /\ forall parentDir rest h,
       childPath parentDir dirName = relativeDir ->
       walkSubdirs (walkDirectory config) parentDir (dir :: rest) h st =
       let '(h', rest', st') :=
         walkSubdirs (walkDirectory config) parentDir rest h st1 in
       (h', dir :: rest', st').
Proof.
  intros dir rules st1 Hex Hign. subst dir rules st1.
  assert (Hwalk :
            walkDirectory config relativeDir
              (Directory dirName false writable children) st =
            (true, Directory dirName false writable children,
             pushError (ReaddirFailed relativeDir)
               (setAccumulator (accumulate (rulesAccumulator st) relativeDir).2 st))).
  { rewrite walkDirectory_dir. unfold isExcluded in Hex.
    simpl in Hex. rewrite Hex.
    destruct (accumulate (rulesAccumulator st) relativeDir) as [rules acc].
    simpl in Hign |- *. by rewrite Hign. }
  split; [done|]. repeat (split; [done|]).
  intros parentDir rest h Hpath.
  rewrite walkSubdirs_cons. simpl isDirectory. cbv iota.
  simpl entryName. rewrite Hpath, Hwalk. done.
Qed.

Lemma C6_listing_failure_witness :
  let locked := Directory "locked" false true [File "secret" ""] in
  let st := initialState ∅ ∅ in
  exists st1,
    walkDirectory defaultConfig "locked" locked st = (true, locked, st1)
    /\ errors (summary st1) = [ReaddirFailed "locked"].
Proof.
  intros locked st.
  destruct (C6_listing_failure defaultConfig "locked" "locked" true
              [File "secret" ""] st eq_refl eq_refl) as (H1 & H2 & _).
  eexists. split; [exact H1|exact H2].
Defined.

(** *** Visible files *)

(** C7: whatever the rules are, no visible file carries the marker name;
    a directory whose only direct files are markers has no visible file. *)
Theorem C7_marker_never_visible (config : Config) (relativeDir : string)
    (rules : list GitignoreRule) (files : list entry) :
  (forall f, In f (visibleFiles config relativeDir rules files) ->
     entryName f <> gitkeepName config)
  /\ (forall text,
        visibleFiles config relativeDir rules [File (gitkeepName config) text] = [])
  /\ (Forall (fun f => entryName f = gitkeepName config) files ->
        length (visibleFiles config relativeDir rules files) = 0).
Proof.
  split; [|split].
  - intros f [_ Hvis]%filter_In Heq. unfold isVisible, isMarker in Hvis.
    apply String.eqb_eq in Heq. by rewrite Heq in Hvis.
  - intros text. unfold visibleFiles, isVisible, isMarker. simpl.
    by rewrite String.eqb_refl.
  - intros Hall. unfold visibleFiles.
    induction Hall as [|f files Hf _ IH]; [done|]. simpl.
    unfold isVisible at 1, isMarker. apply String.eqb_eq in Hf. by rewrite Hf.
Qed.

Lemma C7_marker_never_visible_witness :
  let keepAll := Rule "*" true false false "." (ReStar (CsNot ["/"%char])) "!*" in
  length (visibleFiles defaultConfig "logs" [keepAll] [File ".gitkeep" ""]) = 0.
Proof.
  intros keepAll.
  refine (proj2 (proj2 (C7_marker_never_visible defaultConfig "logs" [keepAll]
                          [File ".gitkeep" ""])) _).
  repeat constructor.
Defined.

(** *** The loop over the subdirectories *)

Lemma walkSubdirs_inv (walk : string -> entry -> State -> bool * entry * State)
    (relativeDir : string) (Inv : State -> Prop) (Q : entry -> entry -> Prop)
    (f : entry -> bool) (es : list entry) :
  Forall (fun e => isDirectory e = true ->
            forall st b e' st', Inv st ->
              walk (childPath relativeDir (entryName e)) e st = (b, e', st') ->
              Inv st' /\ Q e e' /\ b = f e) es ->
  forall h st h' es' st', Inv st ->
    walkSubdirs walk relativeDir es h st = (h', es', st') ->
    Inv st'
    /\ Forall2 (fun e e' => if isDirectory e then Q e e' else e' = e) es es'
    /\ h' = h || negb (forallb (fun e => if isDirectory e then f e else true) es).
Proof.
  induction 1 as [|e es He _ IH]; intros h st h' es' st' Hinv Hloop.
  - simpl in Hloop. injection Hloop as <- <- <-.
    split; [done|]. split; [constructor|]. by rewrite orb_false_r.
  - rewrite walkSubdirs_cons in Hloop. simpl forallb.
    destruct (isDirectory e) eqn:Hd.
    + destruct (walk _ e st) as [[b e1] st1] eqn:Hw.
      destruct (walkSubdirs walk relativeDir es _ st1) as [[h2 es2] st2] eqn:Hl.
      injection Hloop as <- <- <-.
      destruct (He eq_refl _ _ _ _ Hinv Hw) as (Hinv1 & HQ & ->).
      destruct (IH _ _ _ _ _ Hinv1 Hl) as (Hinv2 & Hall & ->).
      split; [done|]. split; [constructor; [by rewrite Hd|done]|].
      destruct (f e), h; simpl; done.
    + destruct (walkSubdirs walk relativeDir es h st) as [[h2 es2] st2] eqn:Hl.
      injection Hloop as <- <- <-.
      destruct (IH _ _ _ _ _ Hinv Hl) as (Hinv2 & Hall & ->).
      split; [done|]. split; [constructor; [by rewrite Hd|done]|]. done.
Qed.

Lemma emptiness_not_dir config gi gk rel e :
  isDirectory e = false -> emptiness config gi gk rel e = true.
Proof. by destruct e. Qed.

Lemma forallb_emptiness config gi gk rel es :
  forallb (fun e => if isDirectory e
                    then emptiness config gi gk (childPath rel (entryName e)) e
                    else true) es
  = forallb (fun e => emptiness config gi gk (childPath rel (entryName e)) e) es.
Proof.
  induction es as [|e es IH]; [done|]. simpl. rewrite IH.
  destruct (isDirectory e) eqn:Hd; [done|]. by rewrite emptiness_not_dir.
Qed.

Lemma reconcile_accumulator config w es rel isEmpty hasGitkeep st :
  rulesAccumulator (reconcile config w es rel isEmpty hasGitkeep st).2
  = rulesAccumulator st.
Proof.
  unfold reconcile, createGitkeep, removeGitkeep.
  repeat (match goal with
          | |- context [if ?b then _ else _] => destruct b
          | |- context [match ?o with Some _ => _ | None => _ end] => destruct o
          end; simpl); done.
Qed.

(** In every mode, a walk returns the emptiness of the directory and keeps
    the accumulator among those the program can hold. *)
Lemma walkDirectory_emptiness config gi gk dir :
  forall rel st b dir' st',
    reachable gi gk (rulesAccumulator st) ->
    walkDirectory config rel dir st = (b, dir', st') ->
    reachable gi gk (rulesAccumulator st') /\ b = emptiness config gi gk rel dir.
Proof.
  induction dir as [n t|n r w cs IH|n] using entry_ind';
    intros rel st b dir' st' Hreach Hwalk.
  - walk_not_dir Hwalk. split; [by apply Hacc|done].
  - rewrite walkDirectory_dir in Hwalk. simpl emptiness.
    destruct (existsb (String.eqb n) (excludeDirs config));
      [by injection Hwalk as <- <- <-|].
    pose proof (accumulate_result gi gk _ rel Hreach) as Hrules.
    pose proof (reach_accumulate gi gk _ rel Hreach) as Hreach1.
    destruct (accumulate (rulesAccumulator st) rel) as [rules acc].
    simpl in Hrules, Hreach1. subst rules.
    destruct (isIgnored rel true _); [by injection Hwalk as <- <- <-|].
    destruct r; simpl negb in Hwalk |- *; cbv iota zeta in Hwalk |- *;
      [|by injection Hwalk as <- <- <-].
    destruct (walkSubdirs (walkDirectory config) rel cs false _)
      as [[h cs1] st1] eqn:Hloop.
    eapply (walkSubdirs_inv _ rel
              (fun s => reachable gi gk (rulesAccumulator s))
              (fun _ _ => True)
              (fun e => emptiness config gi gk (childPath rel (entryName e)) e))
      in Hloop as (Hreach2 & _ & ->); [| |done].
    + pose proof (reconcile_accumulator config w cs1 rel
                    (Nat.eqb (length (visibleFiles config rel
                                        (accumulateFresh gi gk rel)
                                        (List.filter isFile cs))) 0
                     && negb (false || negb (forallb
                          (fun e => if isDirectory e
                                    then emptiness config gi gk
                                           (childPath rel (entryName e)) e
                                    else true) cs)))
                    (existsb (isMarker config) (List.filter isFile cs)) st1) as Hacc.
      destruct (reconcile _ _ _ _ _ _ _) as [cs2 st2].
      injection Hwalk as <- <- <-. simpl in Hacc. rewrite Hacc.
      split; [done|]. by rewrite forallb_emptiness, negb_involutive.
    + eapply Forall_impl; [exact IH|]. intros e He _ s b0 e' s' Hs Hw.
      destruct (He _ _ _ _ _ Hs Hw) as [? ?]. done.
  - walk_not_dir Hwalk. split; [by apply Hacc|done].
Qed.

Lemma walkSubdirs_state (walk : string -> entry -> State -> bool * entry * State)
    (relativeDir : string) (Inv : State -> Prop) (Q : entry -> entry -> Prop)
    (es : list entry) :
  Forall (fun e => isDirectory e = true ->
            forall st b e' st', Inv st ->
              walk (childPath relativeDir (entryName e)) e st = (b, e', st') ->
              Inv st' /\ Q e e') es ->
  forall h st h' es' st', Inv st ->
    walkSubdirs walk relativeDir es h st = (h', es', st') ->
    Inv st'
    /\ Forall2 (fun e e' => if isDirectory e then Q e e' else e' = e) es es'.
Proof.
  induction 1 as [|e es He _ IH]; intros h st h' es' st' Hinv Hloop.
  - simpl in Hloop. injection Hloop as <- <- <-. split; [done|constructor].
  - rewrite walkSubdirs_cons in Hloop. destruct (isDirectory e) eqn:Hd.
    + destruct (walk _ e st) as [[b e1] st1] eqn:Hw.
      destruct (walkSubdirs walk relativeDir es _ st1) as [[h2 es2] st2] eqn:Hl.
      injection Hloop as <- <- <-.
      destruct (He eq_refl _ _ _ _ Hinv Hw) as (Hinv1 & HQ).
      destruct (IH _ _ _ _ _ Hinv1 Hl) as (Hinv2 & Hall).
      split; [done|]. constructor; [by rewrite Hd|done].
    + destruct (walkSubdirs walk relativeDir es h st) as [[h2 es2] st2] eqn:Hl.
      injection Hloop as <- <- <-.
      destruct (IH _ _ _ _ _ Hinv Hl) as (Hinv2 & Hall).
      split; [done|]. constructor; [by rewrite Hd|done].
Qed.

Lemma Forall2_same_entries (es es' : list entry) :
  Forall2 (fun e e' => if isDirectory e then e' = e else e' = e) es es' -> es' = es.
Proof.
  induction 1 as [|e e' es es' He _ IH]; [done|].
  f_equal; [|done]. by destruct (isDirectory e).
Qed.

Lemma walkSubdirs_ext walk1 walk2 relativeDir es :
  Forall (fun e => forall rel st, walk1 rel e st = walk2 rel e st) es ->
  forall h st,
    walkSubdirs walk1 relativeDir es h st = walkSubdirs walk2 relativeDir es h st.
Proof.
  induction 1 as [|e es He _ IH]; intros h st; [done|].
  rewrite !walkSubdirs_cons, He.
  destruct (isDirectory e); [|by rewrite IH].
  destruct (walk2 _ e st) as [[b e1] st1]. by rewrite IH.
Qed.

(** *** Check mode *)

Lemma reconcile_check config w es rel isEmpty hasGitkeep st :
  check config = true -> clean config = false ->
  (reconcile config w es rel isEmpty hasGitkeep st).1 = es
  /\ summary (reconcile config w es rel isEmpty hasGitkeep st).2 = summary st.
Proof.
  intros Hcheck Hclean. unfold reconcile. rewrite Hcheck, Hclean.
  destruct (isEmpty && negb hasGitkeep); [done|].
  by destruct (negb isEmpty && hasGitkeep).
Qed.

Lemma walkDirectory_check config dir :
  check config = true -> clean config = false ->
  forall rel st b dir' st',
    walkDirectory config rel dir st = (b, dir', st') ->
    dir' = dir
    /\ created (summary st') = created (summary st)
    /\ removed (summary st') = removed (summary st).
Proof.
  intros Hcheck Hclean.
  induction dir as [n t|n r w cs IH|n] using entry_ind';
    intros rel st b dir' st' Hwalk.
  - walk_not_dir Hwalk. by rewrite Hc, Hr.
  - rewrite walkDirectory_dir in Hwalk.
    destruct (existsb (String.eqb n) (excludeDirs config));
      [by injection Hwalk as <- <- <-|].
    destruct (accumulate (rulesAccumulator st) rel) as [rules acc].
    destruct (isIgnored rel true rules); [by injection Hwalk as <- <- <-|].
    destruct r; simpl negb in Hwalk; cbv iota zeta in Hwalk;
      [|by injection Hwalk as <- <- <-].
    destruct (walkSubdirs (walkDirectory config) rel cs false _)
      as [[h cs1] st1] eqn:Hloop.
    eapply (walkSubdirs_state _ rel
              (fun s => created (summary s) = created (summary st)
                        /\ removed (summary s) = removed (summary st))
              (fun e e' => e' = e))
      in Hloop as ([Hc Hr] & ->%Forall2_same_entries); [| |done].
    + match type of Hwalk with
      | context [reconcile config w cs rel ?e ?g st1] =>
          destruct (reconcile_check config w cs rel e g st1 Hcheck Hclean)
            as [Hes Hsum];
          destruct (reconcile config w cs rel e g st1) as [cs2 st2]
      end.
      simpl in Hes, Hsum. injection Hwalk as <- <- <-.
      rewrite Hes, Hsum. done.
    + eapply Forall_impl; [exact IH|]. intros e He _ s b0 e' s' [Hc Hr] Hw.
      destruct (He _ _ _ _ _ Hw) as (-> & Hc' & Hr').
      split; [|done]. split; congruence.
  - walk_not_dir Hwalk. by rewrite Hc, Hr.
Qed.

(** C8: in check mode with clean mode off, a walk from a state of the
    program leaves the whole tree as it is, adds nothing to the created and
    removed lists, and returns the emptiness of the directory; started by
    [main], it ends with both lists empty. *)
Theorem C8_check_mode_read_only (config : Config) (gi gk : RulesMap)
    (rel : string) (dir : entry) (st : State) :
  check config = true -> clean config = false ->
  reachable gi gk (rulesAccumulator st) ->
  (walkDirectory config rel dir st).1.2 = dir
  /\ created (summary (walkDirectory config rel dir st).2) = created (summary st)
  /\ removed (summary (walkDirectory config rel dir st).2) = removed (summary st)
  /\ (walkDirectory config rel dir st).1.1 = emptiness config gi gk rel dir
  /\ created (summary (walkDirectory config "." dir (initialState gi gk)).2) = []
  /\ removed (summary (walkDirectory config "." dir (initialState gi gk)).2) = [].
Proof.
  intros Hcheck Hclean Hreach.
  destruct (walkDirectory config rel dir st) as [[b dir'] st'] eqn:Hwalk.
  destruct (walkDirectory_check config dir Hcheck Hclean _ _ _ _ _ Hwalk)
    as (-> & Hc & Hr).
  destruct (walkDirectory_emptiness config gi gk dir _ _ _ _ _ Hreach Hwalk)
    as [_ ->].
  repeat (split; [done|]).
  destruct (walkDirectory config "." dir (initialState gi gk))
    as [[b0 dir0] st0] eqn:Hwalk0.
  destruct (walkDirectory_check config dir Hcheck Hclean _ _ _ _ _ Hwalk0)
    as (_ & Hc0 & Hr0).
  done.
Qed.

(** *** Clean mode with the check flag *)

Lemma removeGitkeep_keeps config w es rel st :
  created (summary (removeGitkeep config w es rel st).2) = created (summary st)
  /\ List.filter isCheckNotice (console (removeGitkeep config w es rel st).2)
     = List.filter isCheckNotice (console st).
Proof.
  unfold removeGitkeep. destruct (dryRun config); simpl.
  - split; [done|]. rewrite List.filter_app. simpl. by rewrite app_nil_r.
  - by destruct (unlink w (gitkeepName config) es).
Qed.

Lemma reconcile_clean config w es rel isEmpty hasGitkeep st :
  clean config = true ->
  reconcile config w es rel isEmpty hasGitkeep st =
  if hasGitkeep then removeGitkeep config w es rel st else (es, st).
Proof. intros Hclean. unfold reconcile. by rewrite Hclean. Qed.

Lemma walkDirectory_withoutCheck config dir :
  clean config = true ->
  forall rel st,
    walkDirectory config rel dir st = walkDirectory (withoutCheck config) rel dir st.
Proof.
  intros Hclean.
  induction dir as [n t|n r w cs IH|n] using entry_ind'; intros rel st; [done| |done].
  rewrite !walkDirectory_dir.
  change (excludeDirs (withoutCheck config)) with (excludeDirs config).
  destruct (existsb (String.eqb n) (excludeDirs config)); [done|].
  destruct (accumulate (rulesAccumulator st) rel) as [rules acc].
  destruct (isIgnored rel true rules); [done|].
  destruct (negb r); [done|]. cbv zeta.
  rewrite (walkSubdirs_ext (walkDirectory config)
             (walkDirectory (withoutCheck config))) by exact IH.
  destruct (walkSubdirs _ rel cs false _) as [[h cs1] st1].
  rewrite !reconcile_clean by done. done.
Qed.

Lemma walkDirectory_clean config dir :
  clean config = true ->
  forall rel st b dir' st',
    walkDirectory config rel dir st = (b, dir', st') ->
    created (summary st') = created (summary st)
    /\ List.filter isCheckNotice (console st')
       = List.filter isCheckNotice (console st).
Proof.
  intros Hclean.
  induction dir as [n t|n r w cs IH|n] using entry_ind';
    intros rel st b dir' st' Hwalk.
  - walk_not_dir Hwalk. by rewrite Hc, Hn.
  - rewrite walkDirectory_dir in Hwalk.
    destruct (existsb (String.eqb n) (excludeDirs config));
      [by injection Hwalk as <- <- <-|].
    destruct (accumulate (rulesAccumulator st) rel) as [rules acc].
    destruct (isIgnored rel true rules); [by injection Hwalk as <- <- <-|].
    destruct r; simpl negb in Hwalk; cbv iota zeta in Hwalk;
      [|by injection Hwalk as <- <- <-].
    destruct (walkSubdirs (walkDirectory config) rel cs false _)
      as [[h cs1] st1] eqn:Hloop.
    eapply (walkSubdirs_state _ rel
              (fun s => created (summary s) = created (summary st)
                        /\ List.filter isCheckNotice (console s)
                           = List.filter isCheckNotice (console st))
              (fun _ _ => True))
      in Hloop as ([Hc Hn] & _); [| |done].
    + rewrite reconcile_clean in Hwalk by done.
      destruct (existsb (isMarker config) (List.filter isFile cs)).
      * destruct (removeGitkeep_keeps config w cs1 rel st1) as [Hc' Hn'].
        destruct (removeGitkeep config w cs1 rel st1) as [cs2 st2].
        injection Hwalk as <- <- <-. simpl in Hc', Hn'. split; congruence.
      * by injection Hwalk as <- <- <-.
    + eapply Forall_impl; [exact IH|]. intros e He _ s b0 e' s' [Hc Hn] Hw.
      destruct (He _ _ _ _ _ Hw) as (Hc' & Hn').
      split; [|done]. split; congruence.
  - walk_not_dir Hwalk. by rewrite Hc, Hn.
Qed.


Lemma C8_check_mode_read_only_witness :
  let config := MkConfig false false "" false true [".git"] ".gitkeep" true in
  let logs := Directory "logs" true true [] in
  let src := Directory "src" true true [File "main.ts" ""; File ".gitkeep" ""] in
  let project := Directory "project" true true [logs; src] in
  (walkDirectory config "." project (initialState ∅ ∅)).1.2 = project
  /\ created (summary (walkDirectory config "." project (initialState ∅ ∅)).2) = []
  /\ removed (summary (walkDirectory config "." project (initialState ∅ ∅)).2) = [].
Proof.
  intros config logs src project.
  destruct (C8_check_mode_read_only config ∅ ∅ "." project (initialState ∅ ∅)
              eq_refl eq_refl (reach_new ∅ ∅)) as (H1 & _ & _ & _ & H2 & H3).
  split; [exact H1|]. split; [exact H2|exact H3].
Defined.

(** *** Normal mode, run twice *)

Lemma core_visible config rel rules es :
  visibleFiles config rel rules (List.filter isFile (core config es))
  = visibleFiles config rel rules (List.filter isFile es).
Proof.
  unfold visibleFiles, core. induction es as [|e es IH]; [done|]. simpl.
  destruct e as [n t|n r w cs|n]; simpl.
  - destruct (isMarker config (File n t)) eqn:Hm; simpl.
    + unfold isVisible at 2. by rewrite Hm.
    + by rewrite IH.
  - exact IH.
  - by destruct (isMarker config (Other n)).
Qed.

Lemma core_forallb config (f : entry -> bool) es :
  (forall e, isDirectory e = false -> f e = true) ->
  forallb f (core config es) = forallb f es.
Proof.
  intros Hf. unfold core. induction es as [|e es IH]; [done|]. simpl.
  destruct (isDirectory e) eqn:Hd; simpl; [by rewrite IH|].
  destruct (isMarker config e); simpl; rewrite IH, ?Hf; done.
Qed.


Lemma isMarker_marker config text :
  isMarker config (File (gitkeepName config) text) = true.
Proof. unfold isMarker. simpl. apply String.eqb_refl. Qed.

Lemma overwrite_cons name text e es :
  overwrite name text (e :: es) =
  if String.eqb (entryName e) name then
    match e with
    | File _ _ => Some (File name text :: es)
    | Directory _ _ _ _ => None
    | Other _ => Some (e :: es)
    end
  else option_map (cons e) (overwrite name text es).
Proof. reflexivity. Qed.

Lemma core_overwrite_eq config es es' :
  overwrite (gitkeepName config) (content config) es = Some es' ->
  core config es' = core config es.
Proof.
  unfold core. revert es'.
  induction es as [|e es IH]; intros es'.
  - intros [= <-]. cbn [List.filter isDirectory orb negb].
    by rewrite isMarker_marker.
  - rewrite overwrite_cons. fold (isMarker config e).
    destruct (isMarker config e) eqn:Hm.
    + destruct e as [n t|n r w cs|n]; [|done|by intros [= <-]].
      intros [= <-]. cbn [List.filter isDirectory orb negb].
      by rewrite isMarker_marker, Hm.
    + destruct (overwrite _ _ es) as [es2|]; [|done]. simpl. intros [= <-].
      cbn [List.filter]. by rewrite (IH es2 eq_refl).
Qed.

Lemma plainEntry_marker config e :
  plainEntry [gitkeepName config] e = true ->
  isMarker config e = true -> isFile e || isDirectory e = true.
Proof.
  destruct e as [n t|n r w cs|n]; [done|done|].
  unfold isMarker. simpl. intros H Hm. by rewrite Hm in H.
Qed.

(** A write that succeeds where the marker name is held by no entry that
    is neither a file nor a directory leaves a marker file. *)
Lemma core_overwrite config es es' :
  forallb (plainEntry [gitkeepName config]) es = true ->
  overwrite (gitkeepName config) (content config) es = Some es' ->
  core config es' = core config es /\ hasMarkerFile config es' = true.
Proof.
  intros Hplain Ho. split; [by apply core_overwrite_eq|].
  unfold hasMarkerFile. revert es' Hplain Ho.
  induction es as [|e es IH]; intros es' Hplain.
  - intros [= <-]. cbn [List.filter existsb isFile].
    by rewrite isMarker_marker.
  - rewrite overwrite_cons. fold (isMarker config e).
    cbn [forallb] in Hplain. apply andb_true_iff in Hplain as [He Hes].
    destruct (isMarker config e) eqn:Hm.
    + pose proof (plainEntry_marker config e He Hm) as Hk.
      destruct e as [n t|n r w cs|n]; [|done|done].
      intros [= <-]. cbn [List.filter existsb isFile].
      by rewrite isMarker_marker.
    + destruct (overwrite _ _ es) as [es2|]; [|done]. simpl. intros [= <-].
      pose proof (IH es2 Hes eq_refl) as Hh. cbn [List.filter].
      destruct (isFile e); [|done]. cbn [existsb]. by rewrite Hm.
Qed.

Lemma distinct_no_more (n : string) (names : list string) :
  distinct (n :: names) = true -> existsb (String.eqb n) names = false.
Proof. simpl. by intros [?%negb_true_iff _]%andb_true_iff. Qed.

Lemma core_removeEntry config es es' :
  distinct (map entryName es) = true ->
  removeEntry (gitkeepName config) es = Some es' ->
  core config es' = core config es /\ hasMarkerFile config es' = false.
Proof.
  unfold hasMarkerFile, core. revert es'.
  induction es as [|e es IH]; intros es' Hd; simpl; [done|].
  fold (isMarker config e). destruct (isMarker config e) eqn:Hm.
  - destruct (isDirectory e) eqn:Hdir; [done|]. intros [= <-]. simpl.
    split; [done|].
    apply distinct_no_more in Hd. unfold isMarker in Hm.
    apply String.eqb_eq in Hm. rewrite Hm in Hd.
    clear -Hd. induction es as [|x es IH]; [done|]. simpl in Hd |- *.
    apply orb_false_iff in Hd as [Hx Hd].
    destruct (isFile x); simpl; [|by apply IH].
    unfold isMarker at 1. rewrite String.eqb_sym, Hx. by apply IH.
  - destruct (removeEntry _ es) as [es2|]; [|done]. simpl. intros [= <-].
    simpl in Hd. apply andb_true_iff in Hd as [_ Hd].
    destruct (IH es2 Hd eq_refl) as [Hc Hh].
    cbn [List.filter existsb isDirectory isFile orb negb].
    rewrite ?Hm; simpl negb; rewrite !orb_true_r, Hc.
    split; [done|]. destruct (isFile e); simpl; [|done]. by rewrite Hm.
Qed.





(** The entries after a loop are of the kinds and names of the entries
    before it. *)
Lemma walked_plain (names : list string) (P : entry -> entry -> Prop) es es1 :
  Forall2 (fun e e1 => if isDirectory e then P e e1 /\ isDirectory e1 = true
                       else e1 = e) es es1 ->
  forallb (plainEntry names) es1 = forallb (plainEntry names) es.
Proof.
  induction 1 as [|e e1 es es1 He _ IH]; [done|]. simpl. rewrite IH.
  destruct (isDirectory e) eqn:Hd; [|by subst].
  destruct He as [_ Hd1]. destruct e; try done. by destruct e1.
Qed.

Lemma plainTree_dir names n r w cs :
  plainTree names (Directory n r w cs) =
  forallb (plainEntry names) cs && forallb (plainTree names) cs.
Proof. reflexivity. Qed.

Lemma emptiness_dir config gi gk rel n r w cs :
  emptiness config gi gk rel (Directory n r w cs) =
  if existsb (String.eqb n) (excludeDirs config) then true
  else if isIgnored rel true (accumulateFresh gi gk rel) then true
  else if negb r then true
  else Nat.eqb
         (length (visibleFiles config rel (accumulateFresh gi gk rel)
                    (List.filter isFile cs))) 0
       && forallb (fun e => emptiness config gi gk (childPath rel (entryName e)) e) cs.
Proof. reflexivity. Qed.

(** The walk of a directory that is not excluded, from a state of the
    program: the rules are those of the loop of [accumulate]. *)
Lemma walkDirectory_dir_reachable config gi gk rel n r w cs st :
  reachable gi gk (rulesAccumulator st) ->
  existsb (String.eqb n) (excludeDirs config) = false ->
  exists st0,
    reachable gi gk (rulesAccumulator st0)
    /\ summary st0 = summary st
    /\ walkDirectory config rel (Directory n r w cs) st =
       let rules := accumulateFresh gi gk rel in
       if isIgnored rel true rules then
         (true, Directory n r w cs, pushSkipped rel st0)
       else if negb r then
         (true, Directory n r w cs, pushError (ReaddirFailed rel) st0)
       else
         let '(h, cs1, st1) :=
           walkSubdirs (walkDirectory config) rel cs false st0 in
         let isEmpty :=
           Nat.eqb (length (visibleFiles config rel rules (List.filter isFile cs))) 0
           && negb h in
         let '(cs2, st2) :=
           reconcile config w cs1 rel isEmpty (hasMarkerFile config cs) st1 in
         (isEmpty, Directory n r w cs2, st2).
Proof.
  intros Hreach Hex. rewrite walkDirectory_dir, Hex.
  pose proof (accumulate_result gi gk _ rel Hreach) as Hrules.
  pose proof (reach_accumulate gi gk _ rel Hreach) as Hreach1.
  destruct (accumulate (rulesAccumulator st) rel) as [rules acc].
  simpl in Hrules, Hreach1. subst rules.
  exists (setAccumulator acc st). done.
Qed.



(** ** The run of [main], twice

    [main] loads the rule tables from the tree before it walks.  A walk
    only adds and removes marker files, so the tables of the second run are
    those of the first one as long as the marker is not itself an ignore
    file. *)

Lemma stripEntries_map config strip es :
  stripEntries config strip es = map strip (core config es).
Proof.
  unfold core. induction es as [|e es IH]; [done|]. simpl.
  destruct (isDirectory e || negb (isMarker config e)); simpl; by rewrite IH.
Qed.

Lemma stripMarkers_name config e : entryName (stripMarkers config e) = entryName e.
Proof. by destruct e. Qed.

Lemma stripMarkers_isDirectory config e :
  isDirectory (stripMarkers config e) = isDirectory e.
Proof. by destruct e. Qed.

Lemma stripMarkers_not_dir config e :
  isDirectory e = false -> stripMarkers config e = e.
Proof. by destruct e. Qed.

Lemma core_removeEntry_eq config es es' :
  removeEntry (gitkeepName config) es = Some es' ->
  core config es' = core config es.
Proof.
  unfold core. revert es'. induction es as [|e es IH]; intros es'; simpl; [done|].
  fold (isMarker config e). destruct (isMarker config e) eqn:Hm.
  - destruct (isDirectory e) eqn:Hdir; [done|]. by intros [= <-].
  - destruct (removeEntry _ es) as [es2|]; [|done]. simpl. intros [= <-].
    cbn [List.filter]. rewrite Hm. simpl negb. rewrite !orb_true_r.
    by rewrite (IH es2 eq_refl).
Qed.

Lemma reconcile_core config w es rel isEmpty hasGitkeep st :
  core config (reconcile config w es rel isEmpty hasGitkeep st).1 = core config es.
Proof.
  assert (Hc : core config (createGitkeep config w es rel st).1 = core config es).
  { unfold createGitkeep, writeFile. destruct (dryRun config); [done|].
    destruct w; [|done].
    destruct (overwrite _ _ es) as [es'|] eqn:Ho; [|done].
    by apply (core_overwrite_eq _ _ _ Ho). }
  assert (Hr : core config (removeGitkeep config w es rel st).1 = core config es).
  { unfold removeGitkeep, unlink. destruct (dryRun config); [done|].
    destruct w; [|done].
    destruct (removeEntry _ es) as [es'|] eqn:Ho; [|done].
    by apply core_removeEntry_eq. }
  unfold reconcile.
  repeat match goal with
         | |- context [if ?b then _ else _] =>
             lazymatch b with
             | context [if _ then _ else _] => fail
             | _ => destruct b
             end
         end; done.
Qed.

Lemma stripEntries_walked config es es1 :
  Forall2 (fun e e1 => if isDirectory e
                       then stripMarkers config e1 = stripMarkers config e
                       else e1 = e) es es1 ->
  stripEntries config (stripMarkers config) es1
  = stripEntries config (stripMarkers config) es.
Proof.
  induction 1 as [|e e1 es es1 He _ IH]; [done|]. simpl.
  assert (Hs : stripMarkers config e1 = stripMarkers config e).
  { destruct (isDirectory e); [done|]. by subst. }
  assert (Hd : isDirectory e1 = isDirectory e).
  { by rewrite <- (stripMarkers_isDirectory config e1), Hs,
         stripMarkers_isDirectory. }
  assert (Hm : isMarker config e1 = isMarker config e).
  { unfold isMarker.
    by rewrite <- (stripMarkers_name config e1), Hs, stripMarkers_name. }
  by rewrite Hd, Hm, Hs, IH.
Qed.

(** Whatever the mode, a walk changes marker files only. *)
Lemma walkDirectory_stripMarkers config dir :
  forall rel st b dir1 st1,
    walkDirectory config rel dir st = (b, dir1, st1) ->
    stripMarkers config dir1 = stripMarkers config dir.
Proof.
  induction dir as [n t|n r w cs IH|n] using entry_ind';
    intros rel st b dir1 st1 Hwalk.
  - by walk_not_dir Hwalk.
  - rewrite walkDirectory_dir in Hwalk.
    destruct (existsb (String.eqb n) (excludeDirs config));
      [by injection Hwalk as <- <- <-|].
    destruct (accumulate (rulesAccumulator st) rel) as [rules acc].
    destruct (isIgnored rel true rules); [by injection Hwalk as <- <- <-|].
    destruct r; simpl negb in Hwalk; cbv iota zeta in Hwalk;
      [|by injection Hwalk as <- <- <-].
    destruct (walkSubdirs (walkDirectory config) rel cs false _)
      as [[h cs1] st1'] eqn:Hloop.
    eapply (walkSubdirs_state _ rel (fun _ => True)
              (fun e e1 => stripMarkers config e1 = stripMarkers config e))
      in Hloop as (_ & Hrel%stripEntries_walked); [| |done].
    + match type of Hwalk with
      | context [reconcile config w cs1 rel ?e ?g st1'] =>
          pose proof (reconcile_core config w cs1 rel e g st1') as Hcore;
          destruct (reconcile config w cs1 rel e g st1') as [cs2 st2]
      end.
      injection Hwalk as <- <- <-. simpl in Hcore |- *. f_equal.
      by rewrite stripEntries_map, Hcore, <- stripEntries_map.
    + eapply Forall_impl; [exact IH|]. intros e He _ s b0 e' s' _ Hw.
      split; [done|]. by apply (He _ _ _ _ _ Hw).
  - by walk_not_dir Hwalk.
Qed.








(** Why the amended statement leaves links out: the write through an
    entry of the marker name that is neither a file nor a directory
    succeeds and leaves no marker file, so the second run creates again. *)
Example marker_name_held_by_link :
  let project := Directory "project" true true
                   [Directory "logs" true true [Other ".gitkeep"]] in
  let first := run defaultConfig project in
  let second := run defaultConfig first.1.2 in
  created (summary first.2) = ["logs/.gitkeep"; ".gitkeep"]
  /\ errors (summary first.2) = []
  /\ created (summary second.2) = ["logs/.gitkeep"].
Proof. repeat split; reflexivity. Qed.

(** ** Scenarios of the specification *)

(** Scenario A: an empty directory gets a marker on the first run and
    nothing happens on the second run. *)
Example scenario_A :
  let project := Directory "project" true true
                   [File "README.md" ""; Directory "logs" true true []] in
  let first := walkDirectory defaultConfig "." project (initialState ∅ ∅) in
  let second := walkDirectory defaultConfig "." first.1.2 (initialState ∅ ∅) in
  created (summary first.2) = ["logs/.gitkeep"]
  /\ first.1.2 = Directory "project" true true
                   [File "README.md" "";
                    Directory "logs" true true [File ".gitkeep" ""]]
  /\ created (summary second.2) = [] /\ removed (summary second.2) = [].
Proof. repeat split; reflexivity. Qed.

(** Scenario B: a directory that holds ignored files only counts as empty. *)
Example scenario_B :
  let gi : RulesMap := {[ "." := loadIgnoreRules [File ".gitignore" "*.log"] "." ".gitignore" ]} in
  let project := Directory "project" true true
                   [File ".gitignore" "*.log";
                    Directory "logs" true true [File "app.log" "started"]] in
  created (summary (walkDirectory defaultConfig "." project (initialState gi ∅)).2)
  = ["logs/.gitkeep"].
Proof. reflexivity. Qed.

(** Scenario C: a marker beside a visible file is removed. *)
Example scenario_C :
  let project := Directory "project" true true
                   [File "README.md" "";
                    Directory "logs" true true
                      [File ".gitkeep" ""; File "note.txt" "todo"]] in
  let result := walkDirectory defaultConfig "." project (initialState ∅ ∅) in
  removed (summary result.2) = ["logs/.gitkeep"]
  /\ result.1.2 = Directory "project" true true
                    [File "README.md" "";
                     Directory "logs" true true [File "note.txt" "todo"]].
Proof. split; reflexivity. Qed.

(** Scenario D: clean mode removes every marker; check mode on the same
    tree changes nothing and prints one diagnostic for each directory whose
    marker disagrees with its emptiness. *)
Example scenario_D :
  let cleanConfig := MkConfig false false "" true false [".git"] ".gitkeep" true in
  let checkConfig := MkConfig false false "" false true [".git"] ".gitkeep" true in
  let project := Directory "project" true true
                   [File ".gitkeep" "";
                    Directory "empty" true true [File ".gitkeep" ""];
                    Directory "full" true true
                      [File ".gitkeep" ""; File "data.csv" "1,2"];
                    Directory "bare" true true []] in
  let cleaned := walkDirectory cleanConfig "." project (initialState ∅ ∅) in
  let checked := walkDirectory checkConfig "." project (initialState ∅ ∅) in
  removed (summary cleaned.2) = ["empty/.gitkeep"; "full/.gitkeep"; ".gitkeep"]
  /\ created (summary checked.2) = [] /\ removed (summary checked.2) = []
  /\ console checked.2
     = [NonEmptyWithMarker "full"; EmptyWithoutMarker "bare";
        NonEmptyWithMarker "."].
Proof. repeat split; reflexivity. Qed.

(** A write that fails is reported and tried again by the next run. *)
Example failed_write_is_retried :
  let project := Directory "project" true true
                   [File "README.md" ""; Directory "logs" true false []] in
  let first := walkDirectory defaultConfig "." project (initialState ∅ ∅) in
  let second := walkDirectory defaultConfig "." first.1.2 (initialState ∅ ∅) in
  errors (summary first.2) = [CreateFailed "logs/.gitkeep"]
  /\ created (summary first.2) = []
  /\ errors (summary second.2) = [CreateFailed "logs/.gitkeep"]
  /\ created (summary second.2) = [].
Proof. repeat split; reflexivity. Qed.

(** * Further properties *)

(** ** The expression of a pattern *)

Lemma push_lits_terms s f :
  push_lits s f
  = Frame (f_alts f) (rev (literalTerms s) ++ f_terms f)
      (match s with EmptyString => f_quant f | _ => true end).
Proof.
  revert f. induction s as [|c s IH]; intros f; [by destruct f|].
  simpl. rewrite IH. simpl. rewrite <- app_assoc. by destruct s.
Qed.

Lemma push_segment_terms seg f :
  f_alts (push_segment seg f) = f_alts f
  /\ f_terms (push_segment seg f) = rev (segmentTerms seg) ++ f_terms f.
Proof.
  revert f. induction seg as [|c seg IH]; intros f; [done|].
  simpl. destruct (IH (if Js.chr_eqb c "*"
                      then Frame (f_alts f) (ReStar (CsNot ["/"%char]) :: f_terms f) false
                      else if Js.chr_eqb c "?"
                           then push_term (ReSet (CsNot ["/"%char])) true f
                           else push_term (ReSet (CsChar c)) true f)) as [Ha Ht].
  rewrite Ha, Ht, <- app_assoc. unfold charTerm.
  destruct (Js.chr_eqb c "*"); [done|]. by destruct (Js.chr_eqb c "?").
Qed.

Lemma push_part_terms seg f :
  f_alts (push_part seg f) = f_alts f
  /\ f_terms (push_part seg f) = rev (partTerms seg) ++ f_terms f.
Proof.
  unfold push_part, partTerms. destruct (String.eqb seg "**"); [done|].
  apply push_segment_terms.
Qed.

Lemma push_parts_terms segs f :
  f_alts (push_parts segs f) = f_alts f
  /\ f_terms (push_parts segs f) = rev (partsTerms segs) ++ f_terms f.
Proof.
  revert f. induction segs as [|seg segs IH]; intros f; [done|].
  destruct segs as [|seg' segs]; [apply push_part_terms|].
  change (push_parts (seg :: seg' :: segs) f)
    with (push_parts (seg' :: segs)
            (push_term (ReSet (CsChar "/")) true (push_part seg f))).
  change (partsTerms (seg :: seg' :: segs))
    with (partTerms seg ++ ReSet (CsChar "/") :: partsTerms (seg' :: segs)).
  destruct (IH (push_term (ReSet (CsChar "/")) true (push_part seg f))) as [Ha Ht].
  destruct (push_part_terms seg f) as [Ha' Ht'].
  rewrite Ha, Ht. simpl. rewrite Ha', Ht'.
  split; [done|]. rewrite rev_app_distr. simpl. by rewrite <- !app_assoc.
Qed.

(** The syntax tree of a pattern is the sequence of its prefix, its parts
    and its tail. *)
Lemma patternTree_terms pat anch base dir :
  patternTree pat anch base dir
  = seq_of (prefixTerms anch base ++ partsTerms (Js.split "/" pat) ++ tailTerms dir).
Proof.
  unfold patternTree, prefixTerms, tailTerms, close_frame.
  fold (basePathOf base).
  destruct anch.
  - rewrite push_lits_terms.
    match goal with
    | |- context [push_parts ?l ?f] =>
        destruct (push_parts_terms l f) as [Ha Ht]
    end.
    simpl in Ha, Ht.
    destruct dir; simpl; rewrite Ha, Ht; simpl;
      rewrite ?rev_app_distr, ?rev_involutive; simpl;
      rewrite ?rev_app_distr, ?rev_involutive; simpl;
      by rewrite <- ?app_assoc.
  - match goal with
    | |- context [push_parts ?l ?f] =>
        destruct (push_parts_terms l f) as [Ha Ht]
    end.
    simpl in Ha, Ht.
    destruct dir; simpl; rewrite Ha, Ht; simpl;
      rewrite ?rev_app_distr, ?rev_involutive; simpl;
      by rewrite <- ?app_assoc.
Qed.

(** ** The matcher on sequences of terms *)

Lemma star_match_ext cs k1 k2 :
  (forall b s, k1 b s = k2 b s) ->
  forall b s, star_match cs k1 b s = star_match cs k2 b s.
Proof.
  intros Hk b s. revert b. induction s as [|c s IH]; intros b; simpl; [done|].
  by rewrite IH, Hk.
Qed.

Lemma re_match_ext r :
  forall k1 k2, (forall b s, k1 b s = k2 b s) ->
  forall b s, re_match r k1 b s = re_match r k2 b s.
Proof.
  induction r as [| | |cs|cs|r IH|r1 IH1 r2 IH2|r1 IH1 r2 IH2];
    intros k1 k2 Hk b s; simpl.
  - done.
  - by rewrite Hk.
  - destruct s; [done|done].
  - destruct s; [done|]. by rewrite Hk.
  - by apply star_match_ext.
  - by rewrite (IH k1 k2 Hk), Hk.
  - apply IH1. intros b' s'. by apply IH2.
  - by rewrite (IH1 k1 k2 Hk), (IH2 k1 k2 Hk).
Qed.

Lemma re_match_seq_app ts1 ts2 k b s :
  re_match (seq_of (ts1 ++ ts2)) k b s
  = re_match (seq_of ts1) (re_match (seq_of ts2) k) b s.
Proof.
  revert b s. induction ts1 as [|t ts1 IH]; intros b s; [done|].
  simpl. apply re_match_ext. intros b' s'. apply IH.
Qed.

Lemma re_match_cons t ts k b s :
  re_match (seq_of (t :: ts)) k b s = re_match t (re_match (seq_of ts) k) b s.
Proof. reflexivity. Qed.

(** Literal terms consume the text they spell and nothing else. *)
Lemma re_match_literal pre k b s :
  re_match (seq_of (literalTerms pre)) k b s
  = match stripPrefix pre s with
    | Some rest => k (match pre with EmptyString => b | _ => false end) rest
    | None => false
    end.
Proof.
  revert b s. induction pre as [|a pre IH]; intros b s; [done|].
  simpl. destruct s as [|c s]; [done|].
  destruct (Js.chr_eqb a c); [|done]. simpl. rewrite IH.
  destruct (stripPrefix pre s); [|done]. by destruct pre.
Qed.

Lemma globStar_ext k1 k2 s :
  (forall t, k1 t = k2 t) -> globStar k1 s = globStar k2 s.
Proof. intros Hk. induction s as [|c s IH]; simpl; by rewrite ?IH, Hk. Qed.

Lemma star_match_glob (k : bool -> string -> bool) (g : string -> bool) :
  (forall b s, k b s = g s) ->
  forall b s, star_match (CsNot ["/"%char]) k b s = globStar g s.
Proof.
  intros Hk b s. revert b. induction s as [|c s IH]; intros b; simpl; [done|].
  by rewrite IH, Hk, orb_false_r.
Qed.

(** The terms of a segment, up to the end of the input, decide the
    wildcard match of the segment. *)
Lemma re_match_segment seg :
  forall b s,
    re_match (seq_of (segmentTerms seg ++ [ReEol])) accept b s = glob seg s.
Proof.
  induction seg as [|p seg IH]; intros b s.
  - simpl. by destruct s.
  - change (segmentTerms (String p seg) ++ [ReEol])
      with (charTerm p :: (segmentTerms seg ++ [ReEol])).
    rewrite re_match_cons. unfold charTerm. simpl glob.
    destruct (Js.chr_eqb p "*"); [by apply star_match_glob|].
    destruct (Js.chr_eqb p "?"); simpl.
    + destruct s as [|c s]; [done|]. by rewrite IH, orb_false_r.
    + destruct s as [|c s]; [done|]. by rewrite IH.
Qed.

Lemma globStar_component (g : string -> bool) s :
  (forall t, g t = true -> isComponent t = true) ->
  globStar g s = true -> isComponent s = true.
Proof.
  intros Hg. induction s as [|c s IH]; simpl; [by apply Hg|].
  intros [[Hc Hs]%andb_true_iff|Hk]%orb_true_iff.
  - unfold isComponent in *. simpl. rewrite Hc. by apply IH.
  - by apply (Hg _ Hk).
Qed.

(** A segment without [/] only matches components without [/]. *)
Lemma glob_component seg :
  isComponent seg = true ->
  forall s, glob seg s = true -> isComponent s = true.
Proof.
  induction seg as [|p seg IH]; intros Hseg s; simpl.
  - by intros ->%String.eqb_eq.
  - unfold isComponent in Hseg. simpl in Hseg.
    apply andb_true_iff in Hseg as [Hp Hseg].
    destruct (Js.chr_eqb p "*"); [by apply globStar_component, IH|].
    destruct s as [|c s]; [done|]. intros [Hc Hs]%andb_true_iff.
    unfold isComponent. simpl. fold (isComponent s). rewrite (IH Hseg s Hs).
    destruct (Js.chr_eqb p "?"); [by rewrite Hc|].
    unfold Js.chr_eqb in *. apply Ascii.eqb_eq in Hc. subst c. by rewrite Hp.
Qed.

(** ** The last component of a path *)

Lemma split_not_nil c s : Js.split c s <> [].
Proof.
  destruct s as [|a s]; [done|]. simpl. destruct (Js.chr_eqb a c); [done|].
  by destruct (Js.split c s).
Qed.

Lemma lastComponent_component p : isComponent p = true -> lastComponent p = p.
Proof. intros Hp. unfold lastComponent. by rewrite split_component. Qed.

Lemma lastComponent_slash p : lastComponent (String "/" p) = lastComponent p.
Proof.
  unfold lastComponent. simpl.
  destruct (Js.split "/" p) eqn:Hs; [by apply split_not_nil in Hs|done].
Qed.

Lemma split_hasSlash p :
  hasSlash p = true -> exists q q' qs, Js.split "/" p = q :: q' :: qs.
Proof.
  unfold hasSlash, isComponent. induction p as [|c p IH]; [done|]. simpl.
  destruct (Js.chr_eqb c "/") eqn:Hc; simpl.
  - intros _. destruct (Js.split "/" p) eqn:Hs; [by apply split_not_nil in Hs|].
    by eexists _, _, _.
  - intros Hp. destruct (IH Hp) as (q & q' & qs & ->). by eexists _, _, _.
Qed.

Lemma lastComponent_other c p :
  Js.chr_eqb c "/" = false -> hasSlash p = true ->
  lastComponent (String c p) = lastComponent p.
Proof.
  intros Hc (q & q' & qs & Hs)%split_hasSlash.
  unfold lastComponent. simpl. by rewrite Hc, Hs.
Qed.

(** ** What a compiled pattern matches *)

Lemma partsTerms_component seg :
  isComponent seg = true -> seg <> "**" ->
  partsTerms (Js.split "/" seg) = segmentTerms seg.
Proof.
  intros Hseg Hne. rewrite split_component by done. simpl. unfold partTerms.
  by apply String.eqb_neq in Hne as ->.
Qed.

Lemma glob_hasSlash seg s :
  isComponent seg = true -> hasSlash s = true -> glob seg s = false.
Proof.
  intros Hseg Hs. destruct (glob seg s) eqn:Hg; [|done].
  apply (glob_component seg Hseg) in Hg. unfold hasSlash in Hs.
  by rewrite Hg in Hs.
Qed.

Lemma re_search_nil r b : re_search r b "" = re_match r accept b "".
Proof. simpl. by rewrite orb_false_r. Qed.

Lemma re_search_String r b c s :
  re_search r b (String c s) = re_match r accept b (String c s) || re_search r false s.
Proof. reflexivity. Qed.

Lemma chr_eqb_sym a b : Js.chr_eqb a b = Js.chr_eqb b a.
Proof. apply Ascii.eqb_sym. Qed.

Lemma chr_eqb_eq a b : Js.chr_eqb a b = true -> a = b.
Proof. apply Ascii.eqb_eq. Qed.

Lemma hasSlash_String c p :
  hasSlash (String c p) = Js.chr_eqb c "/" || hasSlash p.
Proof.
  unfold hasSlash, isComponent. simpl string_forallb.
  by rewrite negb_andb, negb_involutive.
Qed.

Lemma re_search_unanchored seg :
  isComponent seg = true ->
  forall b p,
    re_search (seq_of (prefixTerms false "" ++ segmentTerms seg ++ tailTerms false))
      b p
    = if hasSlash p then glob seg (lastComponent p) else b && glob seg p.
Proof.
  intros Hseg.
  assert (Hhere : forall b p,
            re_match (seq_of (prefixTerms false "" ++ segmentTerms seg
                              ++ tailTerms false)) accept b p
            = (b && glob seg p)
              || match p with
                 | String c p' => Js.chr_eqb c "/" && glob seg p'
                 | EmptyString => false
                 end).
  { intros b p. unfold prefixTerms, tailTerms.
    change ([ReAlt (seq_of [ReBol]) (seq_of [ReSet (CsChar "/")])]
            ++ segmentTerms seg ++ [ReEol])
      with (ReAlt (seq_of [ReBol]) (seq_of [ReSet (CsChar "/")])
            :: (segmentTerms seg ++ [ReEol])).
    rewrite re_match_cons.
    cbn [re_match seq_of foldr in_charset]. rewrite !re_match_segment.
    destruct p as [|c p]; [done|].
    by rewrite re_match_segment, (chr_eqb_sym "/" c). }
  intros b p. revert b. induction p as [|c p IH]; intros b.
  - rewrite re_search_nil, Hhere. by rewrite orb_false_r.
  - rewrite re_search_String, Hhere, IH, hasSlash_String.
    destruct (Js.chr_eqb c "/") eqn:Hc; cbn [orb andb].
    + apply chr_eqb_eq in Hc. subst c.
      rewrite lastComponent_slash.
      rewrite (glob_hasSlash seg (String "/" p)) by done.
      rewrite andb_false_r. cbn [orb].
      destruct (hasSlash p) eqn:Hp.
      * by rewrite (glob_hasSlash seg p).
      * rewrite lastComponent_component, orb_false_r; [done|].
        unfold hasSlash in Hp. by apply negb_false_iff in Hp.
    + rewrite orb_false_r.
      destruct (hasSlash p) eqn:Hp.
      * rewrite lastComponent_other by done.
        rewrite (glob_hasSlash seg (String c p)); [by rewrite andb_false_r|done|].
        by rewrite hasSlash_String, Hp, orb_true_r.
      * by rewrite orb_false_r.
Qed.

(** X1: a pattern of one segment, neither anchored nor for directories
    only, matches a path exactly when the segment matches the last
    component of the path, at whatever depth. *)
Theorem unanchored_segment_matches_last_component (seg base : string) :
  isComponent seg = true -> seg <> "**" ->
  exists r,
    patternToRegExp seg false base false = Some r
    /\ forall p, RegExp_test r p = glob seg (lastComponent p).
Proof.
  intros Hseg Hne. eexists. split; [apply patternToRegExp_tree|].
  intros p. unfold RegExp_test.
  rewrite patternTree_terms, partsTerms_component by done.
  change (prefixTerms false base) with (prefixTerms false "").
  rewrite re_search_unanchored by done.
  destruct (hasSlash p) eqn:Hp; [done|].
  rewrite lastComponent_component; [done|].
  unfold hasSlash in Hp. by apply negb_false_iff in Hp.
Qed.

Lemma unanchored_segment_matches_last_component_witness :
  exists r,
    patternToRegExp "*.log" false "." false = Some r
    /\ RegExp_test r "var/logs/app.log" = true
    /\ RegExp_test r "var/app.log/readme" = false.
Proof.
  destruct (unanchored_segment_matches_last_component "*.log" "."
              eq_refl ltac:(discriminate)) as (r & Hr & Hm).
  exists r. split; [exact Hr|]. split; [exact (Hm "var/logs/app.log")|].
  exact (Hm "var/app.log/readme").
Defined.

Lemma re_search_bol ts s :
  re_search (seq_of (ReBol :: ts)) false s = false.
Proof. induction s as [|c s IH]; simpl; [done|]. exact IH. Qed.

(** X2: an anchored pattern of one segment matches the direct children of
    its directory only: the path is the directory, a [/] and one component
    that the segment matches. *)
Theorem anchored_segment_matches_direct_children (seg base : string) :
  isComponent seg = true -> seg <> "**" ->
  exists r,
    patternToRegExp seg true base false = Some r
    /\ forall p,
         RegExp_test r p
         = match stripPrefix (basePathOf base) p with
           | Some name => glob seg name
           | None => false
           end.
Proof.
  intros Hseg Hne. eexists. split; [apply patternToRegExp_tree|].
  intros p. unfold RegExp_test.
  rewrite patternTree_terms, partsTerms_component by done.
  unfold prefixTerms, tailTerms.
  change ((ReBol :: literalTerms (basePathOf base)) ++ segmentTerms seg ++ [ReEol])
    with (ReBol :: (literalTerms (basePathOf base) ++ (segmentTerms seg ++ [ReEol]))).
  assert (Hhere : re_match
                    (seq_of (ReBol :: (literalTerms (basePathOf base)
                                       ++ (segmentTerms seg ++ [ReEol]))))
                    accept true p
                  = match stripPrefix (basePathOf base) p with
                    | Some name => glob seg name
                    | None => false
                    end).
  { rewrite re_match_cons. simpl re_match at 1.
    rewrite re_match_seq_app, re_match_literal.
    destruct (stripPrefix (basePathOf base) p); [|done].
    apply re_match_segment. }
  destruct p as [|c p].
  - by rewrite re_search_nil, Hhere.
  - rewrite re_search_String, Hhere, re_search_bol. by rewrite orb_false_r.
Qed.

Lemma anchored_segment_matches_direct_children_witness :
  exists r,
    patternToRegExp "foo" true "d" false = Some r
    /\ RegExp_test r "d/foo" = true
    /\ RegExp_test r "d/sub/foo" = false
    /\ RegExp_test r "foo" = false.
Proof.
  destruct (anchored_segment_matches_direct_children "foo" "d"
              eq_refl ltac:(discriminate)) as (r & Hr & Hm).
  exists r. split; [exact Hr|]. split; [exact (Hm "d/foo")|].
  split; [exact (Hm "d/sub/foo")|exact (Hm "foo")].
Defined.

(** ** Patterns with a [**] segment *)

Lemma atProper_next b e c s :
  atProper b e (String c s) -> atProper false (Js.chr_eqb c "/") s.
Proof.
  unfold atProper. simpl. intros [Hp _]. split; [|done].
  destruct (Js.chr_eqb c "/"); [|done]. by apply andb_true_iff in Hp as [_ ?].
Qed.

Lemma star_match_consumes cs k :
  forall s b e,
    atProper b e s -> star_match cs k b s = true ->
    exists b' e' t, atProper b' e' t /\ k b' t = true.
Proof.
  induction s as [|c s IH]; intros b e Hok; simpl.
  - intros Hk. by eexists _, _, _.
  - intros [[_ Hs]%andb_true_iff|Hk]%orb_true_iff.
    + apply (IH false (Js.chr_eqb c "/")); [|done]. by eapply atProper_next.
    + by eexists _, _, _.
Qed.

(** Whatever a term consumes, the matcher stays at a position of the
    proper path. *)
Lemma re_match_consumes r :
  forall k b e s,
    atProper b e s -> re_match r k b s = true ->
    exists b' e' t, atProper b' e' t /\ k b' t = true.
Proof.
  induction r as [| | |cs|cs|r IH|r1 IH1 r2 IH2|r1 IH1 r2 IH2];
    intros k b e s Hok; simpl.
  - intros Hk. by eexists _, _, _.
  - intros [_ Hk]%andb_true_iff. by eexists _, _, _.
  - destruct s; [|done]. intros Hk. by eexists _, _, _.
  - destruct s as [|c s]; [done|]. intros [_ Hk]%andb_true_iff.
    exists false, (Js.chr_eqb c "/"), s. split; [|done]. by eapply atProper_next.
  - by apply (star_match_consumes cs k s b e).
  - intros [Hr|Hk]%orb_true_iff; [by eapply IH|by eexists _, _, _].
  - intros Hr. destruct (IH1 _ _ _ _ Hok Hr) as (b1 & e1 & t1 & Hok1 & Hr2).
    by eapply IH2.
  - intros [Hr|Hr]%orb_true_iff; [by eapply IH1|by eapply IH2].
Qed.

Lemma failsAtEdge_slash ts k :
  failsAtEdge (re_match (seq_of (ReSet (CsChar "/") :: ts)) k).
Proof.
  intros b t Ht. rewrite re_match_cons. cbn [re_match in_charset].
  destruct t as [|c t]; [done|].
  destruct (Js.chr_eqb "/" c) eqn:Hc; [|done].
  apply chr_eqb_eq in Hc. subst c. done.
Qed.

Lemma failsAtEdge_tail dir : failsAtEdge (re_match (seq_of (tailTerms dir)) accept).
Proof.
  intros b t Ht. destruct t as [|c t]; [done|].
  destruct dir; cbn [tailTerms seq_of foldr re_match in_charset]; [|done].
  destruct (Js.chr_eqb "/" c) eqn:Hc; [|done].
  apply chr_eqb_eq in Hc. subst c. done.
Qed.

(** After a [/] the matcher is at an edge. *)
Lemma re_match_slash_edge k b e s :
  failsAtEdge k -> atProper b e s ->
  re_match (seq_of [ReSet (CsChar "/")]) k b s = false.
Proof.
  intros Hk [Hp _]. cbn [seq_of foldr re_match in_charset].
  destruct s as [|c s]; [done|].
  destruct (Js.chr_eqb "/" c) eqn:Hc; [|done].
  apply chr_eqb_eq in Hc. subst c. cbn [andb]. simpl in Hp.
  apply andb_true_iff in Hp as [_ Hp]. by apply Hk.
Qed.

Lemma re_match_snoc_slash_edge ts k b e s :
  failsAtEdge k -> atProper b e s ->
  re_match (seq_of (ts ++ [ReSet (CsChar "/")])) k b s = false.
Proof.
  intros Hk Hok. rewrite re_match_seq_app.
  destruct (re_match (seq_of ts) _ b s) eqn:Hm; [|done].
  destruct (re_match_consumes _ _ _ _ _ Hok Hm) as (b1 & e1 & t1 & Hok1 & Hm1).
  by rewrite (re_match_slash_edge k b1 e1 t1) in Hm1.
Qed.

Lemma failsAtEdge_anyDirs ts k :
  failsAtEdge (re_match (seq_of ts) k) ->
  failsAtEdge (re_match (seq_of (anyDirs :: ts)) k).
Proof.
  intros Hk b t Ht. rewrite re_match_cons. unfold anyDirs.
  cbn [re_match]. rewrite (Hk b t Ht), orb_false_r.
  change (seq_of [ReStar CsDot; ReSet (CsChar "/")])
    with (seq_of ([ReStar CsDot] ++ [ReSet (CsChar "/")])).
  apply (re_match_snoc_slash_edge _ _ b true t); [done|]. by split.
Qed.

Lemma re_match_prefix_edge anch base k b e s :
  failsAtEdge k -> atProper b e s ->
  re_match (seq_of (prefixTerms anch base)) k b s = false.
Proof.
  intros Hk Hok. unfold prefixTerms. destruct anch.
  - rewrite re_match_cons. cbn [re_match].
    destruct b; [|done]. destruct Hok as [Hp He]. rewrite (He eq_refl) in Hp.
    cbn [andb]. unfold basePathOf. destruct (String.eqb base ".").
    + cbn [literalTerms seq_of foldr re_match]. by apply Hk.
    + assert (Hl : forall x y, literalTerms (x +:+ y)
                               = literalTerms x ++ literalTerms y).
      { intros x y. induction x as [|c x IH]; [done|]. simpl.
        by rewrite <- IH. }
      rewrite Hl. apply (re_match_snoc_slash_edge _ _ true true s); by try split.
  - cbn [seq_of foldr re_match in_charset]. destruct Hok as [Hp He].
    assert (Hbol : b && k b s = false).
    { destruct b; [|done]. rewrite (He eq_refl) in Hp. simpl. by apply Hk. }
    rewrite Hbol. cbn [orb]. destruct s as [|c s]; [done|].
    destruct (Js.chr_eqb "/" c) eqn:Hc; [|done].
    apply chr_eqb_eq in Hc. subst c. cbn [andb]. simpl in Hp.
    apply andb_true_iff in Hp as [_ Hp]. by apply Hk.
Qed.

Lemma partsTerms_app l1 l2 :
  l1 <> [] -> l2 <> [] ->
  partsTerms (l1 ++ l2) = partsTerms l1 ++ ReSet (CsChar "/") :: partsTerms l2.
Proof.
  intros H1 H2. induction l1 as [|x l1 IH]; [done|].
  destruct l1 as [|y l1].
  - simpl. by destruct l2.
  - change (partsTerms ((x :: y :: l1) ++ l2))
      with (partTerms x ++ ReSet (CsChar "/") :: partsTerms ((y :: l1) ++ l2)).
    rewrite IH by done. simpl. by rewrite <- app_assoc.
Qed.

Lemma partsTerms_anyDirs l1 l2 :
  exists before after,
    partsTerms (l1 ++ "**" :: l2) = before ++ anyDirs :: after
    /\ (before = [] \/ exists ts, before = ts ++ [ReSet (CsChar "/")])
    /\ (after = [] \/ exists ts, after = ReSet (CsChar "/") :: ts).
Proof.
  assert (Hstar : forall l2, exists after,
             partsTerms ("**" :: l2) = anyDirs :: after
             /\ (after = [] \/ exists ts, after = ReSet (CsChar "/") :: ts)).
  { intros [|y l]; [exists []; by split; [|left]|].
    eexists. split; [reflexivity|]. right. by eexists. }
  destruct (Hstar l2) as (after & Ha & Hafter).
  destruct l1 as [|x l1].
  - exists [], after. split; [done|]. split; [by left|done].
  - exists (partsTerms (x :: l1) ++ [ReSet (CsChar "/")]), after.
    rewrite partsTerms_app, Ha by done. rewrite <- app_assoc.
    split; [done|]. split; [right; by eexists|done].
Qed.

(** X3: a pattern with a segment [**] matches no path made of components
    that are not empty, whatever its other segments and its flags are. *)
Theorem double_star_matches_no_proper_path (pat base : string)
    (anch dir : bool) (p : string) :
  In "**" (Js.split "/" pat) ->
  properPath p = true ->
  exists r,
    patternToRegExp pat anch base dir = Some r /\ RegExp_test r p = false.
Proof.
  intros (l1 & l2 & Hsplit)%in_split Hp.
  eexists. split; [apply patternToRegExp_tree|].
  rewrite patternTree_terms, Hsplit.
  destruct (partsTerms_anyDirs l1 l2) as (before & after & -> & Hbefore & Hafter).
  assert (Hdead : failsAtEdge
                    (re_match (seq_of (anyDirs :: after ++ tailTerms dir)) accept)).
  { apply failsAtEdge_anyDirs. destruct Hafter as [->|[ts ->]].
    - apply failsAtEdge_tail.
    - apply failsAtEdge_slash. }
  assert (Hhere : forall b e s, atProper b e s ->
            re_match (seq_of (prefixTerms anch base
                              ++ (before ++ anyDirs :: after) ++ tailTerms dir))
              accept b s = false).
  { intros b e s Hok. destruct Hbefore as [->|[ts ->]].
    - simpl app. rewrite re_match_seq_app. by eapply re_match_prefix_edge.
    - rewrite <- !app_assoc. rewrite (app_assoc (prefixTerms anch base) ts).
      simpl app.
      change (ReSet (CsChar "/") :: anyDirs :: after ++ tailTerms dir)
        with ([ReSet (CsChar "/")] ++ (anyDirs :: after ++ tailTerms dir)).
      rewrite app_assoc, re_match_seq_app.
      by eapply re_match_snoc_slash_edge. }
  unfold RegExp_test.
  assert (Hsearch : forall s b e, atProper b e s ->
            re_search (seq_of (prefixTerms anch base
                               ++ (before ++ anyDirs :: after) ++ tailTerms dir))
              b s = false).
  { induction s as [|c s IH]; intros b e Hok.
    - by rewrite re_search_nil, (Hhere b e).
    - rewrite re_search_String, (Hhere b e) by done. simpl.
      apply (IH false (Js.chr_eqb c "/")). by eapply atProper_next. }
  apply (Hsearch p true true). by split.
Qed.

Lemma double_star_matches_no_proper_path_witness :
  exists r,
    patternToRegExp "**/foo" false "." false = Some r
    /\ RegExp_test r "a/b/foo" = false.
Proof.
  apply (double_star_matches_no_proper_path "**/foo" "." false false "a/b/foo").
  - left. reflexivity.
  - reflexivity.
Defined.

(** ** Escaping *)

Lemma stripPrefix_eqb s t :
  match stripPrefix s t with
  | Some rest => String.eqb rest ""
  | None => false
  end = String.eqb s t.
Proof.
  revert t. induction s as [|a s IH]; intros t; simpl.
  - by destruct t.
  - destruct t as [|c t]; [done|]. unfold Js.chr_eqb.
    destruct (Ascii.eqb a c); [apply IH|done].
Qed.

(** X4: the expression written by [escapeRegExp] for a text, between [^]
    and [$], matches that text and nothing else. *)
Theorem escapeRegExp_matches_itself_only (s : string) :
  exists r,
    RegExp_new ("^" +:+ escapeRegExp s +:+ "$") = Some r
    /\ forall t, RegExp_test r t = String.eqb s t.
Proof.
  exists (seq_of (ReBol :: (literalTerms s ++ [ReEol]))). split.
  - unfold RegExp_new. rewrite append_String, append_empty.
    change (re_parse (String "^" ?x) None frame0 [])
      with (re_parse x None (push_term ReBol false frame0) []).
    rewrite re_parse_escaped, push_lits_terms. simpl. unfold close_frame.
    simpl. by rewrite rev_app_distr, rev_involutive.
  - intros t. unfold RegExp_test.
    assert (Hhere : re_match (seq_of (ReBol :: (literalTerms s ++ [ReEol])))
                      accept true t = String.eqb s t).
    { rewrite re_match_cons. cbn [re_match andb].
      rewrite re_match_seq_app, re_match_literal, <- stripPrefix_eqb.
      destruct (stripPrefix s t) as [rest|]; [|done]. by destruct rest. }
    destruct t as [|c t].
    + by rewrite re_search_nil.
    + by rewrite re_search_String, Hhere, re_search_bol, orb_false_r.
Qed.

(** ** The lines of an ignore file *)

Lemma compileLines_flat_map rel lines rules :
  compileLines rel lines rules
  = Some (rules ++ flat_map (fun raw => match compileLine rel raw with
                                        | Push r => [r]
                                        | _ => []
                                        end) lines).
Proof.
  revert rules. induction lines as [|raw lines IH]; intros rules.
  - simpl. by rewrite app_nil_r.
  - cbn [compileLines flat_map]. destruct (isPatternLine raw) eqn:Hline.
    + rewrite compileLine_pattern_line by done. cbv beta iota zeta.
      rewrite IH. f_equal. by rewrite <- app_assoc.
    + rewrite compileLine_skip by done. cbv beta iota. by rewrite IH.
Qed.



Lemma trimEnd_String a s :
  Js.isWhite a = false -> Js.trimEnd (String a s) = String a (Js.trimEnd s).
Proof. intros Ha. simpl. rewrite Ha. by destruct (Js.trimEnd s). Qed.

Lemma trim_String a s :
  Js.isWhite a = false -> Js.trim (String a s) = String a (Js.trimEnd s).
Proof.
  intros Ha. unfold Js.trim. simpl Js.trimStart. rewrite Ha.
  by apply trimEnd_String.
Qed.

(** X6: a backslash before a leading [*] or [?] changes nothing: the
    line compiles to the rule of the line without the backslash, with the
    wildcard still a wildcard. *)
Theorem escaped_wildcard_stays_wildcard (base rest : string) (w : ascii) :
  w = "*"%char \/ w = "?"%char ->
  exists r1 r2,
    compileLine base (String "\" (String w rest)) = Push r1
    /\ compileLine base (String w rest) = Push r2
    /\ pattern r1 = pattern r2
    /\ regex r1 = regex r2
    /\ isNegated r1 = isNegated r2
    /\ onlyDir r1 = onlyDir r2
    /\ anchored r1 = anchored r2.
Proof.
  intros Hw.
  assert (Hwhite : Js.isWhite w = false) by (by destruct Hw as [->| ->]).
  assert (Hstrip : stripLine (Js.trim (String "\" (String w rest)))
                   = stripLine (Js.trim (String w rest))).
  { rewrite !trim_String, trimEnd_String by done. unfold stripLine.
    assert (Js.startsWith "!" (String "\" (String w (Js.trimEnd rest))) = false)
      as -> by done.
    assert (Js.startsWith "!" (String w (Js.trimEnd rest)) = false)
      as -> by (by destruct Hw as [->| ->]).
    assert (unescapeMeta (String "\" (String w (Js.trimEnd rest)))
            = unescapeMeta (String w (Js.trimEnd rest))) as ->; [|done].
    destruct Hw as [->| ->]; simpl; by destruct (Js.trimEnd rest). }
  eexists _, _. split; [|split].
  - apply compileLine_pattern_line. unfold isPatternLine.
    by rewrite trim_String.
  - apply compileLine_pattern_line. unfold isPatternLine.
    rewrite trim_String by done. by destruct Hw as [->| ->].
  - cbv zeta. cbn [pattern regex isNegated onlyDir anchored].
    by rewrite Hstrip.
Qed.

Lemma escaped_wildcard_stays_wildcard_witness :
  exists r,
    compileLine "." "\*.log" = Push r
    /\ matchRule "app.log" r false = true.
Proof.
  destruct (escaped_wildcard_stays_wildcard "." ".log" "*" (or_introl eq_refl))
    as (r1 & r2 & H1 & H2 & _ & Hre & _).
  exists r1. split; [exact H1|].
  injection H2 as <-. unfold matchRule. rewrite Hre.
  injection H1 as <-. reflexivity.
Defined.

(** ** Rule lists *)

(** X7: on two rule lists put end to end, the second list decides when
    one of its rules matches; the first list decides otherwise. *)
Theorem isIgnored_app (p : string) (d : bool) (rules1 rules2 : list GitignoreRule) :
  isIgnored p d (rules1 ++ rules2)
  = if existsb (fun r => matchRule p r d) rules2
    then isIgnored p d rules2
    else isIgnored p d rules1.
Proof.
  induction rules2 as [|r rules2 IH] using rev_ind.
  - by rewrite app_nil_r.
  - rewrite app_assoc, !isIgnored_snoc, existsb_app. simpl.
    rewrite orb_false_r.
    destruct (matchRule p r d); [by rewrite orb_true_r|].
    by rewrite orb_false_r.
Qed.

(** ** Accumulated rules *)

Lemma prefixes_snoc parts name :
  prefixes (parts ++ [name]) = prefixes parts ++ [parts ++ [name]].
Proof.
  induction parts as [|p parts IH]; [done|].
  simpl. rewrite IH, map_app. done.
Qed.

Lemma join_snoc parts name :
  parts <> [] -> Js.join "/" (parts ++ [name]) = Js.join "/" parts +:+ "/" +:+ name.
Proof.
  induction parts as [|p parts IH]; [done|]. intros _.
  destruct parts as [|q parts]; [done|].
  change (Js.join "/" ((p :: q :: parts) ++ [name]))
    with (p +:+ "/" +:+ Js.join "/" ((q :: parts) ++ [name])).
  rewrite IH by done.
  change (Js.join "/" (p :: q :: parts)) with (p +:+ "/" +:+ Js.join "/" (q :: parts)).
  by rewrite !append_assoc.
Qed.

(** The path that the walker gives to a subdirectory. *)
Lemma childPath_dirOfParts parts name :
  Forall (fun p => isComponent p = true) parts -> parts <> ["."] ->
  childPath (dirOfParts parts) name = dirOfParts (parts ++ [name]).
Proof.
  intros Hall Hdot. unfold childPath.
  destruct (decide (parts = [])) as [->|Hne]; [done|].
  rewrite dirOfParts_not_root by done.
  destruct parts as [|p parts]; [done|].
  change (dirOfParts (p :: parts)) with (Js.join "/" (p :: parts)).
  rewrite <- join_snoc by done. done.
Qed.

Lemma chainRules_snoc gi gk parts name :
  chainRules gi gk (parts ++ [name])
  = chainRules gi gk parts
    ++ tableAt gi (dirOfParts (parts ++ [name]))
    ++ tableAt gk (dirOfParts (parts ++ [name])).
Proof.
  unfold chainRules, ancestorChain.
  rewrite prefixes_snoc, map_app, app_comm_cons, map_app, concat_app.
  simpl. by rewrite app_nil_r.
Qed.

(** X8: the rules of a subdirectory are the rules of its directory, in the
    same order, followed by the content rules and then the marker rules of
    the subdirectory itself. *)
Theorem accumulate_child_extends_parent (gi gk : RulesMap)
    (this1 this2 : RulesAccumulator) (parts : list string) (name : string) :
  reachable gi gk this1 -> reachable gi gk this2 ->
  Forall (fun p => isComponent p = true) (parts ++ [name]) ->
  parts <> ["."] -> name <> "." ->
  let rel := dirOfParts parts in
  (accumulate this1 (childPath rel name)).1
  = (accumulate this2 rel).1
    ++ tableAt gi (childPath rel name) ++ tableAt gk (childPath rel name).
Proof.
  intros H1 H2 Hall Hdot Hname rel. subst rel.
  pose proof Hall as [Hparts _]%Forall_app.
  rewrite childPath_dirOfParts by done.
  rewrite (accumulate_result gi gk this1), (accumulate_result gi gk this2) by done.
  rewrite (accumulateFresh_chain gi gk parts) by done.
  rewrite (accumulateFresh_chain gi gk (parts ++ [name]));
    [apply chainRules_snoc|done|].
  intros Heq. destruct parts as [|p [|q parts]]; simpl in Heq; simplify_eq.
Qed.

Lemma accumulate_child_extends_parent_witness :
  let logs := Rule "*.log" false false false "." ReEol "*.log" in
  let keep := Rule "keep" true false false "a/b" ReEol "!keep" in
  let gi : RulesMap := {[ "." := [logs] ]} in
  let gk : RulesMap := {[ "a/b" := [keep] ]} in
  (accumulate (newRulesAccumulator gi gk) "a/b").1
  = (accumulate (newRulesAccumulator gi gk) "a").1 ++ [keep].
Proof.
  intros logs keep gi gk.
  refine (accumulate_child_extends_parent gi gk _ _ ["a"] "b"
            (reach_new gi gk) (reach_new gi gk) _ _ _).
  - repeat constructor.
  - discriminate.
  - discriminate.
Defined.

(** X9: the cache is invisible: after any calls, [accumulate] returns what
    a new accumulator would return, for every path; the two tables stay as
    they were given and the cache only grows. *)
Theorem accumulate_is_memoization (gi gk : RulesMap) (this : RulesAccumulator)
    (dir : string) :
  reachable gi gk this ->
  (accumulate this dir).1 = (accumulate (newRulesAccumulator gi gk) dir).1
  /\ gitignoreMap (accumulate this dir).2 = gi
  /\ gitkeepIgnoreMap (accumulate this dir).2 = gk
  /\ cache this ⊆ cache (accumulate this dir).2.
Proof.
  intros Hreach. split.
  - rewrite (accumulate_result gi gk this dir Hreach).
    by rewrite (accumulate_result gi gk _ dir (reach_new gi gk)).
  - destruct (reachable_inv gi gk _ (reach_accumulate gi gk this dir Hreach))
      as (Hgi & Hgk & _).
    split; [done|]. split; [done|].
    unfold accumulate. destruct (cache this !! dir) eqn:Hc; simpl; [done|].
    by apply insert_subseteq.
Qed.

Lemma accumulate_is_memoization_witness :
  let logs := Rule "*.log" false false false "." ReEol "*.log" in
  let gi : RulesMap := {[ "." := [logs] ]} in
  let used := (accumulate (accumulate (newRulesAccumulator gi ∅) "a").2 "a/b").2 in
  (accumulate used "a").1 = [logs].
Proof.
  intros logs gi used.
  refine (eq_trans (proj1 (accumulate_is_memoization gi ∅ used "a" _)) _).
  - apply reach_accumulate, reach_accumulate, reach_new.
  - reflexivity.
Defined.

(** ** The rule tables *)

Lemma loadIgnoreRules_baseDir dirEntries rel filename :
  Forall (fun r => baseDir r = rel) (loadIgnoreRules dirEntries rel filename).
Proof.
  unfold loadIgnoreRules. destruct (readFile filename dirEntries) as [text|];
    [|done].
  rewrite compileLines_flat_map. cbv beta iota. simpl app.
  induction (Js.splitLines text) as [|raw lines IH]; [done|].
  simpl. destruct (isPatternLine raw) eqn:Hline.
  - rewrite compileLine_pattern_line by done. cbv beta iota zeta. by constructor.
  - rewrite compileLine_skip by done. by cbv beta iota.
Qed.

Lemma setRules_lookup rel rules (m : RulesMap) dir l :
  setRules rel rules m !! dir = Some l ->
  (dir = rel /\ l = rules /\ rules <> []) \/ m !! dir = Some l.
Proof.
  unfold setRules. destruct rules as [|r rules]; simpl; [by right|].
  rewrite lookup_insert. case_decide; [|by right].
  intros [= <-]. left. by split.
Qed.

Lemma loadSubdirs_inv config (P : RulesMap * RulesMap -> Prop) rel es :
  Forall (fun e => forall rel maps, P maps -> P (recursiveLoad config rel e maps)) es ->
  forall maps, P maps -> P (loadSubdirs config (recursiveLoad config) rel es maps).
Proof.
  induction 1 as [|e es He _ IH]; intros maps Hmaps; [done|]. simpl.
  destruct (isDirectory e); [|by apply IH].
  destruct (existsb _ _); [by apply IH|]. by apply IH, He.
Qed.

Lemma recursiveLoad_inv config dir :
  forall rel maps,
    (forall d l, maps.1 !! d = Some l \/ maps.2 !! d = Some l ->
       l <> [] /\ Forall (fun r => baseDir r = d) l) ->
    forall d l,
      (recursiveLoad config rel dir maps).1 !! d = Some l
      \/ (recursiveLoad config rel dir maps).2 !! d = Some l ->
      l <> [] /\ Forall (fun r => baseDir r = d) l.
Proof.
  induction dir as [n t|n r w cs IH|n] using entry_ind'; intros rel maps Hmaps;
    [done| |done].
  simpl.
  assert (Hown : forall d l,
             setRules rel (loadGitignoreFromPath cs rel) maps.1 !! d = Some l
             \/ setRules rel (loadGitkeepIgnoreFromPath config cs rel) maps.2 !! d
                = Some l ->
             l <> [] /\ Forall (fun r => baseDir r = d) l).
  { intros d l [[(-> & -> & Hne)|Hold]%setRules_lookup
               |[(-> & -> & Hne)|Hold]%setRules_lookup].
    - split; [done|]. apply loadIgnoreRules_baseDir.
    - apply Hmaps. by left.
    - split; [done|]. unfold loadGitkeepIgnoreFromPath in *.
      destruct (respectGitkeepIgnore config); [|done].
      apply loadIgnoreRules_baseDir.
    - apply Hmaps. by right. }
  destruct (negb r); [exact Hown|].
  apply (loadSubdirs_inv config
           (fun maps => forall d l,
              maps.1 !! d = Some l \/ maps.2 !! d = Some l ->
              l <> [] /\ Forall (fun r => baseDir r = d) l));
    [|exact Hown].
  eapply Forall_impl; [exact IH|]. intros e He rel' maps' Hm. by apply He.
Qed.

(** X10: every entry of the two loaded tables is a list that is not empty,
    and each of its rules has the key of the entry as its directory. *)
Theorem loaded_tables_invariant (config : Config) (root : entry)
    (dir : string) (rules : list GitignoreRule) :
  (loadAllIgnoreRules config root).1 !! dir = Some rules
  \/ (loadAllIgnoreRules config root).2 !! dir = Some rules ->
  rules <> [] /\ Forall (fun r => baseDir r = dir) rules.
Proof.
  apply recursiveLoad_inv. intros d l [H|H]; simpl in H;
    by rewrite lookup_empty in H.
Qed.

Lemma loaded_tables_invariant_witness :
  let project := Directory "project" true true
                   [File ".gitignore" "*.log";
                    Directory "logs" true true [File ".gitkeepignore" "!keep"]] in
  exists rules,
    (loadAllIgnoreRules defaultConfig project).2 !! "logs" = Some rules
    /\ Forall (fun r => baseDir r = "logs") rules.
Proof.
  intros project. eexists. split; [reflexivity|].
  refine (proj2 (loaded_tables_invariant defaultConfig project "logs" _ _)).
  right. reflexivity.
Defined.

Lemma recursiveLoad_no_marker_table config dir :
  respectGitkeepIgnore config = false ->
  forall rel maps, (recursiveLoad config rel dir maps).2 = maps.2.
Proof.
  intros Hoff.
  induction dir as [n t|n r w cs IH|n] using entry_ind'; intros rel maps;
    [done| |done].
  simpl. unfold loadGitkeepIgnoreFromPath. rewrite Hoff.
  destruct (negb r); [done|].
  apply (loadSubdirs_inv config (fun m => m.2 = maps.2)); [|done].
  eapply Forall_impl; [exact IH|]. intros e He rel' maps' Hm. by rewrite He.
Qed.

(** X11: when the marker ignore files are switched off, the marker table
    stays empty whatever the tree holds. *)
Theorem no_gitkeepignore_gives_empty_table (config : Config) (root : entry) :
  respectGitkeepIgnore config = false ->
  (loadAllIgnoreRules config root).2 = ∅.
Proof. intros Hoff. by apply (recursiveLoad_no_marker_table config root Hoff). Qed.

Lemma no_gitkeepignore_gives_empty_table_witness :
  let config := MkConfig false false "" false false [".git"] ".gitkeep" false in
  let project := Directory "project" true true
                   [File ".gitkeepignore" "*.tmp"; Directory "logs" true true []] in
  (loadAllIgnoreRules config project).2 = ∅.
Proof.
  intros config project.
  exact (no_gitkeepignore_gives_empty_table config project eq_refl).
Defined.

(** ** Further properties of the walk *)

Lemma overwrite_forallb (P : entry -> bool) name text es es' :
  P (File name text) = true ->
  overwrite name text es = Some es' ->
  forallb P es = true -> forallb P es' = true.
Proof.
  intros HP. revert es'. induction es as [|e es IH]; intros es'.
  - intros [= <-] _. simpl. by rewrite HP.
  - rewrite overwrite_cons. simpl forallb. intros Ho [He Hes]%andb_true_iff.
    destruct (String.eqb (entryName e) name).
    + destruct e; try done; injection Ho as <-; simpl; [by rewrite HP, Hes|].
      by rewrite He, Hes.
    + destruct (overwrite name text es) as [es2|]; [|done].
      injection Ho as <-. simpl. by rewrite He, (IH es2 eq_refl Hes).
Qed.

Lemma removeEntry_forallb (P : entry -> bool) name es es' :
  removeEntry name es = Some es' ->
  forallb P es = true -> forallb P es' = true.
Proof.
  revert es'. induction es as [|e es IH]; intros es'; [done|]. simpl.
  intros Ho [He Hes]%andb_true_iff.
  destruct (String.eqb (entryName e) name).
  - destruct (isDirectory e); [done|]. by injection Ho as <-.
  - destruct (removeEntry name es) as [es2|]; [|done].
    injection Ho as <-. simpl. by rewrite He, (IH es2 eq_refl Hes).
Qed.

Lemma reconcile_forallb config (P : entry -> bool) w es rel isEmpty hasGitkeep st :
  (forall text, P (File (gitkeepName config) text) = true) ->
  forallb P es = true ->
  forallb P (reconcile config w es rel isEmpty hasGitkeep st).1 = true.
Proof.
  intros HP Hes.
  assert (Hc : forallb P (createGitkeep config w es rel st).1 = true).
  { unfold createGitkeep, writeFile. destruct (dryRun config); [done|].
    destruct w; [|done].
    destruct (overwrite _ _ es) as [es'|] eqn:Ho; [|done].
    by apply (overwrite_forallb P _ _ es es' (HP _) Ho). }
  assert (Hr : forallb P (removeGitkeep config w es rel st).1 = true).
  { unfold removeGitkeep, unlink. destruct (dryRun config); [done|].
    destruct w; [|done].
    destruct (removeEntry _ es) as [es'|] eqn:Ho; [|done].
    by apply (removeEntry_forallb P _ es es' Ho). }
  unfold reconcile.
  repeat match goal with
         | |- context [if ?b then _ else _] =>
             lazymatch b with
             | context [if _ then _ else _] => fail
             | _ => destruct b
             end
         end; done.
Qed.

(** A walk brings in regular files only: no entry that is neither a file
    nor a directory takes one of [names] through it. *)
Lemma walkDirectory_plain config names dir :
  forall rel st,
    plainTree names dir = true ->
    plainTree names (walkDirectory config rel dir st).1.2 = true.
Proof.
  induction dir as [n t|n r w cs IH|n] using entry_ind'; intros rel st Hplain.
  - by destruct (walkDirectory_not_dir config rel (File n t) st eq_refl)
      as (s & -> & _).
  - rewrite walkDirectory_dir.
    destruct (existsb (String.eqb n) (excludeDirs config)); [done|].
    destruct (accumulate (rulesAccumulator st) rel) as [rules acc]. cbv zeta.
    destruct (isIgnored rel true rules); [done|].
    destruct (negb r); [done|].
    rewrite plainTree_dir in Hplain.
    apply andb_true_iff in Hplain as [Hcs Hrec].
    destruct (walkSubdirs (walkDirectory config) rel cs false (setAccumulator acc st))
      as [[h cs1] st1] eqn:Hloop.
    apply (walkSubdirs_state _ rel (fun _ => True)
             (fun e e1 => plainTree names e1 = true /\ isDirectory e1 = true))
      in Hloop as [_ Hrel]; [| |done].
    + assert (Hcs1 : forallb (plainEntry names) cs1 = true).
      { rewrite <- Hcs.
        by apply (walked_plain names (fun e e1 => plainTree names e1 = true)). }
      assert (Hrec1 : forallb (plainTree names) cs1 = true).
      { clear -Hrel Hrec. induction Hrel as [|e e1 es es1 He _ IHrel]; [done|].
        simpl in Hrec |- *. apply andb_true_iff in Hrec as [Hpe Hpes].
        rewrite (IHrel Hpes), andb_true_r.
        destruct (isDirectory e); [by destruct He|by subst]. }
      pose proof (reconcile_forallb config (plainEntry names) w cs1 rel
                    (Nat.eqb (length (visibleFiles config rel rules
                                        (List.filter isFile cs))) 0 && negb h)
                    (existsb (isMarker config) (List.filter isFile cs)) st1
                    (fun _ => eq_refl) Hcs1) as H1.
      pose proof (reconcile_forallb config (plainTree names) w cs1 rel
                    (Nat.eqb (length (visibleFiles config rel rules
                                        (List.filter isFile cs))) 0 && negb h)
                    (existsb (isMarker config) (List.filter isFile cs)) st1
                    (fun _ => eq_refl) Hrec1) as H2.
      destruct (reconcile _ _ _ _ _ _ _) as [cs2 st2]. simpl in *.
      by rewrite H1, H2.
    + rewrite forallb_forall in Hrec. apply Forall_forall.
      rewrite Forall_forall in IH. intros e Hin Hd s b e1 s1 _ Hw. split; [|split].
      * done.
      * pose proof (IH e Hin (childPath rel (entryName e)) s
                      (Hrec e (proj1 (list_elem_of_In _ _) Hin))) as He.
        by rewrite Hw in He.
      * pose proof (walkDirectory_stripMarkers config e _ _ _ _ _ Hw) as Hs.
        by rewrite <- (stripMarkers_isDirectory config e1), Hs,
             stripMarkers_isDirectory.
  - by destruct (walkDirectory_not_dir config rel (Other n) st eq_refl)
      as (s & -> & _).
Qed.

(** X12: in every mode a walk changes regular files of the marker name
    only, where that name is a file name and no entry that is neither a
    regular file nor a directory carries it: such entries are still absent
    after the walk, and the trees before and after are equal once the
    marker files are taken out. *)
Theorem walk_changes_marker_files_only (config : Config) (rel : string)
    (dir : entry) (st : State) :
  isFileName (gitkeepName config) = true ->
  plainTree [gitkeepName config] dir = true ->
  plainTree [gitkeepName config] (walkDirectory config rel dir st).1.2 = true
  /\ stripMarkers config (walkDirectory config rel dir st).1.2
     = stripMarkers config dir.
Proof.
  intros _ Hplain. split; [by apply walkDirectory_plain|].
  destruct (walkDirectory config rel dir st) as [[b dir'] st'] eqn:Hwalk.
  by apply (walkDirectory_stripMarkers config dir rel st b dir' st').
Qed.

Lemma walk_changes_marker_files_only_witness :
  let project := Directory "project" true true
                   [File "README.md" "";
                    Other "latest";
                    Directory "logs" true true [];
                    Directory "src" true true [File "a.ts" ""; File ".gitkeep" ""]] in
  plainTree [".gitkeep"]
    (walkDirectory defaultConfig "." project (initialState ∅ ∅)).1.2 = true
  /\ stripMarkers defaultConfig
       (walkDirectory defaultConfig "." project (initialState ∅ ∅)).1.2
     = stripMarkers defaultConfig project.
Proof.
  intros project.
  exact (walk_changes_marker_files_only defaultConfig "." project
           (initialState ∅ ∅) eq_refl eq_refl).
Defined.

Lemma reconcile_dryRun config w es rel isEmpty hasGitkeep st :
  dryRun config = true ->
  (reconcile config w es rel isEmpty hasGitkeep st).1 = es
  /\ summary (reconcile config w es rel isEmpty hasGitkeep st).2 = summary st.
Proof.
  intros Hdry. unfold reconcile, createGitkeep, removeGitkeep. rewrite Hdry.
  repeat match goal with
         | |- context [if ?b then _ else _] =>
             lazymatch b with
             | context [if _ then _ else _] => fail
             | _ => destruct b
             end
         end; done.
Qed.

Lemma walkDirectory_dryRun config dir :
  dryRun config = true ->
  forall rel st b dir' st',
    walkDirectory config rel dir st = (b, dir', st') ->
    dir' = dir
    /\ created (summary st') = created (summary st)
    /\ removed (summary st') = removed (summary st).
Proof.
  intros Hdry.
  induction dir as [n t|n r w cs IH|n] using entry_ind';
    intros rel st b dir' st' Hwalk.
  - walk_not_dir Hwalk. by rewrite Hc, Hr.
  - rewrite walkDirectory_dir in Hwalk.
    destruct (existsb (String.eqb n) (excludeDirs config));
      [by injection Hwalk as <- <- <-|].
    destruct (accumulate (rulesAccumulator st) rel) as [rules acc].
    destruct (isIgnored rel true rules); [by injection Hwalk as <- <- <-|].
    destruct r; simpl negb in Hwalk; cbv iota zeta in Hwalk;
      [|by injection Hwalk as <- <- <-].
    destruct (walkSubdirs (walkDirectory config) rel cs false _)
      as [[h cs1] st1] eqn:Hloop.
    eapply (walkSubdirs_state _ rel
              (fun s => created (summary s) = created (summary st)
                        /\ removed (summary s) = removed (summary st))
              (fun e e' => e' = e))
      in Hloop as ([Hc Hr] & ->%Forall2_same_entries); [| |done].
    + match type of Hwalk with
      | context [reconcile config w cs rel ?e ?g st1] =>
          destruct (reconcile_dryRun config w cs rel e g st1 Hdry)
            as [Hes Hsum];
          destruct (reconcile config w cs rel e g st1) as [cs2 st2]
      end.
      simpl in Hes, Hsum. injection Hwalk as <- <- <-.
      rewrite Hes, Hsum. done.
    + eapply Forall_impl; [exact IH|]. intros e He _ s b0 e' s' [Hc Hr] Hw.
      destruct (He _ _ _ _ _ Hw) as (-> & Hc' & Hr').
      split; [|done]. split; congruence.
  - walk_not_dir Hwalk. by rewrite Hc, Hr.
Qed.

(** X13: with the dry-run flag, whatever the mode, a walk leaves the tree
    as it is and adds nothing to the created and removed lists. *)
Theorem dry_run_changes_nothing (config : Config) (rel : string) (dir : entry)
    (st : State) :
  dryRun config = true ->
  (walkDirectory config rel dir st).1.2 = dir
  /\ created (summary (walkDirectory config rel dir st).2) = created (summary st)
  /\ removed (summary (walkDirectory config rel dir st).2) = removed (summary st).
Proof.
  intros Hdry.
  destruct (walkDirectory config rel dir st) as [[b dir'] st'] eqn:Hwalk.
  by apply (walkDirectory_dryRun config dir Hdry rel st b dir' st').
Qed.

Lemma dry_run_changes_nothing_witness :
  let config := MkConfig true false "" false false [".git"] ".gitkeep" true in
  let project := Directory "project" true true
                   [Directory "logs" true true [];
                    Directory "src" true true [File "a.ts" ""; File ".gitkeep" ""]] in
  (walkDirectory config "." project (initialState ∅ ∅)).1.2 = project
  /\ console (walkDirectory config "." project (initialState ∅ ∅)).2
     = [WouldCreate "logs/.gitkeep"; WouldRemove "src/.gitkeep"].
Proof.
  intros config project. split; [|reflexivity].
  exact (proj1 (dry_run_changes_nothing config "." project (initialState ∅ ∅)
                  eq_refl)).
Defined.

(** *** The summary only grows *)

Lemma extends_refl st : extends st st.
Proof. by repeat split. Qed.

Lemma extends_trans st1 st2 st3 :
  extends st1 st2 -> extends st2 st3 -> extends st1 st3.
Proof.
  intros (H1 & H2 & H3 & H4 & H5) (K1 & K2 & K3 & K4 & K5).
  repeat split; by etrans.
Qed.

Lemma extends_setAccumulator acc st : extends st (setAccumulator acc st).
Proof. by repeat split. Qed.

Lemma extends_push st :
  (forall p, extends st (pushCreated p st))
  /\ (forall p, extends st (pushRemoved p st))
  /\ (forall p, extends st (pushSkipped p st))
  /\ (forall f, extends st (pushError f st))
  /\ (forall n, extends st (print n st)).
Proof.
  repeat split; simpl; try done; by apply prefix_app_r.
Qed.

Lemma reconcile_extends config w es rel isEmpty hasGitkeep st :
  extends st (reconcile config w es rel isEmpty hasGitkeep st).2.
Proof.
  destruct (extends_push st) as (Hc & Hr & _ & He & Hp).
  unfold reconcile, createGitkeep, removeGitkeep.
  repeat match goal with
         | |- context [if ?b then _ else _] =>
             lazymatch b with
             | context [if _ then _ else _] => fail
             | _ => destruct b
             end
         | |- context [match ?o with Some _ => _ | None => _ end] => destruct o
         end; simpl; auto using extends_refl.
Qed.

Lemma walkDirectory_extends config dir :
  forall rel st b dir' st',
    walkDirectory config rel dir st = (b, dir', st') -> extends st st'.
Proof.
  induction dir as [n t|n r w cs IH|n] using entry_ind';
    intros rel st b dir' st' Hwalk.
  - destruct (walkDirectory_not_dir config rel (File n t) st eq_refl)
      as (s & Hw & _). revert Hw Hwalk. simpl.
    destruct (existsb _ _); [intros _ [= _ _ <-]; apply extends_refl|].
    destruct (accumulate _ _) as [rules acc].
    destruct (isIgnored _ _ _); intros _ [= _ _ <-];
      (eapply extends_trans; [apply extends_setAccumulator|apply extends_push]).
  - rewrite walkDirectory_dir in Hwalk.
    destruct (existsb (String.eqb n) (excludeDirs config));
      [injection Hwalk as <- <- <-; apply extends_refl|].
    destruct (accumulate (rulesAccumulator st) rel) as [rules acc].
    pose proof (extends_setAccumulator acc st) as Hacc.
    destruct (isIgnored rel true rules);
      [injection Hwalk as <- <- <-;
       eapply extends_trans; [exact Hacc|apply extends_push]|].
    destruct r; simpl negb in Hwalk; cbv iota zeta in Hwalk;
      [|injection Hwalk as <- <- <-;
        eapply extends_trans; [exact Hacc|apply extends_push]].
    destruct (walkSubdirs (walkDirectory config) rel cs false _)
      as [[h cs1] st1] eqn:Hloop.
    eapply (walkSubdirs_state _ rel (fun s => extends st s) (fun _ _ => True))
      in Hloop as (Hext & _); [| |done].
    + match type of Hwalk with
      | context [reconcile config w cs1 rel ?e ?g st1] =>
          pose proof (reconcile_extends config w cs1 rel e g st1) as Hrec;
          destruct (reconcile config w cs1 rel e g st1) as [cs2 st2]
      end.
      injection Hwalk as <- <- <-. by eapply extends_trans.
    + eapply Forall_impl; [exact IH|]. intros e He _ s b0 e' s' Hs Hw.
      split; [|done]. eapply extends_trans; [exact Hs|]. by eapply He.
  - destruct (walkDirectory_not_dir config rel (Other n) st eq_refl)
      as (s & Hw & _). revert Hw Hwalk. simpl.
    destruct (existsb _ _); [intros _ [= _ _ <-]; apply extends_refl|].
    destruct (accumulate _ _) as [rules acc].
    destruct (isIgnored _ _ _); intros _ [= _ _ <-];
      (eapply extends_trans; [apply extends_setAccumulator|apply extends_push]).
Qed.

(** X14: a walk never takes anything back: each list of the summary, and
    the console, after the walk starts with what it held before. *)
Theorem summary_only_grows (config : Config) (rel : string) (dir : entry)
    (st : State) :
  extends st (walkDirectory config rel dir st).2.
Proof.
  destruct (walkDirectory config rel dir st) as [[b dir'] st'] eqn:Hwalk.
  by apply (walkDirectory_extends config dir rel st b dir' st').
Qed.

(** *** Emptiness *)

Lemma visibleFiles_sameNames c1 c2 rel rules files :
  sameNames c1 c2 ->
  visibleFiles c1 rel rules files = visibleFiles c2 rel rules files.
Proof.
  intros [_ Hname]. unfold visibleFiles, isVisible, isMarker. by rewrite Hname.
Qed.

Lemma forallb_Forall_ext {A} (f g : A -> bool) l :
  Forall (fun x => f x = g x) l -> forallb f l = forallb g l.
Proof. induction 1 as [|x l Hx _ IH]; [done|]. simpl. by rewrite Hx, IH. Qed.

Lemma emptiness_sameNames c1 c2 gi gk dir :
  sameNames c1 c2 ->
  forall rel, emptiness c1 gi gk rel dir = emptiness c2 gi gk rel dir.
Proof.
  intros Hsame.
  induction dir as [n t|n r w cs IH|n] using entry_ind'; intros rel; [done| |done].
  rewrite !emptiness_dir. destruct Hsame as [Hex Hname] eqn:Hs. rewrite Hex.
  rewrite (visibleFiles_sameNames c1 c2) by done.
  rewrite (forallb_Forall_ext
             (fun e => emptiness c1 gi gk (childPath rel (entryName e)) e)
             (fun e => emptiness c2 gi gk (childPath rel (entryName e)) e));
    [done|].
  eapply Forall_impl; [exact IH|]. intros e He. apply He.
Qed.

(** X15: whether a directory is found empty depends on the tree, the rule
    tables, the excluded names and the marker name only: two walks that
    agree on these return the same answer, whatever their modes, dry-run
    flags, summaries and caches are.  The marker name is a file name and
    is carried by no entry that is neither a regular file nor a directory,
    so that every marker is written into its own directory. *)
Theorem emptiness_does_not_depend_on_mode (c1 c2 : Config) (gi gk : RulesMap)
    (rel : string) (dir : entry) (st1 st2 : State) :
  sameNames c1 c2 ->
  isFileName (gitkeepName c1) = true ->
  plainTree [gitkeepName c1] dir = true ->
  reachable gi gk (rulesAccumulator st1) ->
  reachable gi gk (rulesAccumulator st2) ->
  (walkDirectory c1 rel dir st1).1.1 = (walkDirectory c2 rel dir st2).1.1
  /\ (walkDirectory c1 rel dir st1).1.1 = emptiness c1 gi gk rel dir.
Proof.
  intros Hsame _ _ H1 H2.
  destruct (walkDirectory c1 rel dir st1) as [[b1 d1] s1] eqn:Hw1.
  destruct (walkDirectory c2 rel dir st2) as [[b2 d2] s2] eqn:Hw2.
  destruct (walkDirectory_emptiness c1 gi gk dir _ _ _ _ _ H1 Hw1) as [_ ->].
  destruct (walkDirectory_emptiness c2 gi gk dir _ _ _ _ _ H2 Hw2) as [_ ->].
  simpl. split; [|done]. by apply emptiness_sameNames.
Qed.

Lemma emptiness_does_not_depend_on_mode_witness :
  let normal := MkConfig false false "" false false [".git"] ".gitkeep" true in
  let cleaning := MkConfig true false "kept" true true [".git"] ".gitkeep" false in
  let project := Directory "project" true true
                   [Directory "logs" true true [File ".gitkeep" ""];
                    File "README.md" ""] in
  (walkDirectory normal "." project (initialState ∅ ∅)).1.1
  = (walkDirectory cleaning "." project (initialState ∅ ∅)).1.1.
Proof.
  intros normal cleaning project.
  refine (proj1 (emptiness_does_not_depend_on_mode normal cleaning ∅ ∅ "."
                   project (initialState ∅ ∅) (initialState ∅ ∅) _
                   eq_refl eq_refl (reach_new ∅ ∅) (reach_new ∅ ∅))).
  by split.
Defined.

Lemma filter_isFile_stripEntries config es :
  List.filter isFile (stripEntries config (stripMarkers config) es)
  = List.filter isFile (core config es).
Proof.
  unfold core. induction es as [|e es IH]; [done|]. simpl.
  destruct (isDirectory e || negb (isMarker config e)); [|done]. simpl.
  rewrite IH. by destruct e.
Qed.

Lemma forallb_stripEntries config (f : string -> entry -> bool) rel es :
  (forall rel e, isDirectory e = false -> f rel e = true) ->
  Forall (fun e => forall rel, f rel (stripMarkers config e) = f rel e) es ->
  forallb (fun e => f (childPath rel (entryName e)) e)
    (stripEntries config (stripMarkers config) es)
  = forallb (fun e => f (childPath rel (entryName e)) e) es.
Proof.
  intros Hleaf. induction 1 as [|e es He _ IH]; [done|]. simpl.
  destruct (isDirectory e) eqn:Hd; simpl.
  - by rewrite stripMarkers_name, He, IH.
  - rewrite (Hleaf _ e Hd). destruct (negb (isMarker config e)); simpl; [|done].
    by rewrite stripMarkers_name, He, (Hleaf _ e Hd).
Qed.

(** The emptiness of a directory does not look at its marker files. *)
Lemma emptiness_stripMarkers config gi gk dir :
  forall rel,
    emptiness config gi gk rel (stripMarkers config dir)
    = emptiness config gi gk rel dir.
Proof.
  induction dir as [n t|n r w cs IH|n] using entry_ind'; intros rel; [done| |done].
  simpl stripMarkers. rewrite !emptiness_dir.
  rewrite filter_isFile_stripEntries, core_visible.
  rewrite (forallb_stripEntries config (emptiness config gi gk)); [done| |done].
  intros rel' e He. by apply emptiness_not_dir.
Qed.

(** *** Where the markers are after a walk without failure *)

Lemma prefix_squeeze {A} (l1 l2 l3 : list A) :
  l1 `prefix_of` l2 -> l2 `prefix_of` l3 -> l3 = l1 -> l2 = l1 /\ l3 = l2.
Proof.
  intros H12 H23 ->. assert (l2 = l1) as ->; [|done].
  symmetry. apply prefix_length_eq; [done|]. by apply prefix_length.
Qed.

Lemma snoc_neq {A} (l : list A) x : l ++ [x] <> l.
Proof.
  intros H. apply (f_equal length) in H. rewrite length_app in H. simpl in H. lia.
Qed.

Lemma walkSubdirs_extends config rel es h st h' es' st' :
  walkSubdirs (walkDirectory config) rel es h st = (h', es', st') ->
  extends st st'.
Proof.
  intros Hloop.
  eapply (walkSubdirs_state _ rel (fun s => extends st s) (fun _ _ => True))
    in Hloop as [Hext _]; [done| |apply extends_refl].
  apply Forall_forall. intros e _ _ s b e' s' Hs Hw. split; [|done].
  eapply extends_trans; [exact Hs|]. by eapply walkDirectory_extends.
Qed.

Lemma walked_names_files config es es1 :
  Forall2 (fun e e1 => if isDirectory e
                       then stripMarkers config e1 = stripMarkers config e
                       else e1 = e) es es1 ->
  map entryName es1 = map entryName es
  /\ List.filter isFile es1 = List.filter isFile es.
Proof.
  induction 1 as [|e e1 es es1 He _ [IH1 IH2]]; [done|]. simpl.
  destruct (isDirectory e) eqn:Hd.
  - assert (Hn : entryName e1 = entryName e).
    { by rewrite <- (stripMarkers_name config e1), He, stripMarkers_name. }
    assert (Hd1 : isDirectory e1 = true).
    { by rewrite <- (stripMarkers_isDirectory config e1), He,
           stripMarkers_isDirectory. }
    rewrite Hn, IH1. split; [done|].
    destruct e; try done. by destruct e1.
  - subst e1. by rewrite IH1, IH2.
Qed.

Lemma walkSubdirs_settled config gi gk target names rel es :
  Forall (fun e => forall rel st b e1 st1,
            wellFormed e = true ->
            plainTree names e = true ->
            reachable gi gk (rulesAccumulator st) ->
            walkDirectory config rel e st = (b, e1, st1) ->
            errors (summary st1) = errors (summary st) ->
            markersSettled target config gi gk rel e1 = true) es ->
  forallb wellFormed es = true ->
  forallb (plainTree names) es = true ->
  forall h st h' es' st',
    reachable gi gk (rulesAccumulator st) ->
    walkSubdirs (walkDirectory config) rel es h st = (h', es', st') ->
    errors (summary st') = errors (summary st) ->
    Forall2 (fun e e1 =>
               if isDirectory e
               then stripMarkers config e1 = stripMarkers config e
                    /\ markersSettled target config gi gk
                         (childPath rel (entryName e)) e1 = true
               else e1 = e) es es'.
Proof.
  induction 1 as [|e es He _ IH];
    intros Hwf Hpl h st h' es' st' Hreach Hloop Herr.
  - simpl in Hloop. injection Hloop as <- <- <-. constructor.
  - simpl in Hwf. apply andb_true_iff in Hwf as [Hwfe Hwfs].
    simpl in Hpl. apply andb_true_iff in Hpl as [Hple Hpls].
    rewrite walkSubdirs_cons in Hloop. destruct (isDirectory e) eqn:Hd.
    + destruct (walkDirectory config _ e st) as [[b e1] st1] eqn:Hw.
      destruct (walkSubdirs _ rel es _ st1) as [[h2 es2] st2] eqn:Hl.
      injection Hloop as <- <- <-.
      pose proof (walkDirectory_extends config e _ _ _ _ _ Hw) as (_ & _ & _ & E1 & _).
      pose proof (walkSubdirs_extends _ _ _ _ _ _ _ _ Hl) as (_ & _ & _ & E2 & _).
      destruct (prefix_squeeze _ _ _ E1 E2 Herr) as [Herr1 Herr2].
      destruct (walkDirectory_emptiness config gi gk e _ _ _ _ _ Hreach Hw)
        as [Hreach1 _].
      constructor.
      * rewrite Hd. split.
        -- by apply (walkDirectory_stripMarkers config e _ _ _ _ _ Hw).
        -- by apply (He _ _ _ _ _ Hwfe Hple Hreach Hw).
      * by apply (IH Hwfs Hpls _ _ _ _ _ Hreach1 Hl).
    + destruct (walkSubdirs _ rel es h st) as [[h2 es2] st2] eqn:Hl.
      injection Hloop as <- <- <-. constructor; [by rewrite Hd|].
      by apply (IH Hwfs Hpls _ _ _ _ _ Hreach Hl).
Qed.

Lemma markersSettled_not_dir target config gi gk rel e :
  isDirectory e = false -> markersSettled target config gi gk rel e = true.
Proof. by destruct e. Qed.

Lemma markersSettled_dir target config gi gk rel n r w cs :
  markersSettled target config gi gk rel (Directory n r w cs) =
  if existsb (String.eqb n) (excludeDirs config) then true
  else if isIgnored rel true (accumulateFresh gi gk rel) then true
  else if negb r then true
  else Bool.eqb (hasMarkerFile config cs)
         (target (emptiness config gi gk rel (Directory n r w cs)))
       && forallb (fun e => markersSettled target config gi gk
                              (childPath rel (entryName e)) e) cs.
Proof. reflexivity. Qed.

(** A walk whose mode branch brings the marker of a directory where
    [target] wants it, or records a failure, leaves the markers settled
    when it records no failure. *)
Lemma walkDirectory_settles_markers config gi gk target names :
  (forall w es rel isEmpty st es' st',
     distinct (map entryName es) = true ->
     forallb (plainEntry names) es = true ->
     reconcile config w es rel isEmpty (hasMarkerFile config es) st = (es', st') ->
     errors (summary st') = errors (summary st) ->
     hasMarkerFile config es' = target isEmpty) ->
  forall dir rel st b dir1 st1,
    wellFormed dir = true ->
    plainTree names dir = true ->
    reachable gi gk (rulesAccumulator st) ->
    walkDirectory config rel dir st = (b, dir1, st1) ->
    errors (summary st1) = errors (summary st) ->
    markersSettled target config gi gk rel dir1 = true.
Proof.
  intros Hmode.
  induction dir as [n t|n r w cs IH|n] using entry_ind';
    intros rel st b dir1 st1 Hwf Hplain Hreach Hwalk Herr.
  - by walk_not_dir Hwalk.
  - pose proof (walkDirectory_emptiness config gi gk _ _ _ _ _ _ Hreach Hwalk)
      as [_ Hb].
    pose proof (walkDirectory_stripMarkers config _ _ _ _ _ _ Hwalk) as Hstrip.
    destruct (existsb (String.eqb n) (excludeDirs config)) eqn:Hex.
    { rewrite walkDirectory_dir, Hex in Hwalk. injection Hwalk as <- <- <-.
      by rewrite markersSettled_dir, Hex. }
    destruct (walkDirectory_dir_reachable config gi gk rel n r w cs st Hreach Hex)
      as (st0 & Hreach0 & Hsum0 & Heq).
    rewrite Heq in Hwalk. clear Heq. cbv zeta in Hwalk.
    destruct (isIgnored rel true (accumulateFresh gi gk rel)) eqn:Hign.
    { injection Hwalk as <- <- <-. by rewrite markersSettled_dir, Hex, Hign. }
    destruct r; simpl negb in Hwalk; cbv iota in Hwalk; cycle 1.
    { injection Hwalk as <- <- <-.
      by rewrite markersSettled_dir, Hex, Hign. }
    simpl in Hwf. apply andb_true_iff in Hwf as [Hdist Hwfs].
    rewrite plainTree_dir in Hplain.
    apply andb_true_iff in Hplain as [Hplain Hplains].
    destruct (walkSubdirs (walkDirectory config) rel cs false st0)
      as [[h cs1] st1'] eqn:Hloop.
    destruct (reconcile config w cs1 rel _ (hasMarkerFile config cs) st1')
      as [cs2 st2] eqn:Hrec.
    injection Hwalk as Hbeq <- <-.
    pose proof (walkSubdirs_extends _ _ _ _ _ _ _ _ Hloop) as (_ & _ & _ & E1 & _).
    pose proof (reconcile_extends config w cs1 rel
                  (Nat.eqb (length (visibleFiles config rel
                                      (accumulateFresh gi gk rel)
                                      (List.filter isFile cs))) 0 && negb h)
                  (hasMarkerFile config cs) st1') as Hext.
    rewrite Hrec in Hext. destruct Hext as (_ & _ & _ & E2 & _). simpl in E2.
    rewrite <- Hsum0 in Herr.
    destruct (prefix_squeeze _ _ _ E1 E2 Herr) as [Herr1 Herr2].
    apply (walkSubdirs_settled config gi gk target names) in Hloop as Hrel;
      [|exact IH|done|done|done|done].
    assert (Hplain1 : forallb (plainEntry names) cs1 = true).
    { rewrite <- Hplain.
      apply (walked_plain names
               (fun e e1 => stripMarkers config e1 = stripMarkers config e
                            /\ markersSettled target config gi gk
                                 (childPath rel (entryName e)) e1 = true)).
      eapply Forall2_impl; [exact Hrel|]. intros e e1. cbv beta.
      destruct (isDirectory e) eqn:Hde; [|done]. intros [Hs Hm].
      split; [done|].
      by rewrite <- (stripMarkers_isDirectory config e1), Hs,
           stripMarkers_isDirectory. }
    destruct (walked_names_files config cs cs1) as [Hnames Hfiles].
    { eapply Forall2_impl; [exact Hrel|]. intros e e1. cbv beta.
      destruct (isDirectory e); [by intros [? _]|done]. }
    replace (hasMarkerFile config cs) with (hasMarkerFile config cs1) in Hrec
      by (unfold hasMarkerFile; by rewrite Hfiles).
    pose proof (reconcile_core config w cs1 rel
                  (Nat.eqb (length (visibleFiles config rel
                                      (accumulateFresh gi gk rel)
                                      (List.filter isFile cs))) 0 && negb h)
                  (hasMarkerFile config cs1) st1') as Hcore.
    rewrite Hrec in Hcore. simpl in Hcore.
    apply Hmode in Hrec; [|by rewrite Hnames|done|done].
    rewrite markersSettled_dir, Hex, Hign. simpl negb. cbv iota.
    apply andb_true_iff. split.
    + rewrite Hrec, <- (emptiness_stripMarkers config gi gk (Directory n true w cs2)),
        Hstrip, emptiness_stripMarkers, <- Hb, Hbeq.
      by destruct (target b).
    + rewrite <- (core_forallb config _ cs2), Hcore, core_forallb;
        [|intros e He; by apply markersSettled_not_dir
         |intros e He; by apply markersSettled_not_dir].
      clear -Hrel. induction Hrel as [|e e1 es es1 He _ IH]; [done|].
      simpl. rewrite IH, andb_true_r. destruct (isDirectory e) eqn:Hd.
      * destruct He as [Hs Hm].
        assert (entryName e1 = entryName e) as ->; [|done].
        by rewrite <- (stripMarkers_name config e1), Hs, stripMarkers_name.
      * subst e1. by apply markersSettled_not_dir.
  - by walk_not_dir Hwalk.
Qed.

Lemma reconcile_normal_target config w es rel isEmpty st es' st' :
  normalMode config = true ->
  distinct (map entryName es) = true ->
  forallb (plainEntry [gitkeepName config]) es = true ->
  reconcile config w es rel isEmpty (hasMarkerFile config es) st = (es', st') ->
  errors (summary st') = errors (summary st) ->
  hasMarkerFile config es' = isEmpty.
Proof.
  unfold normalMode.
  intros [[Hclean Hcheck]%andb_true_iff Hdry]%andb_true_iff Hd Hplain.
  apply negb_true_iff in Hclean, Hcheck, Hdry.
  unfold reconcile, createGitkeep, removeGitkeep, writeFile, unlink.
  rewrite Hclean, Hcheck, Hdry.
  destruct isEmpty, (hasMarkerFile config es) eqn:Hm; simpl;
    try (by intros [= <- <-]).
  - destruct w; [|intros [= <- <-] Herr; simpl in Herr; by apply snoc_neq in Herr].
    destruct (overwrite _ _ es) as [es2|] eqn:Ho.
    + intros [= <- <-] _. by destruct (core_overwrite _ _ _ Hplain Ho).
    + intros [= <- <-] Herr. simpl in Herr. by apply snoc_neq in Herr.
  - destruct w; [|intros [= <- <-] Herr; simpl in Herr; by apply snoc_neq in Herr].
    destruct (removeEntry _ es) as [es2|] eqn:Ho.
    + intros [= <- <-] _. by destruct (core_removeEntry _ _ _ Hd Ho).
    + intros [= <- <-] Herr. simpl in Herr. by apply snoc_neq in Herr.
Qed.

Lemma plainTree_nil (e : entry) : plainTree [] e = true.
Proof.
  induction e as [m t|m r w cs IH|m] using entry_ind'; [done| |done].
  rewrite plainTree_dir. apply andb_true_iff. split.
  - clear IH. induction cs as [|c cs IHcs]; [done|]. simpl. rewrite IHcs.
    by destruct c.
  - apply forallb_forall. intros c Hin. rewrite Forall_forall in IH.
    apply (IH c (proj2 (list_elem_of_In _ _) Hin)).
Qed.

Lemma reconcile_clean_target config w es rel isEmpty st es' st' :
  clean config = true -> dryRun config = false ->
  distinct (map entryName es) = true ->
  reconcile config w es rel isEmpty (hasMarkerFile config es) st = (es', st') ->
  errors (summary st') = errors (summary st) ->
  hasMarkerFile config es' = false.
Proof.
  intros Hclean Hdry Hd. rewrite reconcile_clean by done.
  unfold removeGitkeep, unlink. rewrite Hdry.
  destruct (hasMarkerFile config es) eqn:Hm; [|by intros [= <- <-]].
  destruct w; [|intros [= <- <-] Herr; simpl in Herr; by apply snoc_neq in Herr].
  destruct (removeEntry _ es) as [es2|] eqn:Ho.
  - intros [= <- <-] _. by destruct (core_removeEntry _ _ _ Hd Ho).
  - intros [= <- <-] Herr. simpl in Herr. by apply snoc_neq in Herr.
Qed.

(** X16: after a normal-mode walk that records no failure, every
    directory that the walk evaluates, at every depth, holds a marker file
    exactly when it is empty.  The marker name is a file name and is
    carried by no entry that is neither a regular file nor a directory. *)
Theorem normal_mode_settles_markers (config : Config) (gi gk : RulesMap)
    (rel : string) (dir : entry) (st : State) :
  normalMode config = true ->
  isFileName (gitkeepName config) = true ->
  wellFormed dir = true ->
  plainTree [gitkeepName config] dir = true ->
  reachable gi gk (rulesAccumulator st) ->
  errors (summary (walkDirectory config rel dir st).2) = errors (summary st) ->
  markersSettled (fun isEmpty => isEmpty) config gi gk rel
    (walkDirectory config rel dir st).1.2 = true.
Proof.
  intros Hnormal _ Hwf Hplain Hreach Herr.
  destruct (walkDirectory config rel dir st) as [[b dir1] st1] eqn:Hwalk.
  apply (walkDirectory_settles_markers config gi gk (fun isEmpty => isEmpty)
           [gitkeepName config])
    with (dir := dir) (st := st) (b := b) (st1 := st1); try done.
  intros w es rel' isEmpty s es' s'. by apply reconcile_normal_target.
Qed.

Lemma normal_mode_settles_markers_witness :
  let project := Directory "project" true true
                   [File "README.md" "";
                    Directory "logs" true true [];
                    Directory "src" true true [File "a.ts" ""; File ".gitkeep" ""]] in
  markersSettled (fun isEmpty => isEmpty) defaultConfig ∅ ∅ "."
    (walkDirectory defaultConfig "." project (initialState ∅ ∅)).1.2 = true.
Proof.
  intros project.
  exact (normal_mode_settles_markers defaultConfig ∅ ∅ "." project
           (initialState ∅ ∅) eq_refl eq_refl eq_refl eq_refl (reach_new ∅ ∅)
           eq_refl).
Defined.

(** X17: after a clean-mode walk that is no dry run and records no
    failure, no directory that the walk evaluates holds a marker file. *)
Theorem clean_mode_removes_every_marker (config : Config) (gi gk : RulesMap)
    (rel : string) (dir : entry) (st : State) :
  clean config = true -> dryRun config = false ->
  wellFormed dir = true ->
  reachable gi gk (rulesAccumulator st) ->
  errors (summary (walkDirectory config rel dir st).2) = errors (summary st) ->
  markersSettled (fun _ => false) config gi gk rel
    (walkDirectory config rel dir st).1.2 = true.
Proof.
  intros Hclean Hdry Hwf Hreach Herr.
  destruct (walkDirectory config rel dir st) as [[b dir1] st1] eqn:Hwalk.
  apply (walkDirectory_settles_markers config gi gk (fun _ => false) [])
    with (dir := dir) (st := st) (b := b) (st1 := st1); try done.
  - intros w es rel' isEmpty s es' s' Hd _. by apply reconcile_clean_target.
  - apply plainTree_nil.
Qed.

Lemma clean_mode_removes_every_marker_witness :
  let config := MkConfig false false "" true false [".git"] ".gitkeep" true in
  let project := Directory "project" true true
                   [File ".gitkeep" "";
                    Directory "logs" true true [File ".gitkeep" ""];
                    Directory "src" true true [File "a.ts" ""; File ".gitkeep" ""]] in
  markersSettled (fun _ => false) config ∅ ∅ "."
    (walkDirectory config "." project (initialState ∅ ∅)).1.2 = true.
Proof.
  intros config project.
  exact (clean_mode_removes_every_marker config ∅ ∅ "." project
           (initialState ∅ ∅) eq_refl eq_refl eq_refl (reach_new ∅ ∅) eq_refl).
Defined.

(** *** Walks that record no failure *)

Lemma walked_same_kind config es es1 :
  Forall2 (walked config) es es1 ->
  Forall2 (fun e e1 => entryName e1 = entryName e /\ isFile e1 = isFile e) es es1.
Proof.
  intros H. eapply Forall2_impl; [exact H|]. intros e e1. unfold walked.
  destruct (isDirectory e) eqn:Hd; [|by intros ->]. intros Hs. split.
  - by rewrite <- (stripMarkers_name config e1), Hs, stripMarkers_name.
  - destruct e; try done. by destruct e1.
Qed.

Lemma walkDirectory_no_failure config (ok : entry -> bool) :
  (forall n r w cs, ok (Directory n r w cs) = true ->
     r = true
     /\ forallb ok cs = true
     /\ forall cs1 rel isEmpty st,
          Forall2 (walked config) cs cs1 ->
          errors (summary (reconcile config w cs1 rel isEmpty
                             (hasMarkerFile config cs) st).2)
          = errors (summary st)) ->
  forall dir, isDirectory dir = true -> ok dir = true ->
    forall rel st,
      errors (summary (walkDirectory config rel dir st).2) = errors (summary st).
Proof.
  intros Hok.
  induction dir as [n t|n r w cs IH|n] using entry_ind'; intros Hd Hdir rel st;
    [done| |done].
  destruct (Hok _ _ _ _ Hdir) as (-> & Hcs & Hrec).
  rewrite walkDirectory_dir.
  destruct (existsb (String.eqb n) (excludeDirs config)); [done|].
  destruct (accumulate (rulesAccumulator st) rel) as [rules acc].
  cbv zeta. destruct (isIgnored rel true rules); [done|]. simpl negb. cbv iota.
  destruct (walkSubdirs (walkDirectory config) rel cs false (setAccumulator acc st))
    as [[h cs1] st1] eqn:Hloop.
  apply (walkSubdirs_state _ rel
           (fun s => errors (summary s) = errors (summary st))
           (fun e e1 => stripMarkers config e1 = stripMarkers config e))
    in Hloop as [Herr Hrel]; [|clear Hloop|done].
  - specialize (Hrec cs1 rel
                  (Nat.eqb (length (visibleFiles config rel rules
                                      (List.filter isFile cs))) 0 && negb h)
                  st1 Hrel).
    unfold hasMarkerFile in Hrec.
    destruct (reconcile _ _ _ _ _ _ _) as [cs2 st2]. simpl in *. congruence.
  - apply Forall_forall. intros e Hin Hde s b e1 s1 Hs Hw.
    rewrite Forall_forall in IH. pose proof (IH e Hin) as He.
    apply list_elem_of_In in Hin.
    pose proof (proj1 (forallb_forall ok cs) Hcs e Hin) as Hoke. split.
    + specialize (He Hde Hoke (childPath rel (entryName e)) s).
      rewrite Hw in He. simpl in He. congruence.
    + by apply (walkDirectory_stripMarkers config e _ _ _ _ _ Hw).
Qed.

Lemma reconcile_read_only config w es rel isEmpty hasGitkeep st :
  dryRun config = true \/ (clean config = false /\ check config = true) ->
  errors (summary (reconcile config w es rel isEmpty hasGitkeep st).2)
  = errors (summary st).
Proof.
  intros [Hdry|[Hclean Hcheck]].
  - unfold reconcile, createGitkeep, removeGitkeep. rewrite Hdry.
    destruct (clean config), (check config), isEmpty, hasGitkeep; done.
  - by destruct (reconcile_check config w es rel isEmpty hasGitkeep st Hcheck Hclean)
      as [_ ->].
Qed.

Lemma allReadable_dir n r w cs :
  allReadable (Directory n r w cs) = r && forallb allReadable cs.
Proof. reflexivity. Qed.

(** X18: in check mode and in a dry run the only failures are directories
    that cannot be listed: on a root directory whose directories are all
    readable the walk records no failure, and [main] ends with status 0. *)
Theorem read_only_modes_record_no_failure (config : Config) (rel : string)
    (dir : entry) (st : State) :
  dryRun config = true \/ (clean config = false /\ check config = true) ->
  isDirectory dir = true ->
  allReadable dir = true ->
  errors (summary (walkDirectory config rel dir st).2) = errors (summary st)
  /\ exitCode (summary (run config dir).2) = 0.
Proof.
  intros Hmode Hdir Hread.
  assert (H : forall rel st,
             errors (summary (walkDirectory config rel dir st).2)
             = errors (summary st)).
  { apply (walkDirectory_no_failure config allReadable); [|done|done].
    intros n r w cs Hok. rewrite allReadable_dir in Hok.
    apply andb_true_iff in Hok as [-> Hcs]. split; [done|]. split; [done|].
    intros cs1 rel' isEmpty st' _. by apply reconcile_read_only. }
  split; [apply H|]. unfold run, exitCode. by rewrite H.
Qed.

Lemma read_only_modes_record_no_failure_witness :
  let config := MkConfig false false "" false true [".git"] ".gitkeep" true in
  let project := Directory "project" true false
                   [File ".gitignore" "*.log";
                    Directory "logs" true false [File "a.log" ""];
                    Directory "src" true false [File "a.ts" ""; File ".gitkeep" ""]] in
  errors (summary (walkDirectory config "." project (initialState ∅ ∅)).2) = []
  /\ exitCode (summary (run config project).2) = 0.
Proof.
  intros config project.
  exact (read_only_modes_record_no_failure config "." project (initialState ∅ ∅)
           (or_intror (conj eq_refl eq_refl)) eq_refl eq_refl).
Defined.

Lemma overwrite_succeeds name text es :
  forallb (fun c => isFile c || negb (String.eqb (entryName c) name)) es = true ->
  is_Some (overwrite name text es).
Proof.
  induction es as [|e es IH]; simpl; [by eexists|].
  intros [He Hes]%andb_true_iff.
  destruct (String.eqb (entryName e) name).
  - destruct e; try done; by eexists.
  - destruct (IH Hes) as [es' ->]. by eexists.
Qed.

Lemma removeEntry_succeeds name es :
  forallb (fun c => isFile c || negb (String.eqb (entryName c) name)) es = true ->
  existsb (fun c => String.eqb (entryName c) name) es = true ->
  is_Some (removeEntry name es).
Proof.
  induction es as [|e es IH]; simpl; [done|].
  intros [He Hes]%andb_true_iff Hex.
  destruct (String.eqb (entryName e) name).
  - rewrite orb_false_r in He. destruct e; try done; by eexists.
  - simpl in Hex. destruct (IH Hes Hex) as [es' ->]. by eexists.
Qed.

Lemma existsb_filter {A} (f p : A -> bool) (l : list A) :
  existsb f (List.filter p l) = true -> existsb f l = true.
Proof.
  induction l as [|x l IH]; simpl; [done|].
  destruct (p x); simpl; [|intros H; rewrite (IH H); apply orb_true_r].
  intros [->|H]%orb_true_iff; [done|]. rewrite (IH H). apply orb_true_r.
Qed.

Lemma walked_markers_are_files config cs cs1 :
  Forall2 (walked config) cs cs1 ->
  forallb (fun c => isFile c || negb (isMarker config c)) cs = true ->
  forallb (fun c => isFile c || negb (isMarker config c)) cs1 = true.
Proof.
  intros H%walked_same_kind.
  induction H as [|e e1 es es1 [Hn Hf] _ IH]; [done|]. simpl.
  intros [He Hes]%andb_true_iff. unfold isMarker in *.
  by rewrite Hn, Hf, He, IH.
Qed.

Lemma reconcile_permissive config cs cs1 rel isEmpty st :
  Forall2 (walked config) cs cs1 ->
  forallb (fun c => isFile c || negb (isMarker config c)) cs = true ->
  errors (summary (reconcile config true cs1 rel isEmpty
                     (hasMarkerFile config cs) st).2)
  = errors (summary st).
Proof.
  intros Hrel Hcs.
  pose proof (walked_markers_are_files _ _ _ Hrel Hcs) as Hcs1.
  assert (Hfiles : hasMarkerFile config cs1 = hasMarkerFile config cs).
  { unfold hasMarkerFile.
    destruct (walked_names_files config cs cs1 Hrel) as [_ ->]. done. }
  assert (Hc : forall s, errors (summary (createGitkeep config true cs1 rel s).2)
                         = errors (summary s)).
  { intros s. unfold createGitkeep, writeFile. destruct (dryRun config); [done|].
    by destruct (overwrite_succeeds (gitkeepName config) (content config) cs1 Hcs1)
      as [es' ->]. }
  assert (Hr : hasMarkerFile config cs = true ->
               forall s, errors (summary (removeGitkeep config true cs1 rel s).2)
                         = errors (summary s)).
  { intros Hm s. unfold removeGitkeep, unlink. destruct (dryRun config); [done|].
    rewrite <- Hfiles in Hm. apply existsb_filter in Hm.
    by destruct (removeEntry_succeeds (gitkeepName config) cs1 Hcs1 Hm)
      as [es' ->]. }
  unfold reconcile.
  destruct (hasMarkerFile config cs) eqn:Hm;
    destruct (clean config), (check config), isEmpty; simpl; auto.
Qed.

Lemma permissive_dir config n r w cs :
  permissive config (Directory n r w cs) =
  r && w && forallb (fun c => isFile c || negb (isMarker config c)) cs
  && forallb (permissive config) cs.
Proof. reflexivity. Qed.

(** X19: whatever the mode, the walk of a root directory records no
    failure when the marker name is a file name, every directory can be
    listed and written to and the marker name is held by regular files
    only. *)
Theorem permissive_tree_records_no_failure (config : Config) (rel : string)
    (dir : entry) (st : State) :
  isFileName (gitkeepName config) = true ->
  isDirectory dir = true ->
  permissive config dir = true ->
  errors (summary (walkDirectory config rel dir st).2) = errors (summary st).
Proof.
  intros _ Hdir Hperm.
  apply (walkDirectory_no_failure config (permissive config)); [|done|done].
  intros n r w cs Hok. rewrite permissive_dir in Hok.
  apply andb_true_iff in Hok as [[[-> ->]%andb_true_iff Hm]%andb_true_iff Hcs].
  split; [done|]. split; [done|].
  intros cs1 rel' isEmpty st' Hrel. by apply reconcile_permissive.
Qed.

Lemma permissive_tree_records_no_failure_witness :
  let project := Directory "project" true true
                   [File ".gitignore" "*.log";
                    Directory "logs" true true [File "a.log" ""];
                    Directory "src" true true [File "a.ts" ""; File ".gitkeep" ""]] in
  errors (summary (walkDirectory defaultConfig "." project (initialState ∅ ∅)).2) = [].
Proof.
  intros project.
  exact (permissive_tree_records_no_failure defaultConfig "." project
           (initialState ∅ ∅) eq_refl eq_refl eq_refl).
Defined.

(** *** A marker that is created and then removed *)

Lemma overwrite_fresh name text es :
  existsb (fun e => String.eqb (entryName e) name) es = false ->
  overwrite name text es = Some (es ++ [File name text]).
Proof.
  induction es as [|e es IH]; simpl; [done|].
  intros [-> Hes]%orb_false_iff. by rewrite (IH Hes).
Qed.

Lemma removeEntry_last name text es :
  existsb (fun e => String.eqb (entryName e) name) es = false ->
  removeEntry name (es ++ [File name text]) = Some es.
Proof.
  induction es as [|e es IH]; simpl.
  - by rewrite String.eqb_refl.
  - intros [-> Hes]%orb_false_iff. by rewrite (IH Hes).
Qed.

(** X20: in a writable directory where nothing carries the marker name,
    which is a file name, [createGitkeep] followed by [removeGitkeep] gives
    back the listing; the summary has the marker path once as created and
    once as removed, and no failure is recorded. *)
Theorem create_then_remove_restores (config : Config) (es : list entry)
    (rel : string) (st : State) :
  isFileName (gitkeepName config) = true ->
  dryRun config = false ->
  existsb (isMarker config) es = false ->
  let made := createGitkeep config true es rel st in
  let undone := removeGitkeep config true made.1 rel made.2 in
  hasMarkerFile config made.1 = true
  /\ undone.1 = es
  /\ created (summary undone.2)
     = created (summary st) ++ [childPath rel (gitkeepName config)]
  /\ removed (summary undone.2)
     = removed (summary st) ++ [childPath rel (gitkeepName config)]
  /\ errors (summary undone.2) = errors (summary st).
Proof.
  intros _ Hdry Hfresh made undone. subst undone made.
  unfold createGitkeep, removeGitkeep, writeFile, unlink. rewrite Hdry.
  unfold isMarker in Hfresh.
  pose proof (overwrite_fresh (gitkeepName config) (content config) es Hfresh) as Ho.
  rewrite Ho. simpl.
  rewrite (removeEntry_last _ _ _ Hfresh). simpl. split; [|done].
  unfold hasMarkerFile. rewrite List.filter_app, existsb_app.
  cbn [List.filter isFile existsb]. rewrite isMarker_marker.
  by rewrite orb_true_r.
Qed.

Lemma create_then_remove_restores_witness :
  let es := [File "a.ts" "x"; Directory "lib" true true []] in
  let made := createGitkeep defaultConfig true es "src" (initialState ∅ ∅) in
  let undone := removeGitkeep defaultConfig true made.1 "src" made.2 in
  hasMarkerFile defaultConfig made.1 = true
  /\ undone.1 = es
  /\ created (summary undone.2) = [] ++ [childPath "src" ".gitkeep"]
  /\ removed (summary undone.2) = [] ++ [childPath "src" ".gitkeep"]
  /\ errors (summary undone.2) = [].
Proof.
  intros es.
  exact (create_then_remove_restores defaultConfig es "src" (initialState ∅ ∅)
           eq_refl eq_refl eq_refl).
Defined.

(** *** Command line *)

Lemma parseLoop_cons a rest res out :
  parseLoop (a :: rest) res out =
  if String.eqb a "--root" then
    takeValue rest (fun v rest' => parseLoop rest' (setRoot v res) out)
      (out ++ [MissingValue "--root"], Exited 1)
  else if String.eqb a "--dry-run" || String.eqb a "-d" then
    parseLoop rest (setDryRun true res) out
  else if String.eqb a "--verbose" || String.eqb a "-v" then
    parseLoop rest (setVerbose true res) out
  else if String.eqb a "--report" || String.eqb a "-r" then
    takeValue rest (fun v rest' => parseLoop rest' (setReportFile v res) out)
      (out ++ [MissingValue "--report"], Exited 1)
  else if String.eqb a "--content" || String.eqb a "-c" then
    takeValue rest (fun v rest' => parseLoop rest' (setContent v res) out)
      (out ++ [MissingValue "--content"], Exited 1)
  else if String.eqb a "--clean" then
    parseLoop rest (setClean true res) out
  else if String.eqb a "--check" then
    parseLoop rest (setCheck true res) out
  else if String.eqb a "--exclude" || String.eqb a "-e" then
    takeValue rest
      (fun v rest' =>
         parseLoop rest' (setExcludeDirs (map Js.trim (Js.split "," v)) res) out)
      (out ++ [MissingValue "--exclude"], Exited 1)
  else if String.eqb a "--gitkeep-name" then
    takeValue rest (fun v rest' => parseLoop rest' (setGitkeepName v res) out)
      (out ++ [MissingValue "--gitkeep-name"], Exited 1)
  else if String.eqb a "--no-gitkeepignore" then
    parseLoop rest (setRespectGitkeepIgnore false res) out
  else if String.eqb a "--help" || String.eqb a "-h" then
    (out ++ [HelpText], Exited 0)
  else if String.eqb a "--version" then
    (out ++ [VersionText], Exited 0)
  else
    parseLoop rest res (out ++ [UnknownArgument a]).
Proof. reflexivity. Qed.

(** The cases of the [switch] in a hypothesis [H] about one turn of the
    loop; the options that take a value are left with their [takeValue]. *)
Ltac switch_cases H :=
  rewrite parseLoop_cons in H;
  repeat match type of H with
         | context [if ?c then _ else _] =>
             lazymatch c with
             | context [if _ then _ else _] => fail
             | _ => destruct c
             end
         end.

Lemma parseLoop_app_le (n : nat) :
  forall a b res out out' r,
    length a <= n ->
    parseLoop a res out = (out', r) ->
    r <> Exited 1 ->
    parseLoop (a ++ b) res out =
    match r with
    | Returned res' => parseLoop b res' out'
    | Exited _ => (out', r)
    end.
Proof.
  induction n as [|n IH]; intros a b res out out' r Hlen H Hr.
  - destruct a; [|simpl in Hlen; lia]. simpl in H. by injection H as <- <-.
  - destruct a as [|x a]; [simpl in H; by injection H as <- <-|].
    simpl in Hlen. rewrite <- app_comm_cons, parseLoop_cons.
    switch_cases H;
      try (apply IH; [lia|done|done]);
      try (injection H as <- <-; done);
      unfold takeValue in *;
      (destruct a as [|v a]; [by injection H as <- <-|]);
      rewrite <- app_comm_cons; simpl in Hlen;
      (destruct (truthy v); [|by injection H as <- <-]);
      (apply IH; [lia|done|done]).
Qed.

Lemma flagsAsSet_kept_le (n : nat) :
  forall a res out out' res',
    length a <= n ->
    parseLoop a res out = (out', Returned res') ->
    flagsAsSet res = true -> flagsAsSet res' = true.
Proof.
  induction n as [|n IH]; intros a res out out' res' Hlen H Hres.
  - destruct a; [|simpl in Hlen; lia]. simpl in H. by injection H as <- <-.
  - destruct a as [|x a]; [simpl in H; by injection H as <- <-|].
    simpl in Hlen.
    assert (Hset : forall res1,
               flagsAsSet res1 = true ->
               forall a1 o1, length a1 <= n ->
                 parseLoop a1 res1 o1 = (out', Returned res') ->
                 flagsAsSet res' = true).
    { intros res1 H1 a1 o1 Hl1 Hp. by apply (IH a1 res1 o1 out' res'). }
    assert (Hflags : forall f : PartialConfig -> PartialConfig,
               (forall r, flagsAsSet r = true -> flagsAsSet (f r) = true) ->
               flagsAsSet (f res) = true) by (intros f Hf; by apply Hf).
    switch_cases H;
      try discriminate H;
      try (refine (Hset _ _ _ _ _ H); [|lia]; apply Hflags; clear;
           intros [? [[]|] [[]|] ? ? [[]|] [[]|] ? ? [[]|]]; done);
      try (by apply (Hset res Hres a _ ltac:(lia) H));
      unfold takeValue in *;
      (destruct a as [|v a]; [discriminate H|]); simpl in Hlen;
      (destruct (truthy v); [|discriminate H]);
      (refine (Hset _ _ _ _ _ H); [|lia]; apply Hflags; clear;
       intros [? [[]|] [[]|] ? ? [[]|] [[]|] ? ? [[]|]]; done).
Qed.

(** X21: [parseArgs] reads its arguments from left to right.  When it
    returns on a list of arguments, it goes on from that result on any
    arguments added behind; when it ends the program with status 0, added
    arguments change nothing.  Only an end with status 1, where an option
    lacks its value, can be changed by what follows. *)
Theorem parseArgs_app (a b : list string) (out : list cliOutput) (r : cliResult) :
  parseArgs a = (out, r) ->
  r <> Exited 1 ->
  parseArgs (a ++ b) =
  match r with
  | Returned res => parseLoop b res out
  | Exited _ => (out, r)
  end.
Proof.
  intros H Hr. unfold parseArgs in *.
  by apply (parseLoop_app_le (length a) a b noOptions [] out r).
Qed.

Lemma parseArgs_app_witness :
  parseArgs (["--clean"; "-c"; "keep"; "extra"] ++ ["--root"])
  = parseLoop ["--root"] (setContent "keep" (setClean true noOptions))
      [UnknownArgument "extra"].
Proof.
  apply (parseArgs_app ["--clean"; "-c"; "keep"; "extra"] ["--root"]
           [UnknownArgument "extra"]
           (Returned (setContent "keep" (setClean true noOptions)))).
  - reflexivity.
  - discriminate.
Defined.

(** X22: the command line can switch the flags one way only.  A mode
    ([dryRun], [verbose], [clean], [check]) that the defaults and the
    configuration file turn on stays on after the merge with any parsed
    command line, and [respectGitkeepIgnore] stays off when they turn it
    off. *)
Theorem command_line_switches_one_way (argvList : list string)
    (out : list cliOutput) (cli : PartialConfig) (base : Config)
    (file : PartialConfig) :
  parseArgs argvList = (out, Returned cli) ->
  let before := mergeConfig base file noOptions in
  let merged := mergeConfig base file cli in
  (dryRun before = true -> dryRun merged = true)
  /\ (verbose before = true -> verbose merged = true)
  /\ (clean before = true -> clean merged = true)
  /\ (check before = true -> check merged = true)
  /\ (respectGitkeepIgnore before = false -> respectGitkeepIgnore merged = false).
Proof.
  intros H before merged. subst before merged.
  pose proof (flagsAsSet_kept_le (length argvList) argvList noOptions [] out cli
                (Nat.le_refl _) H eq_refl) as Hflags.
  destruct cli as [? [[]|] [[]|] ? ? [[]|] [[]|] ? ? [[]|]];
    try discriminate Hflags; unfold mergeConfig, spread; simpl; auto.
Qed.

Lemma command_line_switches_one_way_witness :
  let file := setDryRun true noOptions in
  let cli := setExcludeDirs ["tmp"; "cache"] (setCheck true noOptions) in
  let before := mergeConfig defaultConfig file noOptions in
  let merged := mergeConfig defaultConfig file cli in
  (dryRun before = true -> dryRun merged = true)
  /\ (verbose before = true -> verbose merged = true)
  /\ (clean before = true -> clean merged = true)
  /\ (check before = true -> check merged = true)
  /\ (respectGitkeepIgnore before = false -> respectGitkeepIgnore merged = false).
Proof.
  intros file cli.
  exact (command_line_switches_one_way ["--check"; "-e"; "tmp, cache"] [] cli
           defaultConfig file eq_refl).
Defined.

(** *** Paths *)

Lemma split_cons sep p : exists x l, Js.split sep p = x :: l.
Proof.
  destruct p as [|c p]; simpl; [by eexists _, _|].
  destruct (Js.chr_eqb c sep); [by eexists _, _|].
  destruct (Js.split sep p); by eexists _, _.
Qed.

Lemma join_cons sep x y l :
  Js.join sep (x :: y :: l) = x +:+ sep +:+ Js.join sep (y :: l).
Proof. reflexivity. Qed.

Lemma join_String sep c x l :
  Js.join sep (String c x :: l) = String c (Js.join sep (x :: l)).
Proof. destruct l; [done|]. by rewrite !join_cons, append_String. Qed.

Lemma toPosixPath_replaceSep sep p : toPosixPath sep p = replaceSep sep p.
Proof.
  unfold toPosixPath. induction p as [|c p IH]; [done|].
  cbn [Js.split replaceSep]. destruct (split_cons sep p) as (x & l & Hs).
  rewrite Hs in *. destruct (Js.chr_eqb c sep).
  - by rewrite join_cons, append_empty, append_String, append_empty, IH.
  - by rewrite join_String, IH.
Qed.

Lemma replaceSep_slash p : replaceSep "/" p = p.
Proof.
  induction p as [|c p IH]; [done|]. cbn [replaceSep]. rewrite IH.
  destruct (Js.chr_eqb c "/") eqn:Hc; [|done]. by apply chr_eqb_eq in Hc as ->.
Qed.

(** X23: [toPosixPath] replaces every separator by a slash and keeps the
    other characters and the length; where the separator is the slash it
    gives the path back. *)
Theorem toPosixPath_replaces_separators (sep : ascii) (p : string) :
  toPosixPath sep p = replaceSep sep p
  /\ String.length (toPosixPath sep p) = String.length p
  /\ toPosixPath "/" p = p.
Proof.
  split; [apply toPosixPath_replaceSep|]. split.
  - rewrite toPosixPath_replaceSep. induction p as [|c p IH]; [done|].
    simpl. by rewrite IH.
  - by rewrite toPosixPath_replaceSep, replaceSep_slash.
Qed.

(** ** Clean mode with the check flag *)

Lemma removeEntry_marker_file config es :
  distinct (map entryName es) = true ->
  hasMarkerFile config es = true ->
  is_Some (removeEntry (gitkeepName config) es).
Proof.
  unfold hasMarkerFile. induction es as [|e es IH]; [done|].
  intros Hd Hm. simpl removeEntry. fold (isMarker config e).
  destruct (isMarker config e) eqn:He.
  - destruct (isDirectory e) eqn:Hdir; [|by eexists]. exfalso.
    apply distinct_no_more in Hd. unfold isMarker in He.
    apply String.eqb_eq in He. rewrite He in Hd.
    assert (isFile e = false) as Hf by by destruct e.
    cbn [List.filter] in Hm. rewrite Hf in Hm. clear -Hd Hm.
    induction es as [|x es IH]; [done|]. simpl in Hd.
    apply orb_false_iff in Hd as [Hx Hd]. cbn [List.filter] in Hm.
    destruct (isFile x); [|by apply IH]. cbn [existsb] in Hm.
    unfold isMarker at 1 in Hm. rewrite String.eqb_sym, Hx in Hm.
    by apply IH.
  - simpl in Hd. apply andb_true_iff in Hd as [_ Hd].
    cbn [List.filter] in Hm.
    assert (Hm' : existsb (isMarker config) (List.filter isFile es) = true).
    { destruct (isFile e); [|done]. cbn [existsb] in Hm. by rewrite He in Hm. }
    destruct (IH Hd Hm') as [es' ->]. by eexists.
Qed.

(** The loop over the subdirectories adds to an observed list what the
    walks of the subdirectories add, in the order of the listing. *)
Lemma walkSubdirs_trace {A : Type} (obs : State -> list A)
    (paths : string -> entry -> list A) config gi gk rel es :
  (forall rel e, isDirectory e = false -> paths rel e = []) ->
  Forall (fun e => forall rel st,
            reachable gi gk (rulesAccumulator st) ->
            wellFormed e = true ->
            obs (walkDirectory config rel e st).2 = obs st ++ paths rel e) es ->
  forallb wellFormed es = true ->
  forall h st,
    reachable gi gk (rulesAccumulator st) ->
    obs (walkSubdirs (walkDirectory config) rel es h st).2
    = obs st ++ flat_map (fun e => paths (childPath rel (entryName e)) e) es.
Proof.
  intros Hleaf. induction 1 as [|e es He _ IH]; intros Hwf h st Hreach.
  - simpl. by rewrite app_nil_r.
  - simpl in Hwf. apply andb_true_iff in Hwf as [Hwfe Hwfs].
    rewrite walkSubdirs_cons. cbn [flat_map]. destruct (isDirectory e) eqn:Hd.
    + pose proof (He (childPath rel (entryName e)) st Hreach Hwfe) as Hobs.
      destruct (walkDirectory config _ e st) as [[b e1] st1] eqn:Hw.
      destruct (walkDirectory_emptiness config gi gk e _ _ _ _ _ Hreach Hw)
        as [Hreach1 _].
      pose proof (IH Hwfs (if b then h else true) st1 Hreach1) as Hrest.
      destruct (walkSubdirs _ rel es _ st1) as [[h2 es2] st2].
      simpl in *. by rewrite Hrest, Hobs, app_assoc.
    + rewrite (Hleaf _ e Hd). simpl app.
      pose proof (IH Hwfs h st Hreach) as Hrest.
      destruct (walkSubdirs _ rel es h st) as [[h2 es2] st2]. done.
Qed.

Lemma cleanPaths_dir needW config gi gk rel n r w cs :
  cleanPaths needW config gi gk rel (Directory n r w cs) =
  if existsb (String.eqb n) (excludeDirs config) then []
  else if isIgnored rel true (accumulateFresh gi gk rel) then []
  else if negb r then []
  else
    flat_map (fun e => cleanPaths needW config gi gk (childPath rel (entryName e)) e) cs
    ++ (if hasMarkerFile config cs && (w || negb needW)
        then [childPath rel (gitkeepName config)]
        else []).
Proof. reflexivity. Qed.

Lemma map_flat_map {A B C : Type} (f : B -> C) (g : A -> list B) (l : list A) :
  map f (flat_map g l) = flat_map (fun x => map f (g x)) l.
Proof.
  induction l as [|x l IH]; [done|]. simpl. by rewrite map_app, IH.
Qed.

(** In clean mode a walk adds to an observed list one item for the marker
    of every directory that it evaluates, whether the directory is empty
    or not: [obs] is a list that only [removeGitkeep] extends. *)
Lemma walkDirectory_clean_trace {A : Type} config gi gk
    (obs : State -> list A) (mk : string -> A) (needW : bool) :
  clean config = true ->
  (forall s s', removed (summary s') = removed (summary s) ->
                console s' = console s -> obs s' = obs s) ->
  (forall w es rel s,
     distinct (map entryName es) = true ->
     hasMarkerFile config es = true ->
     obs (removeGitkeep config w es rel s).2
     = obs s ++ (if w || negb needW
                 then [mk (childPath rel (gitkeepName config))] else [])) ->
  forall dir rel st,
    reachable gi gk (rulesAccumulator st) ->
    wellFormed dir = true ->
    obs (walkDirectory config rel dir st).2
    = obs st ++ map mk (cleanPaths needW config gi gk rel dir).
Proof.
  intros Hclean Hext Hrem.
  induction dir as [n t|n r w cs IH|n] using entry_ind'; intros rel st Hreach Hwf.
  - destruct (walkDirectory_not_dir config rel (File n t) st eq_refl)
      as (s & -> & _ & Hr & Hn & _). simpl. rewrite app_nil_r. by apply Hext.
  - rewrite cleanPaths_dir, walkDirectory_dir.
    destruct (existsb (String.eqb n) (excludeDirs config)) eqn:Hex.
    { simpl. by rewrite app_nil_r. }
    pose proof (accumulate_result gi gk _ rel Hreach) as Hrules.
    pose proof (reach_accumulate gi gk _ rel Hreach) as Hreach1.
    destruct (accumulate (rulesAccumulator st) rel) as [rules acc].
    simpl in Hrules, Hreach1. subst rules. cbv zeta.
    assert (Hobs0 : obs (setAccumulator acc st) = obs st) by by apply Hext.
    destruct (isIgnored rel true _).
    { simpl. rewrite app_nil_r. by apply Hext. }
    destruct r; simpl negb; cbv iota; cycle 1.
    { simpl. rewrite app_nil_r. by apply Hext. }
    simpl in Hwf. apply andb_true_iff in Hwf as [Hdist Hwfs].
    pose proof (walkSubdirs_trace obs
                  (fun rel e => map mk (cleanPaths needW config gi gk rel e))
                  config gi gk rel cs) as Htrace.
    specialize (Htrace (fun _ e He => ltac:(by destruct e)) IH Hwfs false
                  (setAccumulator acc st) Hreach1).
    destruct (walkSubdirs (walkDirectory config) rel cs false (setAccumulator acc st))
      as [[h cs1] st1] eqn:Hloop.
    simpl in Htrace.
    apply (walkSubdirs_state _ rel (fun _ => True)
             (fun e e1 => stripMarkers config e1 = stripMarkers config e))
      in Hloop as [_ Hrel]; [| |done]; cycle 1.
    { apply Forall_forall. intros e _ _ s b e1 s1 _ Hw. split; [done|].
      by apply (walkDirectory_stripMarkers config e _ _ _ _ _ Hw). }
    destruct (walked_names_files config cs cs1 Hrel) as [Hnames Hfiles].
    rewrite reconcile_clean by done.
    fold (hasMarkerFile config cs). rewrite map_app, app_assoc, map_flat_map.
    rewrite <- Hobs0, <- Htrace.
    destruct (hasMarkerFile config cs) eqn:Hm; simpl andb; cbv iota.
    + assert (Hm1 : hasMarkerFile config cs1 = true).
      { unfold hasMarkerFile in *. by rewrite Hfiles. }
      pose proof (Hrem w cs1 rel st1 ltac:(by rewrite Hnames) Hm1) as Hobs.
      destruct (removeGitkeep config w cs1 rel st1) as [cs2 st2].
      simpl in *. rewrite Hobs. by destruct (w || negb needW).
    + simpl. by rewrite app_nil_r.
  - destruct (walkDirectory_not_dir config rel (Other n) st eq_refl)
      as (s & -> & _ & Hr & Hn & _). simpl. rewrite app_nil_r. by apply Hext.
Qed.

(** C10: with the clean flag and the check flag both set, every walk is
    the walk of clean mode.  The mode branch removes a marker that is
    present whether the directory is empty or not and does nothing
    otherwise; no check diagnostic is printed and nothing is added to the
    created list.  Over the whole walk, the marker of every directory that
    is evaluated, at every depth, is scheduled for removal whatever the
    emptiness of the directory: a dry run prints one notice for each of
    them, and otherwise the removed list receives the marker of each of
    them that stands in a writable directory, children first and in the
    order of the listing. *)
Theorem C10_clean_before_check (config : Config) :
  clean config = true -> check config = true ->
  (forall rel dir st,
     walkDirectory config rel dir st
     = walkDirectory (withoutCheck config) rel dir st)
  /\ (forall w es rel isEmpty st,
        reconcile config w es rel isEmpty true st = removeGitkeep config w es rel st
        /\ reconcile config w es rel isEmpty false st = (es, st))
  /\ (forall rel dir st,
        created (summary (walkDirectory config rel dir st).2) = created (summary st)
        /\ List.filter isCheckNotice (console (walkDirectory config rel dir st).2)
           = List.filter isCheckNotice (console st))
  /\ (forall gi gk rel dir st,
        reachable gi gk (rulesAccumulator st) ->
        wellFormed dir = true ->
        if dryRun config
        then console (walkDirectory config rel dir st).2
             = console st
               ++ map WouldRemove (cleanPaths false config gi gk rel dir)
        else removed (summary (walkDirectory config rel dir st).2)
             = removed (summary st) ++ cleanPaths true config gi gk rel dir).
Proof.
  intros Hclean _. split; [|split; [|split]].
  - intros rel dir st. by apply walkDirectory_withoutCheck.
  - intros w es rel isEmpty st. by rewrite !reconcile_clean.
  - intros rel dir st.
    destruct (walkDirectory config rel dir st) as [[b dir'] st'] eqn:Hwalk.
    by apply (walkDirectory_clean config dir Hclean _ _ _ _ _ Hwalk).
  - intros gi gk rel dir st Hreach Hwf. destruct (dryRun config) eqn:Hdry.
    + apply (walkDirectory_clean_trace config gi gk console WouldRemove false);
        try done.
      intros w es rel' s _ _. unfold removeGitkeep. rewrite Hdry. simpl.
      by rewrite orb_true_r.
    + rewrite <- (map_id (cleanPaths true config gi gk rel dir)).
      apply (walkDirectory_clean_trace config gi gk
               (fun s => removed (summary s)) (fun p => p) true); try done.
      intros w es rel' s Hd Hm. unfold removeGitkeep, unlink. rewrite Hdry.
      destruct w; simpl.
      * by destruct (removeEntry_marker_file config es Hd Hm) as [es' ->].
      * by rewrite app_nil_r.
Qed.

Lemma C10_clean_before_check_witness :
  let config := MkConfig false false "" true true [".git"] ".gitkeep" true in
  let logs := Directory "logs" true true [File ".gitkeep" ""] in
  let src := Directory "src" true true [File "main.ts" ""; File ".gitkeep" ""] in
  let project := Directory "project" true true [logs; src; File "README.md" ""] in
  walkDirectory config "." project (initialState ∅ ∅)
  = walkDirectory (withoutCheck config) "." project (initialState ∅ ∅)
  /\ removed (summary (walkDirectory config "." project (initialState ∅ ∅)).2)
     = ["logs/.gitkeep"; "src/.gitkeep"]
  /\ console (walkDirectory config "." project (initialState ∅ ∅)).2 = [].
Proof.
  intros config logs src project.
  destruct (C10_clean_before_check config eq_refl eq_refl) as (H1 & _ & _ & H4).
  split; [exact (H1 "." project (initialState ∅ ∅))|].
  split; [|reflexivity].
  exact (H4 ∅ ∅ "." project (initialState ∅ ∅) (reach_new ∅ ∅) eq_refl).
Defined.
